(** * dead / generator.py: the interesting-case discovery engine

    A shallow embedding of [generator.py]: the two random program generators
    ([run_csmith], [run_yarpgen]), the instrumentation pipeline
    ([generate_file]), the discovery loop
    ([CaseGenerator.generate_interesting_case]), the parallel
    orchestrator ([parallel_interesting_case], [terminate_processes]), its
    workers ([_wrapper_interesting]) and the writer of the case files
    ([parallel_interesting_case_file]).

    Everything outside the module (the external tools, the file system, the
    random number generator, the Builder and the Checker) is an oracle over
    an abstract world, gathered in the class [Env].  Calls to [logging] have
    no effect on any value of the program and are left out.  A [while True]
    loop is a function of the fuel it may use; [self.try_counter], which is
    only logged, is an argument of the discovery loop. *)

From stdpp Require Import gmap strings list.
From Stdlib Require Import ZArith Ascii.
From Stdlib Require DecimalString DecimalN.

Local Open Scope Z_scope.

(** ** Python exceptions and the effect monad *)

(** The exception classes that occur in this module or can reach it. *)
Inductive exn : Type :=
  | CompileError            (* builder.CompileError *)
  | TimeoutExpired          (* subprocess.TimeoutExpired *)
  | AssertionError
  | IndexError
  | ProcessLookupError
  | UnicodeDecodeError
  | OSError (msg : string)
  | Exception (msg : string).

Global Instance exn_eq_dec : EqDecision exn.
Proof. solve_decision. Defined.

(** What a call into the environment gives back. *)
Inductive result (A : Type) : Type :=
  | Ok (a : A)
  | Raise (e : exn).
Global Arguments Ok {A} a.
Global Arguments Raise {A} e.

(** What a piece of the program gives back: a value, an exception, or no
    answer within the fuel given to its [while True] loops. *)
Inductive outcome (A : Type) : Type :=
  | Return (a : A)
  | Raised (e : exn)
  | OutOfFuel.
Global Arguments Return {A} a.
Global Arguments Raised {A} e.
Global Arguments OutOfFuel {A}.

Definition M (W A : Type) : Type := W → outcome A * W.

Definition ret {W A} (a : A) : M W A := λ w, (Return a, w).
Definition raise {W A} (e : exn) : M W A := λ w, (Raised e, w).
Definition out_of_fuel {W A} : M W A := λ w, (OutOfFuel, w).

Definition bind {W A B} (m : M W A) (k : A → M W B) : M W B :=
  λ w, match m w with
       | (Return a, w') => k a w'
       | (Raised e, w') => (Raised e, w')
       | (OutOfFuel, w') => (OutOfFuel, w')
       end.

Notation "x <~ m ; k" := (bind m (λ x, k))
  (at level 20, m at level 100, k at level 200, only parsing).
Notation "' p <~ m ; k" := (bind m (λ x, match x with p => k end))
  (at level 20, p pattern, m at level 100, k at level 200, only parsing).
Notation "'do' m ; k" := (bind m (λ _, k))
  (at level 20, m at level 100, k at level 200, only parsing).

(** A call to an oracle that may raise. *)
Definition call {W A} (o : W → result A * W) : M W A :=
  λ w, match o w with
       | (Ok a, w') => (Return a, w')
       | (Raise e, w') => (Raised e, w')
       end.

(** A call to an oracle that always answers. *)
Definition call_total {W A} (o : W → A * W) : M W A :=
  λ w, let '(a, w') := o w in (Return a, w').

Definition of_result {W A} (r : result A) : M W A :=
  match r with Ok a => ret a | Raise e => raise e end.

(** [try: m  except cls: h]: only the exception [cls] is handled. *)
Definition try_except {W A} (m : M W A) (cls : exn) (h : M W A) : M W A :=
  λ w, match m w with
       | (Raised e, w') => if decide (e = cls) then h w' else (Raised e, w')
       | r => r
       end.

(** [with ... :] blocks: [cleanup] runs on every way out of [m]. *)
Definition finally {W A} (m : M W A) (cleanup : W → W) : M W A :=
  λ w, let '(r, w') := m w in (r, cleanup w').

(** ** Python strings

    A [bytes] object is the string of its bytes.  A [str] is held as its
    UTF-8 encoding, which is what [bytes.decode("utf-8")] reads and what a
    text file stores: a character of more than one byte is a lead byte
    followed by continuation bytes, [10xxxxxx] in binary.  Lines, joins and
    the replacement of an ASCII pattern are the same on the encoding as on
    the characters; the length is not. *)

Definition newline : ascii := "010"%char.
Definition dquote : ascii := "034"%char.
Definition nl : string := String newline "".

(** The number of bytes of a string. *)
Definition byte_length (s : string) : Z := Z.of_nat (String.length s).

(** A continuation byte of UTF-8. *)
Definition is_continuation (c : ascii) : bool :=
  match c with
  | Ascii _ _ _ _ _ _ b6 b7 => b7 && negb b6
  end.

(** The characters (code points) of a text: every byte that is not a
    continuation byte begins one. *)
Fixpoint code_points (s : string) : nat :=
  match s with
  | EmptyString => O
  | String c s' =>
      if is_continuation c then code_points s' else S (code_points s')
  end.

(** [len(s)] of a [str]: its number of characters, not of bytes. *)
Definition len (s : string) : Z := Z.of_nat (code_points s).

(** [''.join(lines)] *)
Definition join (lines : list string) : string := String.concat "" lines.

(** [f.readlines()] on the text of a file: the lines, each with its line
    end; a last line without line end is kept as it is. *)
Fixpoint readlines (s : string) : list string :=
  match s with
  | EmptyString => []
  | String c s' =>
      if Ascii.eqb c newline then String c "" :: readlines s'
      else match readlines s' with
           | [] => [String c ""]
           | l :: ls => String c l :: ls
           end
  end.

(** [s.replace(old, new)]: the occurrences of [old] are replaced from left
    to right and do not overlap.  [skip] counts the characters of an
    occurrence already replaced that are still to be passed over. *)
Fixpoint replace_from (old new : string) (skip : nat) (s : string) : string :=
  match s with
  | EmptyString => EmptyString
  | String c s' =>
      match skip with
      | S k => replace_from old new k s'
      | O =>
          if String.prefix old s
          then new +:+ replace_from old new (String.length old - 1) s'
          else String c (replace_from old new 0 s')
      end
  end.

(** With an empty [old], Python puts [new] before every character and at
    the end. *)
Fixpoint intersperse (new s : string) : string :=
  match s with
  | EmptyString => new
  | String c s' =>
      if is_continuation c then String c (intersperse new s')
      else new +:+ String c (intersperse new s')
  end.

Definition str_replace (old new s : string) : string :=
  match old with
  | EmptyString => intersperse new s
  | String _ _ => replace_from old new 0 s
  end.

(** [s[n:]] *)
Fixpoint str_drop (n : nat) (s : string) : string :=
  match n, s with
  | O, _ => s
  | S n', String _ s' => str_drop n' s'
  | S _, EmptyString => EmptyString
  end.

(** [os.path.join(a, b)] for two components. *)
Definition ends_with_slash (a : string) : bool :=
  match String.get (String.length a - 1) a with
  | Some c => Ascii.eqb c "/"
  | None => false
  end.

Definition pjoin (a b : string) : string :=
  if String.prefix "/" b then b
  else if (String.length a =? 0)%nat || ends_with_slash a then a +:+ b
  else a +:+ "/" +:+ b.

(** [l[i]] for a non-negative index: [IndexError] out of range. *)
Definition index {W A} (l : list A) (i : nat) : M W A :=
  match l !! i with
  | Some x => ret x
  | None => raise IndexError
  end.

(** [l[i]] for any integer index: negative indices count from the end. *)
Definition index_int {W A} (l : list A) (i : Z) : M W A :=
  let n := Z.of_nat (length l) in
  if (0 <=? i) && (i <? n) then index l (Z.to_nat i)
  else if (- n <=? i) && (i <? 0) then index l (Z.to_nat (n + i))
  else raise IndexError.

(** [del l[i]] for an index in range. *)
Definition del_at {A} (i : nat) (l : list A) : list A := take i l ++ drop (S i) l.

(** ** Data model *)

(** Modelled from the spec: [utils.CompilerSetting] is declared outside
    generator.py; the spec gives it a toolchain identity and version,
    flags and an optimization level.  Only [opt_level] is read here. *)
Record CompilerSetting : Type := {
  compiler : string;
  rev : string;
  opt_level : string;
  additional_flags : list string;
}.

Global Instance CompilerSetting_eq_dec : EqDecision CompilerSetting.
Proof. solve_decision. Defined.

(** Modelled from the spec: [utils.Scenario], the target and the attacker
    settings. *)
Record Scenario : Type := {
  target_settings : list CompilerSetting;
  attacker_settings : list CompilerSetting;
}.

(** Modelled from the spec: [utils.Case], with the eight fields that
    [generate_interesting_case] passes to its constructor. *)
Record Case : Type := {
  code : string;
  marker : string;
  bad_setting : CompilerSetting;
  good_settings : list CompilerSetting;
  scenario : Scenario;
  reduced_code : option string;
  bisection : option string;
  path : option string;
}.

(** The part of [config.csmith] and [config.yarpgen] that is read here. *)
Record ExecConfig : Type := {
  executable : string;
  include_path : string;
  min_size : Z;
  max_size : Z;
}.

(** The part of the configuration that is read here. *)
Record Config : Type := {
  llvm_sane_version : string;   (* config.llvm.sane_version *)
  dcei : string;                (* config.dcei *)
  csmith : ExecConfig;          (* config.csmith *)
  yarpgen : ExecConfig;         (* config.yarpgen *)
}.

(** [subprocess.CompletedProcess] *)
Record CompletedProcess : Type := {
  returncode : Z;
  stdout : string;
}.

(** ** The environment *)

(** The oracles the module calls.  Each takes the world before the call and
    gives the world after it. *)
Class Env (W : Type) : Type := {
  (** [random.randint(a, b)] *)
  randint : Z → Z → W → Z * W;
  (** [subprocess.run(cmd, stdout=PIPE, stderr=STDOUT)]: no timeout is
      passed, so the call waits for the tool. *)
  subprocess_run : list string → W → result CompletedProcess * W;
  (** [bytes.decode("utf-8")]: the text that the bytes encode, which is
      held as these bytes; [UnicodeDecodeError] for bytes that encode
      none. *)
  utf8_decode : string → result string;
  (** [TemporaryDirectory()]: entering gives the directory, leaving the
      [with] block removes it. *)
  TemporaryDirectory : W → result string * W;
  TemporaryDirectory_cleanup : string → W → W;
  (** [NamedTemporaryFile(suffix=...)]: entering gives the name, leaving the
      [with] block removes the file. *)
  NamedTemporaryFile : string → W → result string * W;
  NamedTemporaryFile_close : string → W → W;
  (** [open(name, 'r')] followed by reading all of the file. *)
  read_text : string → W → result string * W;
  (** [open(name, 'w')] followed by writing the text. *)
  write_text : string → string → W → result unit * W;
  (** [utils.find_include_paths(clang, file, flags)] *)
  find_include_paths : string → string → string → W → result (list string) * W;
  (** [utils.run_cmd(cmd)] *)
  run_cmd : list string → W → result string * W;
  (** [builder.find_alive_markers(code, setting, marker_prefix, bldr)] *)
  find_alive_markers :
    string → CompilerSetting → string → W → result (gset string) * W;
  (** [Checker.is_interesting(case)] *)
  is_interesting : Case → W → result bool * W;
  (** [Scenario.add_flags(flags)]: the scenario after the call. *)
  add_flags : Scenario → list string → Scenario;
  (** The order in which a [for] loop goes through a Python [set]. *)
  set_order : gset string → list string;
}.

(** ** Program Generator *)

Section Generators.
Context {W : Type} `{!Env W}.

Definition csmith_options : list string :=
  [ "arrays"; "bitfields"; "checksum"; "comma-operators";
    "compound-assignment"; "consts"; "divs"; "embedded-assigns"; "jumps";
    "longlong"; "force-non-uniform-arrays"; "math64"; "muls";
    "packed-struct"; "paranoid"; "pointers"; "structs"; "inline-function";
    "return-structs"; "arg-structs"; "dangling-global-pointers" ].

(** [for option in options: if randint(0, 1): ... else: ...] *)
Fixpoint csmith_toggle (options cmd : list string) : M W (list string) :=
  match options with
  | [] => ret cmd
  | option :: options' =>
      r <~ call_total (randint 0 1) ;
      if negb (r =? 0)
      then csmith_toggle options' (cmd ++ ["--" +:+ option])
      else csmith_toggle options' (cmd ++ ["--no-" +:+ option])
  end.

Definition csmith_cmd (csmith_exe : string) : M W (list string) :=
  csmith_toggle csmith_options
    [ csmith_exe; "--no-unions"; "--safe-math"; "--no-argc";
      "--no-volatiles"; "--no-volatile-pointers" ].

(** The [while True] loop of [run_csmith], entered with [tries]. *)
Fixpoint run_csmith_loop (fuel : nat) (csmith_exe : string) (tries : Z)
  : M W string :=
  match fuel with
  | O => out_of_fuel
  | S fuel' =>
      cmd <~ csmith_cmd csmith_exe ;
      result <~ call (subprocess_run cmd) ;
      if returncode result =? 0
      then of_result (utf8_decode (stdout result))
      else
        let tries := tries + 1 in
        if tries >? 10
        then raise (Exception "CSmith failed 10 times in a row!")
        else run_csmith_loop fuel' csmith_exe tries
  end.

(** The loop leaves after at most eleven rounds (see
    [run_csmith_loop_total]). *)
Definition run_csmith (csmith_exe : string) : M W string :=
  run_csmith_loop 11 csmith_exe 0.

Definition nsa_options : list string :=
  [ "inp-as-args"; "emit-align-attr"; "emit-pragmas"; "allow-ub-in-dc" ].
Definition tf_options : list string :=
  [ "allow-dead-data"; "param-shuffle"; "expl-loop-param" ].
Definition align_sizes : list string := [ "16"; "32"; "64" ].
Definition nsa : list string := [ "none"; "some"; "all" ].
Definition nea : list string := [ "none"; "exprs"; "all" ].
Definition tf : list string := [ "true"; "false" ].
Definition gen_files : list string := [ "driver.c"; "func.c" ].

(** [for option in options: ri = randint(0, hi); cmd.append(...)] *)
Fixpoint yarpgen_pick (options : list string) (hi : Z) (values : list string)
    (cmd : list string) : M W (list string) :=
  match options with
  | [] => ret cmd
  | option :: options' =>
      ri <~ call_total (randint 0 hi) ;
      v <~ index_int values ri ;
      yarpgen_pick options' hi values (cmd ++ ["--" +:+ option +:+ "=" +:+ v])
  end.

Definition yarpgen_cmd (yarpgen_exe out_dir : string) : M W (list string) :=
  cmd <~ yarpgen_pick nsa_options 2 nsa
           [ yarpgen_exe; "--std=c"; "--out-dir=" +:+ out_dir ] ;
  cmd <~ yarpgen_pick tf_options 1 tf cmd ;
  ri <~ call_total (randint 0 2) ;
  v <~ index_int nea ri ;
  let cmd := cmd ++ ["--mutate=" +:+ v] in
  ri <~ call_total (randint 0 2) ;
  v <~ index_int align_sizes ri ;
  ret (cmd ++ ["--align-size=" +:+ v]).

(** [for name in gen_files: with open(...) as f: content += [f.readlines()]] *)
Fixpoint read_files (out_dir : string) (names : list string)
    (content : list (list string)) : M W (list (list string)) :=
  match names with
  | [] => ret content
  | name :: names' =>
      text <~ call (read_text (pjoin out_dir name)) ;
      read_files out_dir names' (content ++ [readlines text])
  end.

(** The line that [run_yarpgen] expects at index 5 of func.c. *)
Definition include_init_h : string :=
  "#include " +:+ String dquote ("init.h" +:+ String dquote nl).

(** [assert content[1][5] == '#include "init.h"\n'; del content[1][5]] *)
Definition strip_include (content : list (list string))
  : M W (list (list string)) :=
  func <~ index content 1 ;
  line <~ index func 5 ;
  if decide (line = include_init_h)
  then ret (<[1%nat := del_at 5 func]> content)
  else raise AssertionError.

(** What one round of the loop of [run_yarpgen] does inside its
    [with TemporaryDirectory()] block: [inl] is the [return], [inr] the new
    value of [tries] for the next round. *)
Definition run_yarpgen_round (yarpgen_exe : string) (tries : Z)
    (out_dir : string) : M W (string + Z) :=
  cmd <~ yarpgen_cmd yarpgen_exe out_dir ;
  result <~ call (subprocess_run cmd) ;
  if returncode result =? 0
  then
    content <~ read_files out_dir gen_files [] ;
    content <~ strip_include content ;
    let concatenated := join (concat content) in
    let concatenated := str_replace "void test" "static void test" concatenated in
    ret (inl concatenated)
  else
    let tries := tries + 1 in
    if tries >? 100
    then raise (Exception "YARPGen failed 10 times in a row!")
    else ret (inr tries).

(** The [while True] loop of [run_yarpgen], entered with [tries]. *)
Fixpoint run_yarpgen_loop (fuel : nat) (yarpgen_exe : string) (tries : Z)
  : M W string :=
  match fuel with
  | O => out_of_fuel
  | S fuel' =>
      out_dir <~ call TemporaryDirectory ;
      r <~ finally (run_yarpgen_round yarpgen_exe tries out_dir)
             (TemporaryDirectory_cleanup out_dir) ;
      match r with
      | inl concatenated => ret concatenated
      | inr tries => run_yarpgen_loop fuel' yarpgen_exe tries
      end
  end.

(** The loop leaves after at most 101 rounds (see
    [run_yarpgen_loop_total]). *)
Definition run_yarpgen (yarpgen_exe : string) : M W string :=
  run_yarpgen_loop 101 yarpgen_exe 0.

End Generators.

(** ** Instrumentation Pipeline *)

Section Instrumentation.
Context {W : Type} `{!Env W}.

Definition instrument_program (dcei_exe file : string)
    (include_paths : list string) : M W string :=
  let cmd := [dcei_exe; file]
             ++ map (λ p, "--extra-arg=-isystem" +:+ p) include_paths in
  do call (run_cmd cmd);
  ret "DCEMarker".

(** The [with NamedTemporaryFile(suffix=".c") as ntf:] block of
    [generate_file]: the candidate is printed to the file, the tool rewrites
    the file in place and the file is read back. *)
Definition instrument_candidate (config : Config) (exec_cfg : ExecConfig)
    (additional_flags candidate : string) : M W (string * string) :=
  ntf <~ call (NamedTemporaryFile ".c");
  finally
    (do call (write_text ntf (candidate +:+ nl));
     include_paths <~ call (find_include_paths (llvm_sane_version config)
                              ntf additional_flags);
     let include_paths := include_paths ++ [include_path exec_cfg] in
     marker_prefix <~ instrument_program (dcei config) ntf include_paths;
     text <~ call (read_text ntf);
     ret (marker_prefix, text))
    (NamedTemporaryFile_close ntf).

(** The body of the [try] of [generate_file]: [None] is a [continue]. *)
Definition generate_file_round (gen_program : M W string) (config : Config)
    (exec_cfg : ExecConfig) (additional_flags : string)
  : M W (option (string * string)) :=
  candidate <~ gen_program;
  if len candidate >? max_size exec_cfg then ret None
  else if len candidate <? min_size exec_cfg then ret None
  else
    r <~ instrument_candidate config exec_cfg additional_flags candidate;
    ret (Some r).

(** The [while True] loop of [generate_file]; [except TimeoutExpired: pass]
    goes to the next round like a [continue]. *)
Fixpoint generate_file_loop (fuel : nat) (gen_program : M W string)
    (config : Config) (exec_cfg : ExecConfig) (additional_flags : string)
  : M W (string * string) :=
  match fuel with
  | O => out_of_fuel
  | S fuel' =>
      r <~ try_except
             (generate_file_round gen_program config exec_cfg additional_flags)
             TimeoutExpired (ret None);
      match r with
      | Some res => ret res
      | None =>
          generate_file_loop fuel' gen_program config exec_cfg additional_flags
      end
  end.

Definition generate_file (fuel : nat) (gen_program : M W string)
    (config : Config) (exec_cfg : ExecConfig) (additional_flags : string)
  : M W (string * string) :=
  let additional_flags :=
    additional_flags +:+ " -I " +:+ include_path exec_cfg in
  generate_file_loop fuel gen_program config exec_cfg additional_flags.

End Instrumentation.

(** ** Case Discovery Algorithm *)

(** The two subclasses of [CaseGenerator]. *)
Inductive CaseGenerator : Type :=
  | CSmithCaseGenerator
  | YARPGenCaseGenerator.

Section Discovery.
Context {W : Type} `{!Env W}.

Definition _get_runner_details (self : CaseGenerator) (config : Config)
  : M W string * ExecConfig * list string :=
  match self with
  | CSmithCaseGenerator =>
      (run_csmith (executable (csmith config)), csmith config,
       ["-I" +:+ include_path (csmith config)])
  | YARPGenCaseGenerator =>
      (run_yarpgen (executable (yarpgen config)), yarpgen config, [])
  end.

(** [[(tt, find_alive_markers(code, tt, prefix, bldr)) for tt in settings]] *)
Fixpoint alive_marker_list (candidate_code marker_prefix : string)
    (settings : list CompilerSetting)
  : M W (list (CompilerSetting * gset string)) :=
  match settings with
  | [] => ret []
  | setting :: settings' =>
      alive <~ call (find_alive_markers candidate_code setting marker_prefix);
      rest <~ alive_marker_list candidate_code marker_prefix settings';
      ret ((setting, alive) :: rest)
  end.

(** The two list comprehensions inside the [try] of the loop. *)
Definition find_alive (candidate_code marker_prefix : string)
    (scenario : Scenario)
  : M W (list (CompilerSetting * gset string)
         * list (CompilerSetting * gset string)) :=
  target_alive_marker_list <~
    alive_marker_list candidate_code marker_prefix (target_settings scenario);
  tester_alive_marker_list <~
    alive_marker_list candidate_code marker_prefix (attacker_settings scenario);
  ret (target_alive_marker_list, tester_alive_marker_list).

(** [for _, marker_set in l: target_alive_markers.update(marker_set)] *)
Definition collect_markers (l : list (CompilerSetting * gset string))
  : gset string :=
  foldl (λ acc p, acc ∪ p.2) ∅ l.

(** The attacker settings that eliminated [marker], in list order. *)
Fixpoint good_for (marker : string)
    (tester_alive_marker_list : list (CompilerSetting * gset string))
  : list CompilerSetting :=
  match tester_alive_marker_list with
  | [] => []
  | (good_setting, good_alive_markers) :: rest =>
      if bool_decide (marker ∉ good_alive_markers)
      then good_setting :: good_for marker rest
      else good_for marker rest
  end.

(** [for bad_setting, bad_alive_markers in target_alive_marker_list]: the
    first tentative case that the Checker accepts.  A [CompileError] of the
    Checker is handled by [continue], like a rejected case. *)
Fixpoint find_bad (candidate_code marker : string)
    (good : list CompilerSetting) (scen : Scenario)
    (good_opt_levels : list string)
    (target_alive_marker_list : list (CompilerSetting * gset string))
  : M W (option Case) :=
  match target_alive_marker_list with
  | [] => ret None
  | (bad, bad_alive_markers) :: rest =>
      if bool_decide (marker ∈ bad_alive_markers)
         && bool_decide (opt_level bad ∈ good_opt_levels)
      then
        let case := {| code := candidate_code;
                       marker := marker;
                       bad_setting := bad;
                       good_settings := good;
                       scenario := scen;
                       reduced_code := None;
                       bisection := None;
                       path := None |} in
        accepted <~ try_except (call (is_interesting case))
                      CompileError (ret false);
        if accepted then ret (Some case)
        else find_bad candidate_code marker good scen good_opt_levels rest
      else find_bad candidate_code marker good scen good_opt_levels rest
  end.

(** [for marker in target_alive_markers] *)
Fixpoint extract_case (candidate_code : string) (scen : Scenario)
    (target_alive_marker_list tester_alive_marker_list
       : list (CompilerSetting * gset string))
    (markers : list string) : M W (option Case) :=
  match markers with
  | [] => ret None
  | marker :: markers' =>
      let good := good_for marker tester_alive_marker_list in
      if (0 <? length good)%nat
      then
        let good_opt_levels := map opt_level good in
        r <~ find_bad candidate_code marker good scen good_opt_levels
               target_alive_marker_list;
        match r with
        | Some case => ret (Some case)
        | None =>
            extract_case candidate_code scen target_alive_marker_list
              tester_alive_marker_list markers'
        end
      else
        extract_case candidate_code scen target_alive_marker_list
          tester_alive_marker_list markers'
  end.

(** One round of the loop after [generate_file]: [None] stands for both
    ways to the next round, the [continue] of [except CompileError] and the
    end of the marker loop. *)
Definition attempt (candidate_code marker_prefix : string) (scen : Scenario)
  : M W (option Case) :=
  lists <~ try_except
             (l <~ find_alive candidate_code marker_prefix scen; ret (Some l))
             CompileError (ret None);
  match lists with
  | None => ret None
  | Some (target_alive_marker_list, tester_alive_marker_list) =>
      let target_alive_markers := collect_markers target_alive_marker_list in
      extract_case candidate_code scen target_alive_marker_list
        tester_alive_marker_list (set_order target_alive_markers)
  end.

(** The [while True] loop of [generate_interesting_case], entered with
    [self.try_counter = try_counter]. *)
Fixpoint discovery_loop (fuel : nat) (prog_generator : M W string)
    (config : Config) (exec_config : ExecConfig) (scen : Scenario)
    (try_counter : Z) : M W Case :=
  match fuel with
  | O => out_of_fuel
  | S fuel' =>
      let try_counter := try_counter + 1 in
      '(marker_prefix, candidate_code) <~
         generate_file fuel' prog_generator config exec_config "";
      r <~ attempt candidate_code marker_prefix scen;
      match r with
      | Some case => ret case
      | None =>
          discovery_loop fuel' prog_generator config exec_config scen
            try_counter
      end
  end.

Definition generate_interesting_case (fuel : nat) (self : CaseGenerator)
    (config : Config) (scen : Scenario) : M W Case :=
  let '(prog_generator, exec_config, flags) :=
    _get_runner_details self config in
  let scen := add_flags scen flags in
  discovery_loop fuel prog_generator config exec_config scen 0.

End Discovery.

(** ** Parallel Search Orchestrator *)

Module Orchestrator.

(** The signals the orchestrator sends: [os.kill(pid, SIGSTOP)],
    [os.kill(pid, SIGCONT)], and the SIGTERM of [Process.terminate()]. *)
Inductive signal : Type := SIGSTOP | SIGCONT | SIGTERM.

Global Instance signal_eq_dec : EqDecision signal.
Proof. solve_decision. Defined.

(** A child process in the process table of the operating system.  A
    stopped process keeps a SIGTERM pending until it is continued; an exited
    process stays in the table until its parent waits for it, which this
    module never does. *)
Inductive pstate : Type :=
  | Running
  | Stopped (pending_term : bool)
  | Exited.

Definition alive (st : pstate) : bool :=
  match st with Exited => false | _ => true end.

(** The effect of a signal on a process, taken to be immediate. *)
Definition deliver (sig : signal) (st : pstate) : pstate :=
  match sig, st with
  | SIGSTOP, Running => Stopped false
  | SIGSTOP, _ => st
  | SIGCONT, Stopped true => Exited
  | SIGCONT, Stopped false => Running
  | SIGCONT, _ => st
  | SIGTERM, Running => Exited
  | SIGTERM, Stopped _ => Stopped true
  | SIGTERM, Exited => Exited
  end.

(** The world of the orchestrator: the process table, the messages on the
    [multiprocessing.Queue], and the signals sent so far. *)
Record OS : Type := {
  table : gmap Z pstate;
  queue : list string;
  signals : list (Z * signal);
}.

(** [multiprocessing.Process]: [pid] is [None] until the process is
    started. *)
Record Process : Type := { pid : option Z }.

(** [os.kill(pid, sig)] *)
Definition os_kill (n : Z) (sig : signal) : M OS unit :=
  λ w, match table w !! n with
       | Some st =>
           (Return tt,
            {| table := <[n := deliver sig st]> (table w);
               queue := queue w;
               signals := signals w ++ [(n, sig)] |})
       | None => (Raised ProcessLookupError, w)
       end.

(** [p.terminate()] of a started process: SIGTERM, a process that is gone
    is ignored. *)
Definition Process_terminate (n : Z) : M OS unit :=
  try_except (os_kill n SIGTERM) ProcessLookupError (ret tt).

Fixpoint terminate_processes (procs : list Process) : M OS unit :=
  match procs with
  | [] => ret tt
  | p :: procs' =>
      match pid p with
      | None => terminate_processes procs'
      | Some n =>
          do os_kill n SIGCONT;
          do Process_terminate n;
          terminate_processes procs'
      end
  end.

(** The signals [terminate_processes] is to send, in order. *)
Definition terminate_signals (procs : list Process) : list (Z * signal) :=
  flat_map (λ p, match pid p with
                 | Some n => [(n, SIGCONT); (n, SIGTERM)]
                 | None => []
                 end) procs.

(** *** The generator [parallel_interesting_case] and its workers

    The generator runs between two [next()] of its consumer; the workers
    run beside it.  Both are steps of one transition system over the world,
    so that every interleaving is covered. *)

(** Where the generator stands. *)
Inductive pc : Type :=
  | AtStart (i : nat)          (* [for p in self.procs: p.start()], at index i *)
  | AtGet                      (* [queue.get()] *)
  | AtStop (case : Case) (rest : list Process)
                               (* the SIGSTOP loop, [rest] still to do *)
  | AtYield (case : Case)      (* suspended at [yield case] *)
  | AtCont (rest : list Process)
                               (* the SIGCONT loop, [rest] still to do *)
  | Crashed (e : exn).         (* left by an exception *)

Record Sys : Type := {
  os : OS;
  procs : list Process;        (* [self.procs] *)
  at_pc : pc;
}.

Inductive event : Type :=
  | EStart (n : Z)             (* a worker is started with pid n *)
  | EGet (msg : string)        (* a message is taken from the queue *)
  | EKill (n : Z) (sig : signal)
  | EYield (case : Case)       (* the case is delivered to the consumer *)
  | ENext                      (* the consumer asks for the next case *)
  | ETau                       (* a step of the generator nobody sees *)
  | EFail (e : exn)            (* the generator is left by an exception *)
  | EPut (n : Z) (msg : string)  (* worker n puts a case on the queue *)
  | EExit (n : Z).             (* worker n exits *)

(** The events of the generator itself that can be seen from outside, as
    opposed to its silent steps and the events of its workers. *)
Definition own (e : event) : bool :=
  match e with EPut _ _ | EExit _ | ETau => false | _ => true end.

Section Steps.
(** [start_stop] and the decoding of a message,
    [Case.from_jsonable_dict(config, json.loads(case_str))]. *)
Variable start_stop : bool.
Variable decode : string → result Case.

Definition with_queue (w : OS) (q : list string) : OS :=
  {| table := table w; queue := q; signals := signals w |}.
Definition with_table (w : OS) (t : gmap Z pstate) : OS :=
  {| table := t; queue := queue w; signals := signals w |}.

Inductive step : Sys → event → Sys → Prop :=
  (* [p.daemon = True; p.start()]: the system picks a pid not in use *)
  | step_start w ps i p n :
      ps !! i = Some p → table w !! n = None →
      step {| os := w; procs := ps; at_pc := AtStart i |}
           (EStart n)
           {| os := with_table w (<[n := Running]> (table w));
              procs := <[i := {| pid := Some n |}]> ps;
              at_pc := AtStart (S i) |}
  | step_start_fail w ps i p msg :
      ps !! i = Some p →
      step {| os := w; procs := ps; at_pc := AtStart i |}
           (EFail (OSError msg))
           {| os := w; procs := ps; at_pc := Crashed (OSError msg) |}
  | step_started w ps i :
      ps !! i = None →
      step {| os := w; procs := ps; at_pc := AtStart i |}
           ETau
           {| os := w; procs := ps; at_pc := AtGet |}
  (* [case_str = queue.get(); case = Case.from_jsonable_dict(...)] *)
  | step_get w ps msg q case :
      queue w = msg :: q → decode msg = Ok case →
      step {| os := w; procs := ps; at_pc := AtGet |}
           (EGet msg)
           {| os := with_queue w q; procs := ps;
              at_pc := AtStop case (if start_stop then ps else []) |}
  | step_get_fail w ps msg q e :
      queue w = msg :: q → decode msg = Raise e →
      step {| os := w; procs := ps; at_pc := AtGet |}
           (EFail e)
           {| os := with_queue w q; procs := ps; at_pc := Crashed e |}
  (* [for p in self.procs: ... os.kill(p.pid, signal.SIGSTOP)] *)
  | step_stop_skip w ps case p rest :
      pid p = None →
      step {| os := w; procs := ps; at_pc := AtStop case (p :: rest) |}
           ETau
           {| os := w; procs := ps; at_pc := AtStop case rest |}
  | step_stop w w' ps case p rest n :
      pid p = Some n → os_kill n SIGSTOP w = (Return tt, w') →
      step {| os := w; procs := ps; at_pc := AtStop case (p :: rest) |}
           (EKill n SIGSTOP)
           {| os := w'; procs := ps; at_pc := AtStop case rest |}
  | step_stop_fail w w' ps case p rest n e :
      pid p = Some n → os_kill n SIGSTOP w = (Raised e, w') →
      step {| os := w; procs := ps; at_pc := AtStop case (p :: rest) |}
           (EFail e)
           {| os := w'; procs := ps; at_pc := Crashed e |}
  (* [yield case] *)
  | step_yield w ps case :
      step {| os := w; procs := ps; at_pc := AtStop case [] |}
           (EYield case)
           {| os := w; procs := ps; at_pc := AtYield case |}
  (* the consumer calls [next()] again *)
  | step_next w ps case :
      step {| os := w; procs := ps; at_pc := AtYield case |}
           ENext
           {| os := w; procs := ps;
              at_pc := AtCont (if start_stop then ps else []) |}
  (* [for p in self.procs: ... os.kill(p.pid, signal.SIGCONT)] *)
  | step_cont_skip w ps p rest :
      pid p = None →
      step {| os := w; procs := ps; at_pc := AtCont (p :: rest) |}
           ETau
           {| os := w; procs := ps; at_pc := AtCont rest |}
  | step_cont w w' ps p rest n :
      pid p = Some n → os_kill n SIGCONT w = (Return tt, w') →
      step {| os := w; procs := ps; at_pc := AtCont (p :: rest) |}
           (EKill n SIGCONT)
           {| os := w'; procs := ps; at_pc := AtCont rest |}
  | step_cont_fail w w' ps p rest n e :
      pid p = Some n → os_kill n SIGCONT w = (Raised e, w') →
      step {| os := w; procs := ps; at_pc := AtCont (p :: rest) |}
           (EFail e)
           {| os := w'; procs := ps; at_pc := Crashed e |}
  | step_cont_done w ps :
      step {| os := w; procs := ps; at_pc := AtCont [] |}
           ETau
           {| os := w; procs := ps; at_pc := AtGet |}
  (* a running worker: [queue.put(json.dumps(case.to_jsonable_dict()))] *)
  | step_put w ps a p n msg :
      p ∈ ps → pid p = Some n → table w !! n = Some Running →
      step {| os := w; procs := ps; at_pc := a |}
           (EPut n msg)
           {| os := with_queue w (queue w ++ [msg]); procs := ps; at_pc := a |}
  (* a running worker is left by an exception *)
  | step_exit w ps a p n :
      p ∈ ps → pid p = Some n → table w !! n = Some Running →
      step {| os := w; procs := ps; at_pc := a |}
           (EExit n)
           {| os := with_table w (<[n := Exited]> (table w));
              procs := ps; at_pc := a |}.

(** Runs of the system, with the events in the order they happen. *)
Inductive exec (s0 : Sys) : list event → Sys → Prop :=
  | exec_nil : exec s0 [] s0
  | exec_snoc tr s e s' :
      exec s0 tr s → step s e s' → exec s0 (tr ++ [e]) s'.

(** Before the first [next()]: [self.procs] holds [processes] objects, none
    of them started. *)
Definition init (w : OS) (processes : nat) : Sys :=
  {| os := w;
     procs := replicate processes {| pid := None |};
     at_pc := AtStart 0 |}.

End Steps.

(** The SIGSTOP or SIGCONT loop over [procs], as events. *)
Definition kills (sig : signal) (ps : list Process) : list event :=
  flat_map (λ p, match pid p with
                 | Some n => [EKill n sig]
                 | None => []
                 end) ps.

(** A worker that cannot run: it is stopped or has exited. *)
Definition suspended (w : OS) (p : Process) : Prop :=
  ∃ n st, pid p = Some n ∧ table w !! n = Some st ∧ st ≠ Running.

(** Every started worker has its entry in the process table. *)
Definition pids_in_table (s : Sys) : Prop :=
  ∀ p n, p ∈ procs s → pid p = Some n → is_Some (table (os s) !! n).

(** The events of the generator in a run that can be seen from outside. *)
Definition own_events (tr : list event) : list event :=
  filter (λ e, own e = true) tr.

Definition all_started (s : Sys) : Prop :=
  ∀ p, p ∈ procs s → is_Some (pid p).

Definition no_yield (tr : list event) : Prop := ∀ c, EYield c ∉ tr.

(** What holds at each point of the generator, for the run [tr] that led
    there. *)
Definition inv (tr : list event) (s : Sys) : Prop :=
  match at_pc s with
  | AtStart i =>
      (∀ j p, (j < i)%nat → procs s !! j = Some p → is_Some (pid p))
      ∧ no_yield tr
  | AtGet =>
      all_started s
      ∧ (no_yield tr
         ∨ ∃ tr0 c, own_events tr
                    = tr0 ++ EYield c :: ENext :: kills SIGCONT (procs s))
  | AtStop c rest =>
      all_started s
      ∧ ∃ done tr0 msg,
          procs s = done ++ rest
          ∧ Forall (suspended (os s)) done
          ∧ own_events tr = tr0 ++ EGet msg :: kills SIGSTOP done
  | AtYield c =>
      all_started s
      ∧ Forall (suspended (os s)) (procs s)
      ∧ ∃ tr0 msg,
          own_events tr
          = tr0 ++ EGet msg :: kills SIGSTOP (procs s) ++ [EYield c]
  | AtCont rest =>
      all_started s
      ∧ ∃ done tr0 c,
          procs s = done ++ rest
          ∧ own_events tr = tr0 ++ EYield c :: ENext :: kills SIGCONT done
  | Crashed _ => True
  end.

End Orchestrator.

(** ** Vocabulary of the properties *)

Section Vocabulary.
Context {W : Type} `{!Env W}.

(** A computation that answers without running out of fuel. *)
Definition total {A} (m : M W A) : Prop := ∀ w w', m w ≠ (OutOfFuel, w').

(** [n] invocations of the generator in a row that time out. *)
Inductive times_out (gp : M W string) : nat → W → W → Prop :=
  | times_out_O w : times_out gp 0 w w
  | times_out_S n w w1 w2 :
      gp w = (Raised TimeoutExpired, w1) →
      times_out gp n w1 w2 →
      times_out gp (S n) w w2.

(** One round of [run_csmith] in which the tool exits with a code other
    than 0. *)
Definition csmith_round_fails (exe : string) (w w' : W) : Prop :=
  ∃ cmd w1 r,
    csmith_cmd exe w = (Return cmd, w1)
    ∧ subprocess_run cmd w1 = (Ok r, w')
    ∧ returncode r ≠ 0.

(** [n] such rounds in a row. *)
Inductive csmith_fails (exe : string) : nat → W → W → Prop :=
  | csmith_fails_O w : csmith_fails exe 0 w w
  | csmith_fails_S n w w1 w2 :
      csmith_round_fails exe w w1 →
      csmith_fails exe n w1 w2 →
      csmith_fails exe (S n) w w2.

(** One round of [run_yarpgen] in which the tool exits with a code other
    than 0; the temporary directory is removed at the end of the round. *)
Definition yarpgen_round_fails (exe : string) (w w' : W) : Prop :=
  ∃ out_dir w0 cmd w1 r w2,
    TemporaryDirectory w = (Ok out_dir, w0)
    ∧ yarpgen_cmd exe out_dir w0 = (Return cmd, w1)
    ∧ subprocess_run cmd w1 = (Ok r, w2)
    ∧ returncode r ≠ 0
    ∧ w' = TemporaryDirectory_cleanup out_dir w2.

Inductive yarpgen_fails (exe : string) : nat → W → W → Prop :=
  | yarpgen_fails_O w : yarpgen_fails exe 0 w w
  | yarpgen_fails_S n w w1 w2 :
      yarpgen_round_fails exe w w1 →
      yarpgen_fails exe n w1 w2 →
      yarpgen_fails exe (S n) w w2.


(** The round of [generate_file] that starts in [w] takes [cand] from the
    generator and goes on to instrument it: the candidate has passed the
    two tests of its length. *)
Definition accepted_for_instrumentation (gp : M W string) (config : Config)
    (ec : ExecConfig) (flags : string) (w : W) (cand : string) : Prop :=
  ∃ w1,
    gp w = (Return cand, w1)
    ∧ generate_file_round gp config ec flags w
      = bind (instrument_candidate config ec flags cand)
          (λ r, ret (Some r)) w1.

(** The claim that the bounds of [generate_file] are bounds on the number
    of bytes of an accepted candidate. *)
Definition size_bound_in_bytes : Prop :=
  ∀ (gp : M W string) config ec flags (w : W) cand,
    accepted_for_instrumentation gp config ec flags w cand →
    min_size ec ≤ byte_length cand ≤ max_size ec.

(** The claim that only the exhausted retry budget is fatal, for
    [run_yarpgen]: an exception means 101 failed rounds. *)
Definition only_exhaustion_is_fatal : Prop :=
  ∀ exe (w w' : W) e,
    run_yarpgen exe w = (Raised e, w') → yarpgen_fails exe 101 w w'.

(** The shape of a case built from the lists of one round. *)
Record found_in (tl al : list (CompilerSetting * gset string)) (code0 : string)
    (scen : Scenario) (c : Case) : Prop := {
  found_code : code c = code0;
  found_scenario : scenario c = scen;
  found_bad : ∃ S, (bad_setting c, S) ∈ tl ∧ marker c ∈ S;
  found_good : good_settings c = good_for (marker c) al;
  found_nonempty : good_settings c ≠ [];
  found_tier : opt_level (bad_setting c) ∈ map opt_level (good_settings c);
  found_reduced : reduced_code c = None;
  found_bisection : bisection c = None;
  found_path : path c = None;
  found_accepted : ∃ wa wb, is_interesting c wa = (Ok true, wb);
}.

End Vocabulary.

(** ** A small executable environment

    A world with a file system, a tape of random numbers and a tape of tool
    runs, on which the program can be run by computation. *)

Module TestEnv.

Record World : Type := {
  rand_tape : list Z;                         (* answers of randint *)
  run_tape : list (result CompletedProcess);  (* answers of subprocess.run *)
  gen_tape : list (result string);            (* answers of a scripted generator *)
  files : gmap string string;
}.

Definition with_rand (w : World) (t : list Z) : World :=
  {| rand_tape := t; run_tape := run_tape w; gen_tape := gen_tape w;
     files := files w |}.
Definition with_runs (w : World) (t : list (result CompletedProcess)) : World :=
  {| rand_tape := rand_tape w; run_tape := t; gen_tape := gen_tape w;
     files := files w |}.
Definition with_gens (w : World) (t : list (result string)) : World :=
  {| rand_tape := rand_tape w; run_tape := run_tape w; gen_tape := t;
     files := files w |}.
Definition with_files (w : World) (f : gmap string string) : World :=
  {| rand_tape := rand_tape w; run_tape := run_tape w; gen_tape := gen_tape w;
     files := f |}.

Definition succeeded (out : string) : result CompletedProcess :=
  Ok {| returncode := 0; stdout := out |}.
Definition failed (rc : Z) : result CompletedProcess :=
  Ok {| returncode := rc; stdout := "" |}.

Definition test_randint (a b : Z) (w : World) : Z * World :=
  match rand_tape w with
  | [] => (a, w)
  | x :: t => (x, with_rand w t)
  end.

Definition test_subprocess_run (cmd : list string) (w : World)
  : result CompletedProcess * World :=
  match run_tape w with
  | [] => (succeeded "int main(void) { return 0; }", w)
  | r :: t => (r, with_runs w t)
  end.

Definition test_read_text (name : string) (w : World) : result string * World :=
  match files w !! name with
  | Some text => (Ok text, w)
  | None => (Raise (OSError "No such file or directory"), w)
  end.

Definition test_write_text (name text : string) (w : World)
  : result unit * World :=
  (Ok tt, with_files w (<[name := text]> (files w))).

(** The instrumentation tool: it puts a declaration in front of the file. *)
Definition test_run_cmd (cmd : list string) (w : World) : result string * World :=
  match cmd with
  | _ :: file :: _ =>
      match files w !! file with
      | Some text =>
          (Ok "", with_files w
                    (<[file := "void DCEMarker0_(void);" +:+ nl +:+ text]>
                       (files w)))
      | None => (Raise (OSError "No such file or directory"), w)
      end
  | _ => (Ok "", w)
  end.

Definition test_add_flags (scen : Scenario) (flags : list string) : Scenario :=
  let add s := {| compiler := compiler s; rev := rev s;
                  opt_level := opt_level s;
                  additional_flags := additional_flags s ++ flags |} in
  {| target_settings := map add (target_settings scen);
     attacker_settings := map add (attacker_settings scen) |}.

(** The environment for a Builder [alive_of] and a Checker [interesting]
    that are functions of their arguments. *)
Definition env
    (alive_of : string → CompilerSetting → result (gset string))
    (interesting : Case → result bool) : Env World :=
  {| randint := test_randint;
     subprocess_run := test_subprocess_run;
     utf8_decode := Ok;
     TemporaryDirectory := λ w, (Ok "/tmp/out", w);
     TemporaryDirectory_cleanup := λ _ w, w;
     NamedTemporaryFile := λ suffix w, (Ok ("/tmp/candidate" +:+ suffix), w);
     NamedTemporaryFile_close := λ name w, with_files w (delete name (files w));
     read_text := test_read_text;
     write_text := test_write_text;
     find_include_paths := λ _ _ _ w, (Ok ["/usr/include"], w);
     run_cmd := test_run_cmd;
     find_alive_markers := λ c s _ w, (alive_of c s, w);
     is_interesting := λ c w, (interesting c, w);
     add_flags := test_add_flags;
     set_order := elements |}.

(** A generator that plays [gen_tape]. *)
Definition scripted_gen : M World string :=
  call (λ w, match gen_tape w with
             | [] => (Raise (Exception "end of tape"), w)
             | r :: t => (r, with_gens w t)
             end).

Definition empty_world : World :=
  {| rand_tape := []; run_tape := []; gen_tape := []; files := ∅ |}.

Definition test_config : Config :=
  {| llvm_sane_version := "clang-13";
     dcei := "dcei";
     csmith := {| executable := "csmith"; include_path := "/usr/include/csmith";
                  min_size := 10; max_size := 1000 |};
     yarpgen := {| executable := "yarpgen"; include_path := "/usr/include";
                   min_size := 10; max_size := 1000 |} |}.

(** The scenario of the spec: target A at O2, attacker B at O2, with an
    attacker at O3 beside it. *)
Definition A_O2 : CompilerSetting :=
  {| compiler := "A"; rev := "trunk"; opt_level := "2"; additional_flags := [] |}.
Definition B_O2 : CompilerSetting :=
  {| compiler := "B"; rev := "trunk"; opt_level := "2"; additional_flags := [] |}.
Definition B_O3 : CompilerSetting :=
  {| compiler := "B"; rev := "trunk"; opt_level := "3"; additional_flags := [] |}.
Definition test_scenario : Scenario :=
  {| target_settings := [A_O2]; attacker_settings := [B_O3; B_O2] |}.

(** Marker 7 is alive under A and dead under B at O2; every setting keeps
    marker 1. *)
Definition test_alive (c : string) (s : CompilerSetting) : result (gset string) :=
  if decide (compiler s = "B")
  then if decide (opt_level s = "2") then Ok {[ "DCEMarker1_" ]}
       else Ok {[ "DCEMarker1_"; "DCEMarker7_" ]}
  else Ok {[ "DCEMarker1_"; "DCEMarker7_" ]}.

End TestEnv.

(** ** Worlds, scenarios and runs for the examples *)

Module Fixtures.
Import TestEnv.

Definition e_accept : Env World := env test_alive (λ _, Ok true).

(** Two timeouts of the generator, then a candidate. *)
Definition w_timeouts : World :=
  with_gens empty_world
    [Raise TimeoutExpired; Raise TimeoutExpired;
     Ok "int main(void) { return 0; }"].
Definition w_timeouts1 : World :=
  with_gens empty_world
    [Raise TimeoutExpired; Ok "int main(void) { return 0; }"].
Definition w_timeouts2 : World :=
  with_gens empty_world [Ok "int main(void) { return 0; }"].

(** A candidate below [min_size], then one within the bounds. *)
Definition w_sizes : World :=
  with_gens empty_world [Ok "int x;"; Ok "int main(void) { return 0; }"].
Definition w_sizes1 : World :=
  with_gens empty_world [Ok "int main(void) { return 0; }"].

Definition instrumented : string :=
  "void DCEMarker0_(void);" +:+ nl +:+ "int main(void) { return 0; }" +:+ nl.

(** The run of the discovery loop on the scenario of [TestEnv], with the
    flags of the CSmith generator added to every setting. *)
Definition with_csmith_flags (s : CompilerSetting) : CompilerSetting :=
  {| compiler := compiler s; rev := rev s; opt_level := opt_level s;
     additional_flags := ["-I/usr/include/csmith"] |}.

Definition found_scenario : Scenario :=
  {| target_settings := [with_csmith_flags A_O2];
     attacker_settings := [with_csmith_flags B_O3; with_csmith_flags B_O2] |}.

Definition found_case : Case :=
  {| code := instrumented;
     marker := "DCEMarker7_";
     bad_setting := with_csmith_flags A_O2;
     good_settings := [with_csmith_flags B_O2];
     scenario := found_scenario;
     reduced_code := None;
     bisection := None;
     path := None |}.

(** A candidate of twelve characters in thirteen bytes: the comment holds
    a letter with an accent, two bytes in UTF-8.  The configuration allows
    ten to twelve. *)
Definition e_acute : string := String "195"%char (String "169"%char "").

Definition cand_accent : string := "/*" +:+ e_acute +:+ "*/int xy;".

Definition tight_config : Config :=
  {| llvm_sane_version := "clang-13";
     dcei := "dcei";
     csmith := {| executable := "csmith"; include_path := "/usr/include/csmith";
                  min_size := 10; max_size := 12 |};
     yarpgen := {| executable := "yarpgen"; include_path := "/usr/include";
                   min_size := 10; max_size := 12 |} |}.

Definition w_accent : World := with_runs empty_world [succeeded cand_accent].

Definition instrumented_accent : string :=
  "void DCEMarker0_(void);" +:+ nl +:+ cand_accent +:+ nl.

(** A Builder that fails on the program [int bad(void);] and a Checker
    that fails on every case whose bad setting is compiler A. *)
Definition bad_instrumented : string :=
  "void DCEMarker0_(void);" +:+ nl +:+ "int bad(void);" +:+ nl.

Definition flaky_alive (c : string) (s : CompilerSetting)
  : result (gset string) :=
  if decide (c = bad_instrumented) then Raise CompileError
  else test_alive c s.

Definition flaky_interesting (c : Case) : result bool :=
  if decide (compiler (bad_setting c) = "A") then Raise CompileError
  else Ok true.

Definition e_flaky : Env World := env flaky_alive flaky_interesting.



Definition w_bad_first : World :=
  with_runs empty_world [succeeded "int bad(void);"].

(** The world after the temporary file of a round is closed. *)
Definition w_closed : World :=
  with_files empty_world (delete "/tmp/candidate.c" ∅).

Definition A2_O2 : CompilerSetting :=
  {| compiler := "A2"; rev := "trunk"; opt_level := "2"; additional_flags := [] |}.

Definition tentative (bad : CompilerSetting) : Case :=
  {| code := instrumented;
     marker := "DCEMarker7_";
     bad_setting := bad;
     good_settings := [B_O2];
     scenario := test_scenario;
     reduced_code := None;
     bisection := None;
     path := None |}.

Definition both_alive : gset string := {[ "DCEMarker1_"; "DCEMarker7_" ]}.

(** A tool run that is left by [CompileError], to show the one way in
    which this exception can leave the discovery loop. *)
Definition w_gen_compile_error : World :=
  with_runs empty_world [Raise CompileError].

(** The output directory of a run of YARPGen: driver.c, and func.c with
    its include of init.h at index 5. *)
Definition driver_c : string :=
  "extern void test();" +:+ nl +:+
  "int main() { test(); return 0; }" +:+ nl.

Definition func_body : string :=
  "void test() {" +:+ nl +:+ "}" +:+ nl.

Definition func_c : string :=
  "/*" +:+ nl +:+ "yarpgen version 2.0" +:+ nl +:+ "Seed: 1" +:+ nl +:+
  "Invocation: yarpgen --std=c" +:+ nl +:+ "*/" +:+ nl +:+
  include_init_h +:+ func_body.

(** func.c of a tool whose header is one line shorter: index 5 holds the
    first line of the function. *)
Definition func_c_short_header : string :=
  "/*" +:+ nl +:+ "yarpgen version 2.0" +:+ nl +:+ "Seed: 1" +:+ nl +:+
  "*/" +:+ nl +:+
  include_init_h +:+ func_body.

Definition out_dir_with (func : string) : gmap string string :=
  {[ "/tmp/out/driver.c" := driver_c; "/tmp/out/func.c" := func ]}.

Definition w_yarpgen : World := with_files empty_world (out_dir_with func_c).
Definition w_yarpgen_short_header : World :=
  with_files empty_world (out_dir_with func_c_short_header).

(** The command line when every [randint] answers 0. *)
Definition yarpgen_cmd_0 : list string :=
  [ "yarpgen"; "--std=c"; "--out-dir=/tmp/out";
    "--inp-as-args=none"; "--emit-align-attr=none"; "--emit-pragmas=none";
    "--allow-ub-in-dc=none"; "--allow-dead-data=true"; "--param-shuffle=true";
    "--expl-loop-param=true"; "--mutate=none"; "--align-size=16" ].

Definition concatenated_0 : string :=
  "extern static void test();" +:+ nl +:+
  "int main() { test(); return 0; }" +:+ nl +:+
  "/*" +:+ nl +:+ "yarpgen version 2.0" +:+ nl +:+ "Seed: 1" +:+ nl +:+
  "Invocation: yarpgen --std=c" +:+ nl +:+ "*/" +:+ nl +:+
  "static void test() {" +:+ nl +:+ "}" +:+ nl.

(** Failed runs of the tool, followed by the default successful run. *)
Definition w_failures (n : nat) : World :=
  with_runs empty_world (replicate n (failed 1)).

End Fixtures.

Module OrchestratorFixtures.
Import Orchestrator.

(** A run with two workers up to the delivery of a case.  Worker 102 puts
    a second case after the first was taken and before its own SIGSTOP. *)
Definition w_boot : OS := {| table := ∅; queue := []; signals := [] |}.

Definition test_decode (msg : string) : result Case := Ok Fixtures.found_case.

Definition worker (n : Z) : Process := {| pid := Some n |}.

Definition run_to_yield : list event :=
  [ EStart 101; EStart 102; ETau;
    EPut 101 "case 1"; EGet "case 1";
    EKill 101 SIGSTOP; EPut 102 "case 2"; EKill 102 SIGSTOP;
    EYield Fixtures.found_case ].

Definition s_yield : Sys :=
  {| os := {| table := {[ 101 := Stopped false; 102 := Stopped false ]};
              queue := ["case 2"];
              signals := [(101, SIGSTOP); (102, SIGSTOP)] |};
     procs := [worker 101; worker 102];
     at_pc := AtYield Fixtures.found_case |}.

(** Workers as [terminate_processes] may find them: one stopped, one never
    started, one running. *)
Definition some_procs : list Process :=
  [worker 101; {| pid := None |}; worker 102].

Definition w_mixed : OS :=
  {| table := {[ 101 := Stopped false; 102 := Running ]};
     queue := ["case 2"];
     signals := [] |}.

Definition w_terminated : OS :=
  {| table := {[ 101 := Exited; 102 := Exited ]};
     queue := ["case 2"];
     signals := [(101, SIGCONT); (101, SIGTERM);
                 (102, SIGCONT); (102, SIGTERM)] |}.

End OrchestratorFixtures.

(** ** More vocabulary and worlds, for the properties beyond the claims *)

(** The options of YARPGen with the values each may take, in the order of
    the command line. *)
Definition yarpgen_choices : list (string * list string) :=
  map (λ o, (o, nsa)) nsa_options
  ++ map (λ o, (o, tf)) tf_options
  ++ [("mutate", nea); ("align-size", align_sizes)].

(** One argument of the command line of CSmith for the option [opt]. *)
Definition csmith_flag_for (arg opt : string) : Prop :=
  arg = "--" +:+ opt ∨ arg = "--no-" +:+ opt.

(** One argument of the command line of YARPGen for an option and its
    values. *)
Definition yarpgen_flag_for (arg : string) (choice : string * list string)
  : Prop :=
  ∃ v, v ∈ choice.2 ∧ arg = "--" +:+ choice.1 +:+ "=" +:+ v.

(** [random.randint(a, b)] answers within its bounds. *)
Definition randint_in_range {W : Type} `{!Env W} : Prop :=
  ∀ a b (w : W), a ≤ b → a ≤ (randint a b w).1 ≤ b.

(** A tentative case for the marker [m]: a target setting that kept the
    marker and whose optimization level is that of an attacker setting
    that eliminated it. *)
Definition tentative_for (tl al : list (CompilerSetting * gset string))
    (m : string) : Prop :=
  ∃ bad S, (bad, S) ∈ tl ∧ m ∈ S
           ∧ opt_level bad ∈ map opt_level (good_for m al).

(** A Checker that accepts every case. *)
Definition accepts_all {W : Type} `{!Env W} : Prop :=
  ∀ (c : Case) (w : W), ∃ w', is_interesting c w = (Ok true, w').

(** The iteration over a Python set visits exactly its elements. *)
Definition set_order_enumerates {W : Type} `{!Env W} : Prop :=
  ∀ (X : gset string) (m : string), m ∈ set_order X ↔ m ∈ X.

Module MoreFixtures.
Import TestEnv.

(** The environment of [TestEnv] with a [randint] that answers its lower
    bound. *)
Definition env_low
    (alive_of : string → CompilerSetting → result (gset string))
    (interesting : Case → result bool) : Env World :=
  {| randint := λ a _ w, (a, w);
     subprocess_run := test_subprocess_run;
     utf8_decode := Ok;
     TemporaryDirectory := λ w, (Ok "/tmp/out", w);
     TemporaryDirectory_cleanup := λ _ w, w;
     NamedTemporaryFile := λ suffix w, (Ok ("/tmp/candidate" +:+ suffix), w);
     NamedTemporaryFile_close := λ name w, with_files w (delete name (files w));
     read_text := test_read_text;
     write_text := test_write_text;
     find_include_paths := λ _ _ _ w, (Ok ["/usr/include"], w);
     run_cmd := test_run_cmd;
     find_alive_markers := λ c s _ w, (alive_of c s, w);
     is_interesting := λ c w, (interesting c, w);
     add_flags := test_add_flags;
     set_order := elements |}.

Definition e_low : Env World := env_low test_alive (λ _, Ok true).

(** Two failed runs of the tool, then the tool cannot be started. *)
Definition w_tool_gone : World :=
  with_runs empty_world
    [failed 1; failed 1; Raise (OSError "No such file or directory")].

(** The five lines of the header of func.c and the lines of its body. *)
Definition func_header_lines : list string :=
  [ "/*" +:+ nl; "yarpgen version 2.0" +:+ nl; "Seed: 1" +:+ nl;
    "Invocation: yarpgen --std=c" +:+ nl; "*/" +:+ nl ].
Definition func_body_lines : list string :=
  [ "void test() {" +:+ nl; "}" +:+ nl ].


(** A generator that gives up. *)
Definition w_gen_exhausted : World :=
  with_gens empty_world [Raise (Exception "CSmith failed 10 times in a row!")].

(** A candidate of exactly [min_size] characters. *)
Definition w_min_size : World := with_gens empty_world [Ok "int x = 0;"].

Definition instrumented_min : string :=
  "void DCEMarker0_(void);" +:+ nl +:+ "int x = 0;" +:+ nl.


(** A Builder whose compiler crashes, and a Checker that runs out of
    memory on compiler A. *)
Definition e_crash_builder : Env World :=
  env (λ _ _, Raise (OSError "cc1 crashed")) (λ _, Ok true).
Definition e_crash_checker : Env World :=
  env test_alive
      (λ c, if decide (compiler (bad_setting c) = "A")
            then Raise (OSError "out of memory") else Ok true).

(** The lists of alive markers of the scenario of [TestEnv]. *)
Definition test_tl : list (CompilerSetting * gset string) :=
  [(A_O2, {[ "DCEMarker1_"; "DCEMarker7_" ]})].
Definition test_al : list (CompilerSetting * gset string) :=
  [(B_O3, {[ "DCEMarker1_"; "DCEMarker7_" ]}); (B_O2, {[ "DCEMarker1_" ]})].

(** Every setting keeps the same markers. *)
Definition same_alive (c : string) (s : CompilerSetting) : result (gset string) :=
  Ok {[ "DCEMarker1_"; "DCEMarker7_" ]}.
Definition e_same : Env World := env same_alive (λ _, Raise (OSError "not asked")).

Definition no_targets : Scenario :=
  {| target_settings := []; attacker_settings := [B_O2] |}.

End MoreFixtures.

(** ** Runs of the orchestrator, seen through their events *)

Module OrchestratorTraces.
Import Orchestrator.

(** The messages the workers put on the queue, the messages the generator
    took from it, the cases it delivered, the pids of the workers it
    started and the signals it sent, each in the order of the run. *)
Definition puts (tr : list event) : list string :=
  flat_map (λ e, match e with EPut _ msg => [msg] | _ => [] end) tr.
Definition gets (tr : list event) : list string :=
  flat_map (λ e, match e with EGet msg => [msg] | _ => [] end) tr.
Definition yields (tr : list event) : list Case :=
  flat_map (λ e, match e with EYield c => [c] | _ => [] end) tr.
Definition starts (tr : list event) : list Z :=
  flat_map (λ e, match e with EStart n => [n] | _ => [] end) tr.
Definition sent (tr : list event) : list (Z * signal) :=
  flat_map (λ e, match e with EKill n sig => [(n, sig)] | _ => [] end) tr.

(** The case that was taken from the queue and is not delivered yet. *)
Definition pending (s : Sys) : list Case :=
  match at_pc s with AtStop c _ => [c] | _ => [] end.

Definition crashed (s : Sys) : Prop := ∃ e, at_pc s = Crashed e.

(** The generator is past its start loop and has not been left by an
    exception. *)
Definition serving (s : Sys) : Prop :=
  match at_pc s with AtStart _ | Crashed _ => False | _ => True end.

(** *** What holds along every run *)

(** The queue loses and gains nothing on its own, and every message taken
    was decoded into the case that is delivered for it. *)
Definition fifo_inv (decode : string → result Case) (w0 : OS) (tr : list event) (s : Sys) : Prop :=
  match at_pc s with
  | Crashed _ => True
  | _ =>
      queue w0 ++ puts tr = gets tr ++ queue (os s)
      ∧ map decode (gets tr) = map Ok (yields tr ++ pending s)
  end.

(** The signals recorded by the system are those of the run, and without
    start/stop mode the two loops over the workers have nothing to do. *)
Definition signal_inv (start_stop : bool) (w0 : OS) (tr : list event) (s : Sys) : Prop :=
  signals (os s) = signals w0 ++ sent tr
  ∧ (start_stop = false →
     match at_pc s with
     | AtStop _ rest | AtCont rest => rest = []
     | _ => True
     end).

(** The workers: which were started, and that each was started once. *)
Definition started_inv (processes : nat) (tr : list event) (s : Sys) : Prop :=
  procs s = map (λ n, {| pid := Some n |}) (starts tr)
            ++ replicate (processes - length (starts tr)) {| pid := None |}
  ∧ (length (starts tr) ≤ processes)%nat
  ∧ NoDup (starts tr)
  ∧ (∀ n, n ∈ starts tr → is_Some (table (os s) !! n))
  ∧ match at_pc s with
    | AtStart i => i = length (starts tr)
    | Crashed _ => True
    | _ => length (starts tr) = processes
    end.

(** A worker that is not held back: it runs, or it has exited on its own,
    as the run shows. *)
Definition resumed (tr : list event) (w : OS) (p : Process) : Prop :=
  ∃ n, pid p = Some n
       ∧ (table w !! n = Some Running
          ∨ (table w !! n = Some Exited ∧ EExit n ∈ tr)).

(** The states of the workers in start/stop mode.  No worker has a SIGTERM
    pending and a worker has exited only by a step of its own; outside the
    span from the SIGSTOP loop to its own SIGCONT no worker is stopped. *)
Definition worker_inv (tr : list event) (s : Sys) : Prop :=
  (∀ p n, p ∈ procs s → pid p = Some n →
     ∃ st, table (os s) !! n = Some st
           ∧ st ≠ Stopped true
           ∧ (st = Exited → EExit n ∈ tr))
  ∧ match at_pc s with
    | AtStart _ | AtGet =>
        ∀ p n, p ∈ procs s → pid p = Some n →
               table (os s) !! n ≠ Some (Stopped false)
    | AtCont rest =>
        ∃ done, procs s = done ++ rest
                ∧ ∀ p n, p ∈ done → pid p = Some n →
                         table (os s) !! n ≠ Some (Stopped false)
    | _ => True
    end.

(** After a delivery, a worker runs only once it has been sent SIGCONT. *)
Definition continued_inv (tr : list event) (s : Sys) : Prop :=
  ∀ tr1 c tr2, tr = tr1 ++ EYield c :: tr2 →
    ∀ p n, p ∈ procs s → pid p = Some n →
           table (os s) !! n = Some Running →
           EKill n SIGCONT ∈ tr2.

(** The run of [OrchestratorFixtures] goes on: the consumer asks for the
    next case, both workers are continued and the generator is back at
    [queue.get()], where the second case waits. *)
Definition run_to_resume : list event :=
  OrchestratorFixtures.run_to_yield
  ++ [ ENext; EKill 101 SIGCONT; EKill 102 SIGCONT; ETau ].

Definition s_resumed : Sys :=
  {| os := {| table := {[ 101 := Running; 102 := Running ]};
              queue := ["case 2"];
              signals := [(101, SIGSTOP); (102, SIGSTOP);
                          (101, SIGCONT); (102, SIGCONT)] |};
     procs := [OrchestratorFixtures.worker 101; OrchestratorFixtures.worker 102];
     at_pc := AtGet |}.

(** A run without start/stop mode: the worker goes on after the delivery. *)
Definition run_free : list event :=
  [ EStart 101; ETau; EPut 101 "case 1"; EGet "case 1";
    EYield Fixtures.found_case; EPut 101 "case 2" ].

Definition s_free : Sys :=
  {| os := {| table := {[ 101 := Running ]};
              queue := ["case 2"];
              signals := [] |};
     procs := [OrchestratorFixtures.worker 101];
     at_pc := AtYield Fixtures.found_case |}.

(** A run in which the only worker is left by an exception before it
    found a case. *)
Definition run_orphaned : list event := [ EStart 101; ETau; EExit 101 ].

Definition s_orphaned : Sys :=
  {| os := {| table := {[ 101 := Exited ]}; queue := []; signals := [] |};
     procs := [OrchestratorFixtures.worker 101];
     at_pc := AtGet |}.

(** Workers of which the second is not in the process table. *)
Definition w_reaped : OS :=
  {| table := {[ 101 := Stopped false; 103 := Running ]};
     queue := [];
     signals := [] |}.

Definition procs_reaped : list Process :=
  [ OrchestratorFixtures.worker 101; OrchestratorFixtures.worker 102;
    OrchestratorFixtures.worker 103 ].

End OrchestratorTraces.

(** ** The worker of the orchestrator *)

Section Worker.
Context {W : Type} `{!Env W}.

(** [json.dumps(case.to_jsonable_dict())] *)
Variable dumps : Case → string.

(** [_wrapper_interesting]: the loop of a worker, with the messages it has
    put on the queue.  The scenario is one object for all rounds, so every
    call of [generate_interesting_case] adds the flags of the generator to
    the scenario that the call before it left.  The loop has no exit: it
    ends by an exception, or here by the end of its fuel ([None]). *)
Fixpoint _wrapper_interesting (fuel : nat) (self : CaseGenerator)
    (config : Config) (scen : Scenario) (queue : list string) (w : W)
  : option exn * list string * W :=
  match fuel with
  | O => (None, queue, w)
  | S fuel' =>
      match generate_interesting_case fuel' self config scen w with
      | (Return case, w1) =>
          _wrapper_interesting fuel' self config
            (add_flags scen (_get_runner_details self config).2)
            (queue ++ [dumps case]) w1
      | (Raised e, w1) => (Some e, queue, w1)
      | (OutOfFuel, w1) => (None, queue, w1)
      end
  end.

End Worker.

(** The scenario after [k] calls of [add_flags]. *)
Definition flagged {W : Type} `{!Env W} (flags : list string) (k : nat)
    (scen : Scenario) : Scenario :=
  Nat.iter k (λ s, add_flags s flags) scen.

Module WorkerFixtures.
Import TestEnv.

(** A stand-in for the JSON of a case: the flags of its bad setting. *)
Definition test_dumps (c : Case) : string :=
  String.concat " " (additional_flags (bad_setting c)).

End WorkerFixtures.

(** ** Cases written to files *)

(** The decimal digits of a natural number, as [str] gives them. *)
Definition digits (n : N) : string :=
  DecimalString.NilEmpty.string_of_uint (N.to_uint n).

Fixpoint zeros (k : nat) : string :=
  match k with
  | O => EmptyString
  | S k' => String "0"%char (zeros k')
  end.

(** [format(n, "0<width>")], the [{n:08}] and [{n:019}] of an f-string:
    the digits of [n], with zeros in front up to [width] characters, the
    sign of a negative number counted in and put first. *)
Definition format_int (width : nat) (n : Z) : string :=
  if n <? 0
  then let d := digits (Z.to_N (- n)) in
       "-" +:+ zeros (width - 1 - String.length d) +:+ d
  else let d := digits (Z.to_N n) in
       zeros (width - String.length d) +:+ d.

(** The number that a string of digits stands for. *)
Definition read_nat (s : string) : option N :=
  option_map N.of_uint (DecimalString.NilEmpty.uint_of_string s).

(** What [parallel_interesting_case_file] asks of a case. *)
Class FileEnv (W : Type) : Type := {
  (** [hash(str(case))] *)
  hash_str : Case → Z;
  (** [case.to_file(path)] *)
  to_file : Case → string → W → result unit * W;
}.

Section Files.
Context {W : Type} `{!FileEnv W}.

(** [f"case_{counter:08}-{h:019}.tar"] *)
Definition case_file_name (counter h : Z) : string :=
  "case_" +:+ format_int 8 counter +:+ "-" +:+ format_int 19 h +:+ ".tar".

(** One round of the loop of [parallel_interesting_case_file], from the
    case that [next(gen)] gave to the path that is yielded. *)
Definition write_case (output_dir : string) (counter : Z) (case : Case)
  : M W string :=
  let h := hash_str case in
  let h := Z.max h (- h) in
  let path := pjoin output_dir (case_file_name counter h) in
  do call (to_file case path);
  ret path.

(** The rounds for the cases that the inner generator gives one after the
    other, entered with [counter]: the paths yielded. *)
Fixpoint case_file_loop (output_dir : string) (counter : Z)
    (cases : list Case) : M W (list string) :=
  match cases with
  | [] => ret []
  | case :: cases' =>
      path <~ write_case output_dir counter case;
      paths <~ case_file_loop output_dir (counter + 1) cases';
      ret (path :: paths)
  end.

Definition parallel_interesting_case_file (output_dir : string)
    (cases : list Case) : M W (list string) :=
  case_file_loop output_dir 0 cases.

End Files.

Module FileFixtures.
Import TestEnv.

(** Cases are stored in the map of files; the hash of a case is negative. *)
Definition file_env : FileEnv World :=
  {| hash_str := λ c, - Z.of_nat (String.length (code c));
     to_file := λ c name w, test_write_text name (code c) w |}.

Definition second_case : Case :=
  {| code := Fixtures.bad_instrumented;
     marker := "DCEMarker7_";
     bad_setting := Fixtures.with_csmith_flags A_O2;
     good_settings := [Fixtures.with_csmith_flags B_O2];
     scenario := Fixtures.found_scenario;
     reduced_code := None;
     bisection := None;
     path := None |}.

Definition two_paths : list string :=
  [ "/out/case_00000000-0000000000000000053.tar";
    "/out/case_00000001-0000000000000000039.tar" ].

End FileFixtures.

(** * Properties *)

(** ** The effect monad *)

Section MonadFacts.
Context {W : Type}.

Lemma bind_Return_inv {A B} (m : M W A) (k : A → M W B) w b w' :
  bind m k w = (Return b, w') →
  ∃ a w1, m w = (Return a, w1) ∧ k a w1 = (Return b, w').
Proof.
  unfold bind. destruct (m w) as [[a|e|] w1]; intros Hk; try discriminate.
  eauto.
Qed.

Lemma bind_Raised_inv {A B} (m : M W A) (k : A → M W B) w e w' :
  bind m k w = (Raised e, w') →
  m w = (Raised e, w') ∨ ∃ a w1, m w = (Return a, w1) ∧ k a w1 = (Raised e, w').
Proof.
  unfold bind. destruct (m w) as [[a|e0|] w1]; intros Hk; try discriminate.
  - right. eauto.
  - left. congruence.
Qed.

Lemma bind_OutOfFuel_inv {A B} (m : M W A) (k : A → M W B) w w' :
  bind m k w = (OutOfFuel, w') →
  m w = (OutOfFuel, w') ∨ ∃ a w1, m w = (Return a, w1) ∧ k a w1 = (OutOfFuel, w').
Proof.
  unfold bind. destruct (m w) as [[a|e0|] w1]; intros Hk; try discriminate.
  - right. eauto.
  - left. congruence.
Qed.

Lemma bind_Return {A B} (m : M W A) (k : A → M W B) w a w1 :
  m w = (Return a, w1) → bind m k w = k a w1.
Proof. unfold bind. now intros ->. Qed.

Lemma bind_Raised {A B} (m : M W A) (k : A → M W B) w e w1 :
  m w = (Raised e, w1) → bind m k w = (Raised e, w1).
Proof. unfold bind. now intros ->. Qed.

Lemma call_Return_inv {A} (o : W → result A * W) w a w' :
  call o w = (Return a, w') ↔ o w = (Ok a, w').
Proof.
  unfold call. destruct (o w) as [[x|e] w1]; split; intros Hq;
    try discriminate; congruence.
Qed.

Lemma call_Raised_inv {A} (o : W → result A * W) w e w' :
  call o w = (Raised e, w') ↔ o w = (Raise e, w').
Proof.
  unfold call. destruct (o w) as [[x|e0] w1]; split; intros Hq;
    try discriminate; congruence.
Qed.

Lemma call_not_OutOfFuel {A} (o : W → result A * W) w w' :
  call o w ≠ (OutOfFuel, w').
Proof. unfold call. destruct (o w) as [[x|e0] w1]; discriminate. Qed.

Lemma try_except_Return_inv {A} (m h : M W A) cls w a w' :
  try_except m cls h w = (Return a, w') →
  m w = (Return a, w') ∨ ∃ w1, m w = (Raised cls, w1) ∧ h w1 = (Return a, w').
Proof.
  unfold try_except. destruct (m w) as [[x|e|] w1]; intros Hq; try discriminate.
  - now left.
  - destruct (decide (e = cls)) as [->|]; [right; eauto | discriminate].
Qed.

Lemma try_except_Raised_inv {A} (m h : M W A) cls w e w' :
  try_except m cls h w = (Raised e, w') →
  (m w = (Raised e, w') ∧ e ≠ cls)
  ∨ ∃ w1, m w = (Raised cls, w1) ∧ h w1 = (Raised e, w').
Proof.
  unfold try_except. destruct (m w) as [[x|e0|] w1]; intros Hq; try discriminate.
  destruct (decide (e0 = cls)) as [->|Hne]; [right; eauto |].
  left. split; congruence.
Qed.

Lemma try_except_handled {A} (m h : M W A) cls w w1 :
  m w = (Raised cls, w1) → try_except m cls h w = h w1.
Proof. unfold try_except. intros ->. now rewrite decide_True. Qed.

Lemma try_except_Return {A} (m h : M W A) cls w a w1 :
  m w = (Return a, w1) → try_except m cls h w = (Return a, w1).
Proof. unfold try_except. now intros ->. Qed.

Lemma try_except_other {A} (m h : M W A) cls w e w1 :
  m w = (Raised e, w1) → e ≠ cls → try_except m cls h w = (Raised e, w1).
Proof. unfold try_except. intros -> Hne. now rewrite decide_False. Qed.

Lemma finally_inv {A} (m : M W A) cleanup w r w' :
  finally m cleanup w = (r, w') → ∃ w1, m w = (r, w1) ∧ w' = cleanup w1.
Proof.
  unfold finally. destruct (m w) as [r1 w1]. intros [= <- <-]. eauto.
Qed.

End MonadFacts.

(** ** Instrumentation pipeline: size bound and timeouts *)

Section InstrumentationFacts.
Context {W : Type} `{!Env W}.

Lemma instrument_program_prefix dcei_exe file paths w p w' :
  instrument_program dcei_exe file paths w = (Return p, w') → p = "DCEMarker".
Proof.
  unfold instrument_program. intros Hb.
  apply bind_Return_inv in Hb as (out & w1 & _ & [= <- _]). reflexivity.
Qed.

Lemma instrument_candidate_prefix config ec flags cand w p text w' :
  instrument_candidate config ec flags cand w = (Return (p, text), w') →
  p = "DCEMarker".
Proof.
  unfold instrument_candidate. intros Hb.
  apply bind_Return_inv in Hb as (ntf & w1 & _ & Hb).
  apply finally_inv in Hb as (w2 & Hb & _).
  apply bind_Return_inv in Hb as (u & w3 & _ & Hb).
  apply bind_Return_inv in Hb as (paths & w4 & _ & Hb).
  apply bind_Return_inv in Hb as (p0 & w5 & Hp & Hb).
  apply bind_Return_inv in Hb as (t0 & w6 & _ & [= <- _ _]).
  eapply instrument_program_prefix, Hp.
Qed.

(** A round that ends with a result has a candidate within the bounds
    behind it. *)
Lemma generate_file_round_Some gp config ec flags w r w' :
  generate_file_round gp config ec flags w = (Return (Some r), w') →
  ∃ cand w1,
    gp w = (Return cand, w1)
    ∧ min_size ec ≤ len cand ≤ max_size ec
    ∧ instrument_candidate config ec flags cand w1 = (Return r, w').
Proof.
  unfold generate_file_round. intros Hb.
  apply bind_Return_inv in Hb as (cand & w1 & Hgp & Hb).
  destruct (len cand >? max_size ec) eqn:Hmax; [discriminate|].
  destruct (len cand <? min_size ec) eqn:Hmin; [discriminate|].
  apply bind_Return_inv in Hb as (r0 & w2 & Hins & [= <- <-]).
  exists cand, w1. split_and!; auto; lia.
Qed.

(** A candidate outside the bounds ends the round before the temporary
    file is made. *)
Lemma generate_file_round_discard gp config ec flags w cand w1 :
  gp w = (Return cand, w1) →
  len cand < min_size ec ∨ max_size ec < len cand →
  generate_file_round gp config ec flags w = (Return None, w1).
Proof.
  intros Hgp Hout. unfold generate_file_round.
  rewrite (bind_Return _ _ _ _ _ Hgp).
  destruct (len cand >? max_size ec) eqn:Hmax; [reflexivity|].
  destruct (len cand <? min_size ec) eqn:Hmin; [reflexivity|]. lia.
Qed.

Lemma generate_file_loop_Return fuel gp config ec flags w r w' :
  generate_file_loop fuel gp config ec flags w = (Return r, w') →
  ∃ cand w1 w2,
    gp w1 = (Return cand, w2)
    ∧ min_size ec ≤ len cand ≤ max_size ec
    ∧ instrument_candidate config ec flags cand w2 = (Return r, w').
Proof.
  revert w. induction fuel as [|fuel IH]; intros w; simpl; [intros [=]|].
  intros Hb. apply bind_Return_inv in Hb as ([r0|] & w1 & Htry & Hb).
  - injection Hb as <- <-.
    apply try_except_Return_inv in Htry as [Hr|(w2 & _ & [=])].
    apply generate_file_round_Some in Hr as (cand & w2 & ? & ? & ?).
    eauto 10.
  - eauto.
Qed.

(** A round left by [TimeoutExpired], wherever it was raised, or ended by
    [continue] hands over to the next round. *)
Lemma generate_file_loop_timeout fuel gp config ec flags w w1 :
  generate_file_round gp config ec flags w = (Raised TimeoutExpired, w1) →
  generate_file_loop (S fuel) gp config ec flags w
  = generate_file_loop fuel gp config ec flags w1.
Proof.
  intros Hr. simpl.
  rewrite (bind_Return _ _ w None w1); [reflexivity|].
  now rewrite (try_except_handled _ _ _ _ _ Hr).
Qed.

Lemma generate_file_loop_continue fuel gp config ec flags w w1 :
  generate_file_round gp config ec flags w = (Return None, w1) →
  generate_file_loop (S fuel) gp config ec flags w
  = generate_file_loop fuel gp config ec flags w1.
Proof.
  intros Hr. simpl.
  rewrite (bind_Return _ _ w None w1); [reflexivity|].
  now apply try_except_Return.
Qed.

Lemma generate_file_loop_no_timeout fuel gp config ec flags w w' :
  generate_file_loop fuel gp config ec flags w ≠ (Raised TimeoutExpired, w').
Proof.
  revert w. induction fuel as [|fuel IH]; intros w; simpl; [discriminate|].
  intros Hb. apply bind_Raised_inv in Hb as [Htry|([r0|] & w1 & Htry & Hb)].
  - apply try_except_Raised_inv in Htry as [[_ Hne]|(w1 & _ & [=])].
    now apply Hne.
  - discriminate.
  - now apply IH in Hb.
Qed.


Lemma generate_file_round_gen_raises gp config ec flags w e w1 :
  gp w = (Raised e, w1) →
  generate_file_round gp config ec flags w = (Raised e, w1).
Proof. intros Hgp. unfold generate_file_round. now apply bind_Raised. Qed.

Lemma generate_file_loop_times_out n fuel gp config ec flags w w1 :
  times_out gp n w w1 →
  generate_file_loop (n + fuel) gp config ec flags w
  = generate_file_loop fuel gp config ec flags w1.
Proof.
  induction 1 as [|n w w1 w2 Hgp _ IH]; [reflexivity|].
  change (S n + fuel)%nat with (S (n + fuel)).
  rewrite <- IH. apply generate_file_loop_timeout.
  now apply generate_file_round_gen_raises.
Qed.

End InstrumentationFacts.

(** ** Discovery: what a returned case looks like *)

Section DiscoveryFacts.
Context {W : Type} `{!Env W}.

(** The lists pair every setting, in order, with an answer of the
    Builder. *)
Lemma alive_marker_list_settings code prefix settings w l w' :
  alive_marker_list code prefix settings w = (Return l, w') →
  l.*1 = settings.
Proof.
  revert w l. induction settings as [|s settings IH]; intros w l; simpl.
  - now intros [= <- _].
  - intros Hb. apply bind_Return_inv in Hb as (S & w1 & _ & Hb).
    apply bind_Return_inv in Hb as (rest & w2 & Hrest & [= <- <-]).
    simpl. f_equal. eauto.
Qed.

Lemma alive_marker_list_calls code prefix settings w l w' :
  alive_marker_list code prefix settings w = (Return l, w') →
  ∀ s S, (s, S) ∈ l →
    ∃ wa wb, find_alive_markers code s prefix wa = (Ok S, wb).
Proof.
  revert w l. induction settings as [|s0 settings IH]; intros w l; simpl.
  - intros [= <- _] s S Hin. inversion Hin.
  - intros Hb s S Hin.
    apply bind_Return_inv in Hb as (S0 & w1 & Hcall & Hb).
    apply bind_Return_inv in Hb as (rest & w2 & Hrest & [= <- <-]).
    apply call_Return_inv in Hcall.
    apply elem_of_cons in Hin as [[= -> ->]|Hin]; eauto.
Qed.

Lemma elem_of_good_for m al g :
  g ∈ good_for m al ↔ ∃ S, (g, S) ∈ al ∧ m ∉ S.
Proof.
  induction al as [|[g0 S0] al IH]; simpl.
  - split; [intros Hin; inversion Hin | intros (S & Hin & _); inversion Hin].
  - case_bool_decide as Hm.
    + rewrite elem_of_cons, IH. split.
      * intros [->|(S & Hin & HS)]; [exists S0 | exists S];
          split; auto; [left | right]; auto.
      * intros (S & Hin & HS).
        apply elem_of_cons in Hin as [[= -> ->]|Hin]; [now left | right; eauto].
    + rewrite IH. split.
      * intros (S & Hin & HS). exists S. split; [now right | done].
      * intros (S & Hin & HS).
        apply elem_of_cons in Hin as [[= -> ->]|Hin]; [done | eauto].
Qed.


Lemma find_bad_Some code m scen al tl tl0 w c w' :
  good_for m al ≠ [] →
  (∀ x, x ∈ tl → x ∈ tl0) →
  find_bad code m (good_for m al) scen (map opt_level (good_for m al)) tl w
    = (Return (Some c), w') →
  found_in tl0 al code scen c.
Proof.
  intros Hne. revert w. induction tl as [|[bad S] tl IH]; intros w Hsub; simpl.
  - intros [=].
  - destruct (bool_decide (m ∈ S)
              && bool_decide (opt_level bad ∈ map opt_level (good_for m al)))
      eqn:Hcond.
    + apply andb_true_iff in Hcond as [HmS Htier].
      apply bool_decide_eq_true in HmS, Htier.
      intros Hb. apply bind_Return_inv in Hb as (acc & w1 & Htry & Hb).
      destruct acc.
      * injection Hb as <- _.
        apply try_except_Return_inv in Htry as [Hc|(w2 & _ & [=])].
        apply call_Return_inv in Hc.
        split; simpl; eauto.
        exists S. split; [apply Hsub; left | done].
      * eapply IH; [|exact Hb]. intros x Hx. apply Hsub. now right.
    + intros Hb. eapply IH; [|exact Hb]. intros x Hx. apply Hsub. now right.
Qed.

Lemma extract_case_Some code scen tl al ms w c w' :
  extract_case code scen tl al ms w = (Return (Some c), w') →
  found_in tl al code scen c.
Proof.
  revert w. induction ms as [|m ms IH]; intros w; simpl.
  - intros [=].
  - destruct (0 <? length (good_for m al))%nat eqn:Hlen.
    + intros Hb. apply bind_Return_inv in Hb as ([c0|] & w1 & Hfind & Hb).
      * injection Hb as <- _.
        eapply find_bad_Some; [| |exact Hfind]; [|auto].
        intros Hnil. rewrite Hnil in Hlen. discriminate.
      * eauto.
    + eauto.
Qed.

Lemma attempt_Some code prefix scen w c w' :
  attempt code prefix scen w = (Return (Some c), w') →
  ∃ tl al w1 w2,
    alive_marker_list code prefix (target_settings scen) w = (Return tl, w1)
    ∧ alive_marker_list code prefix (attacker_settings scen) w1
      = (Return al, w2)
    ∧ found_in tl al code scen c.
Proof.
  unfold attempt. intros Hb.
  apply bind_Return_inv in Hb as (lists & w2 & Htry & Hb).
  destruct lists as [[tl al]|]; [|discriminate].
  apply try_except_Return_inv in Htry as [Hl|(w3 & _ & [=])].
  apply bind_Return_inv in Hl as ([tl' al'] & w3 & Hfa & [= -> -> ->]).
  unfold find_alive in Hfa.
  apply bind_Return_inv in Hfa as (tl' & w4 & Htl & Hfa).
  apply bind_Return_inv in Hfa as (al' & w5 & Hal & [= -> -> ->]).
  exists tl, al, w4, w2. split_and!; auto.
  eapply extract_case_Some; eauto.
Qed.

Lemma discovery_loop_Return fuel pg config ec scen tc w c w' :
  discovery_loop fuel pg config ec scen tc w = (Return c, w') →
  ∃ fuel' code0 w0 w1,
    generate_file fuel' pg config ec "" w0 = (Return ("DCEMarker", code0), w1)
    ∧ attempt code0 "DCEMarker" scen w1 = (Return (Some c), w').
Proof.
  revert tc w. induction fuel as [|fuel IH]; intros tc w; simpl.
  - intros [=].
  - intros Hb. apply bind_Return_inv in Hb as ([prefix code0] & w1 & Hgen & Hb).
    apply bind_Return_inv in Hb as ([c0|] & w2 & Hatt & Hb).
    + injection Hb as <- <-.
      assert (prefix = "DCEMarker") as ->; [|eauto 10].
      unfold generate_file in Hgen.
      apply generate_file_loop_Return in Hgen as (cand & wa & wb & _ & _ & Hins).
      eapply instrument_candidate_prefix, Hins.
    + eauto.
Qed.

(** Every case that [generate_interesting_case] returns was built from the
    two lists of alive markers of one round, computed for the code of the
    case and the settings of its scenario. *)
Lemma returned_case fuel self config scen w c w' :
  generate_interesting_case fuel self config scen w = (Return c, w') →
  ∃ tl al w1 w2 w3,
    alive_marker_list (code c) "DCEMarker" (target_settings (scenario c)) w1
      = (Return tl, w2)
    ∧ alive_marker_list (code c) "DCEMarker" (attacker_settings (scenario c)) w2
      = (Return al, w3)
    ∧ found_in tl al (code c) (scenario c) c.
Proof.
  unfold generate_interesting_case.
  destruct (_get_runner_details self config) as [[pg ec] flags].
  intros Hloop.
  apply discovery_loop_Return in Hloop as (f & code0 & w0 & w1 & _ & Hatt).
  apply attempt_Some in Hatt as (tl & al & w2 & w3 & Htl & Hal & Hfound).
  destruct Hfound as [Hc Hs ? ? ? ? ? ? ? ?].
  exists tl, al, w1, w2, w3. rewrite Hc, Hs.
  split_and!; auto. split; auto.
Qed.

(** The good settings are attacker settings of the scenario. *)
Lemma good_for_attackers code prefix settings w al w' m g :
  alive_marker_list code prefix settings w = (Return al, w') →
  g ∈ good_for m al → g ∈ settings.
Proof.
  intros Hal Hg. apply alive_marker_list_settings in Hal as <-.
  apply elem_of_good_for in Hg as (S & Hin & _).
  apply list_elem_of_fmap. exists (g, S). auto.
Qed.










End DiscoveryFacts.


(** ** Claims about the instrumentation pipeline *)

(** C5: a timeout raised by an invocation of the generator inside
    [generate_file] is swallowed and the loop starts again from the top;
    any number of timeouts in a row is passed over in this way; and
    [generate_file] is never left by [TimeoutExpired]. *)
Theorem generate_file_swallows_timeouts {W : Type} `{!Env W}
    (gp : M W string) (config : Config) (ec : ExecConfig) (flags : string) :
  (∀ fuel w w1,
     gp w = (Raised TimeoutExpired, w1) →
     generate_file (S fuel) gp config ec flags w
     = generate_file fuel gp config ec flags w1)
  ∧ (∀ n fuel w w1,
       times_out gp n w w1 →
       generate_file (n + fuel) gp config ec flags w
       = generate_file fuel gp config ec flags w1)
  ∧ (∀ fuel w w',
       generate_file fuel gp config ec flags w ≠ (Raised TimeoutExpired, w')).
Proof.
  unfold generate_file. split_and!.
  - intros fuel w w1 Hgp. apply generate_file_loop_timeout.
    now apply generate_file_round_gen_raises.
  - intros n fuel w w1 Hn. now apply generate_file_loop_times_out.
  - intros fuel w w'. apply generate_file_loop_no_timeout.
Qed.

Lemma generate_file_swallows_timeouts_witness :
  times_out TestEnv.scripted_gen 2
    Fixtures.w_timeouts Fixtures.w_timeouts2
  ∧ generate_file (Env0 := Fixtures.e_accept) (2 + 1) TestEnv.scripted_gen
      TestEnv.test_config (csmith TestEnv.test_config) "" Fixtures.w_timeouts
    = generate_file (Env0 := Fixtures.e_accept) 1 TestEnv.scripted_gen
        TestEnv.test_config (csmith TestEnv.test_config) "" Fixtures.w_timeouts2.
Proof.
  assert (Hn : times_out TestEnv.scripted_gen 2
                 Fixtures.w_timeouts Fixtures.w_timeouts2).
  { apply times_out_S with Fixtures.w_timeouts1; [reflexivity|].
    apply times_out_S with Fixtures.w_timeouts2; [reflexivity|].
    apply times_out_O. }
  split; [exact Hn|].
  exact (proj1 (proj2 (generate_file_swallows_timeouts
                         TestEnv.scripted_gen TestEnv.test_config
                         (csmith TestEnv.test_config) ""))
           2%nat 1%nat _ _ Hn).
Defined.

(** The run above does return the instrumented program. *)
Example generate_file_after_two_timeouts :
  fst (generate_file (Env0 := Fixtures.e_accept) 3 TestEnv.scripted_gen
         TestEnv.test_config (csmith TestEnv.test_config) ""
         Fixtures.w_timeouts)
  = Return ("DCEMarker", Fixtures.instrumented).
Proof. vm_compute. reflexivity. Qed.

Lemma code_points_le_length (s : string) :
  (code_points s ≤ String.length s)%nat.
Proof.
  induction s as [|c s IH]; simpl; [lia|].
  destruct (is_continuation c); lia.
Qed.

Lemma accepted_within_bounds `{!Env W} (gp : M W string) config ec flags
    (w : W) cand :
  accepted_for_instrumentation gp config ec flags w cand →
  min_size ec ≤ len cand ≤ max_size ec.
Proof.
  intros (w1 & Hgp & Hround). unfold generate_file_round in Hround.
  rewrite (bind_Return _ _ _ _ _ Hgp) in Hround.
  destruct (len cand >? max_size ec) eqn:Hmax.
  { unfold bind, ret in Hround.
    destruct (instrument_candidate config ec flags cand w1) as [[r|e|] w2];
      discriminate. }
  destruct (len cand <? min_size ec) eqn:Hmin.
  { unfold bind, ret in Hround.
    destruct (instrument_candidate config ec flags cand w1) as [[r|e|] w2];
      discriminate. }
  lia.
Qed.

(** C6 (amended): the bounds of [generate_file] are bounds on [len] of the
    candidate, the number of characters of the decoded text, not on its
    number of bytes.  A candidate that a round accepts for instrumentation
    has between [min_size] and [max_size] characters, and so has every
    candidate behind a returned program; a candidate with fewer or more
    characters is dropped and the loop asks the generator for a new one.
    In bytes only the lower bound follows. *)
Theorem generate_file_size_bound {W : Type} `{!Env W}
    (gp : M W string) (config : Config) (ec : ExecConfig) (flags : string) :
  (∀ fuel w p text w',
     generate_file fuel gp config ec flags w = (Return (p, text), w') →
     ∃ cand w1 w2,
       gp w1 = (Return cand, w2)
       ∧ min_size ec ≤ len cand ≤ max_size ec
       ∧ instrument_candidate config ec
           (flags +:+ " -I " +:+ include_path ec) cand w2
         = (Return (p, text), w'))
  ∧ (∀ fuel w cand w1,
       gp w = (Return cand, w1) →
       len cand < min_size ec ∨ max_size ec < len cand →
       generate_file (S fuel) gp config ec flags w
       = generate_file fuel gp config ec flags w1)
  ∧ (∀ w cand,
       accepted_for_instrumentation gp config ec
         (flags +:+ " -I " +:+ include_path ec) w cand →
       min_size ec ≤ len cand ≤ max_size ec
       ∧ min_size ec ≤ byte_length cand).
Proof.
  unfold generate_file. split_and!.
  - intros fuel w p text w' Hret.
    apply generate_file_loop_Return in Hret as (cand & w1 & w2 & ? & ? & ?).
    eauto 10.
  - intros fuel w cand w1 Hgp Hout. apply generate_file_loop_continue.
    now apply generate_file_round_discard with cand.
  - intros w cand Hacc. apply accepted_within_bounds in Hacc.
    split; [exact Hacc|].
    pose proof (code_points_le_length cand). unfold len, byte_length in *. lia.
Qed.

Lemma generate_file_size_bound_witness :
  ((TestEnv.scripted_gen Fixtures.w_sizes = (Return "int x;", Fixtures.w_sizes1)
    ∧ (len "int x;" < min_size (csmith TestEnv.test_config)
       ∨ max_size (csmith TestEnv.test_config) < len "int x;"))
   ∧ generate_file (Env0 := Fixtures.e_accept) 2 TestEnv.scripted_gen
       TestEnv.test_config (csmith TestEnv.test_config) "" Fixtures.w_sizes
     = generate_file (Env0 := Fixtures.e_accept) 1 TestEnv.scripted_gen
         TestEnv.test_config (csmith TestEnv.test_config) "" Fixtures.w_sizes1)
  ∧ (accepted_for_instrumentation (Env0 := Fixtures.e_accept)
       (run_csmith (Env0 := Fixtures.e_accept) "csmith")
       Fixtures.tight_config (csmith Fixtures.tight_config)
       ("" +:+ " -I " +:+ include_path (csmith Fixtures.tight_config))
       Fixtures.w_accent Fixtures.cand_accent
     ∧ min_size (csmith Fixtures.tight_config) ≤ len Fixtures.cand_accent
       ≤ max_size (csmith Fixtures.tight_config)
     ∧ min_size (csmith Fixtures.tight_config)
       ≤ byte_length Fixtures.cand_accent).
Proof.
  split.
  2:{ assert (Hacc : accepted_for_instrumentation (Env0 := Fixtures.e_accept)
                       (run_csmith (Env0 := Fixtures.e_accept) "csmith")
                       Fixtures.tight_config (csmith Fixtures.tight_config)
                       ("" +:+ " -I "
                        +:+ include_path (csmith Fixtures.tight_config))
                       Fixtures.w_accent Fixtures.cand_accent).
      { exists TestEnv.empty_world. split; vm_compute; reflexivity. }
      split; [exact Hacc|].
      exact (proj2 (proj2 (generate_file_size_bound (Env0 := Fixtures.e_accept)
                             (run_csmith (Env0 := Fixtures.e_accept) "csmith")
                             Fixtures.tight_config
                             (csmith Fixtures.tight_config) ""))
               Fixtures.w_accent Fixtures.cand_accent Hacc). }
  assert (Hgp : TestEnv.scripted_gen Fixtures.w_sizes
                = (Return "int x;", Fixtures.w_sizes1)) by reflexivity.
  assert (Hout : len "int x;" < min_size (csmith TestEnv.test_config)
                 ∨ max_size (csmith TestEnv.test_config) < len "int x;")
    by (left; reflexivity).
  split; [split; [exact Hgp | exact Hout]|].
  exact (proj1 (proj2 (generate_file_size_bound (Env0 := Fixtures.e_accept)
                         TestEnv.scripted_gen TestEnv.test_config
                         (csmith TestEnv.test_config) ""))
           1%nat _ _ _ Hgp Hout).
Defined.

(** C6, as stated, fails: CSmith prints thirteen bytes that are twelve
    characters, the upper bound is 12, and [generate_file] instruments the
    candidate and returns the program. *)
Lemma accepted_candidate_exceeds_max_size_in_bytes :
  run_csmith (Env0 := Fixtures.e_accept) "csmith" Fixtures.w_accent
  = (Return Fixtures.cand_accent, TestEnv.empty_world)
  ∧ byte_length Fixtures.cand_accent = 13
  ∧ len Fixtures.cand_accent = 12
  ∧ max_size (csmith Fixtures.tight_config) = 12
  ∧ generate_file (Env0 := Fixtures.e_accept) 1
      (run_csmith (Env0 := Fixtures.e_accept) "csmith") Fixtures.tight_config
      (csmith Fixtures.tight_config) "" Fixtures.w_accent
    = (Return ("DCEMarker", Fixtures.instrumented_accent), Fixtures.w_closed)
  ∧ ¬ size_bound_in_bytes (Env0 := Fixtures.e_accept).
Proof.
  split_and!; try (vm_compute; reflexivity).
  intros Hclaim.
  assert (Hacc : accepted_for_instrumentation (Env0 := Fixtures.e_accept)
                   (run_csmith (Env0 := Fixtures.e_accept) "csmith")
                   Fixtures.tight_config (csmith Fixtures.tight_config)
                   " -I /usr/include/csmith" Fixtures.w_accent
                   Fixtures.cand_accent).
  { exists TestEnv.empty_world. split; vm_compute; reflexivity. }
  apply Hclaim in Hacc. vm_compute in Hacc. destruct Hacc as [_ Hle].
  now apply Hle.
Qed.

(** The run above returns the second candidate, whose
    length is within the bounds. *)
Example generate_file_skips_short_candidate :
  fst (generate_file (Env0 := Fixtures.e_accept) 2 TestEnv.scripted_gen
         TestEnv.test_config (csmith TestEnv.test_config) "" Fixtures.w_sizes)
  = Return ("DCEMarker", Fixtures.instrumented).
Proof. vm_compute. reflexivity. Qed.

(** ** Claims about the discovery loop *)

(** C1: for every case that [generate_interesting_case] returns, the marker
    of the case is in the set of alive markers computed for its bad setting
    and in none of the sets computed for its good settings.  The sets are
    those of the two lists of one round, computed for the code of the case
    and the settings of its scenario; when the Builder is a function [alive]
    of the code and the setting, this reads: the marker is in
    [alive(bad_setting)] and in no [alive(g)] for [g] in [good_settings]. *)
Theorem returned_case_marker_alive_bad_dead_good {W : Type} `{!Env W}
    (fuel : nat) (self : CaseGenerator) (config : Config) (scen : Scenario)
    (w w' : W) (c : Case) :
  generate_interesting_case fuel self config scen w = (Return c, w') →
  (∃ tl al w1 w2 w3,
     alive_marker_list (code c) "DCEMarker" (target_settings (scenario c)) w1
       = (Return tl, w2)
     ∧ alive_marker_list (code c) "DCEMarker"
         (attacker_settings (scenario c)) w2
       = (Return al, w3)
     ∧ (∃ S, (bad_setting c, S) ∈ tl ∧ marker c ∈ S)
     ∧ (∀ g, g ∈ good_settings c → ∃ S, (g, S) ∈ al ∧ marker c ∉ S))
  ∧ (∀ alive : string → CompilerSetting → gset string,
       (∀ code0 s wa S wb,
          find_alive_markers code0 s "DCEMarker" wa = (Ok S, wb) →
          S = alive code0 s) →
       marker c ∈ alive (code c) (bad_setting c)
       ∧ ∀ g, g ∈ good_settings c → marker c ∉ alive (code c) g).
Proof.
  intros Hret.
  apply returned_case in Hret as (tl & al & w1 & w2 & w3 & Htl & Hal & Hf).
  destruct Hf as [_ _ (S & Hbad & HmS) Hgood _ _ _ _ _ _].
  assert (Hdead : ∀ g, g ∈ good_settings c → ∃ S, (g, S) ∈ al ∧ marker c ∉ S).
  { intros g Hg. rewrite Hgood in Hg. now apply elem_of_good_for in Hg. }
  split.
  - exists tl, al, w1, w2, w3. split_and!; eauto.
  - intros alive Hfun. split.
    + destruct (alive_marker_list_calls _ _ _ _ _ _ Htl _ _ Hbad)
        as (wa & wb & Hcall).
      now rewrite <- (Hfun _ _ _ _ _ Hcall).
    + intros g Hg. destruct (Hdead g Hg) as (Sg & Hin & Hnot).
      destruct (alive_marker_list_calls _ _ _ _ _ _ Hal _ _ Hin)
        as (wa & wb & Hcall).
      now rewrite <- (Hfun _ _ _ _ _ Hcall).
Qed.

Lemma returned_case_marker_alive_bad_dead_good_witness :
  generate_interesting_case (Env0 := Fixtures.e_accept) 5 CSmithCaseGenerator
    TestEnv.test_config TestEnv.test_scenario TestEnv.empty_world
  = (Return Fixtures.found_case, Fixtures.w_closed)
  ∧ ∃ tl al w1 w2 w3,
      alive_marker_list (Env0 := Fixtures.e_accept)
        (code Fixtures.found_case) "DCEMarker"
        (target_settings (scenario Fixtures.found_case)) w1
      = (Return tl, w2)
      ∧ alive_marker_list (Env0 := Fixtures.e_accept)
          (code Fixtures.found_case) "DCEMarker"
          (attacker_settings (scenario Fixtures.found_case)) w2
        = (Return al, w3)
      ∧ (∃ S, (bad_setting Fixtures.found_case, S) ∈ tl
              ∧ marker Fixtures.found_case ∈ S)
      ∧ (∀ g, g ∈ good_settings Fixtures.found_case →
              ∃ S, (g, S) ∈ al ∧ marker Fixtures.found_case ∉ S).
Proof.
  assert (Hret : generate_interesting_case (Env0 := Fixtures.e_accept) 5
                   CSmithCaseGenerator TestEnv.test_config
                   TestEnv.test_scenario TestEnv.empty_world
                 = (Return Fixtures.found_case, Fixtures.w_closed))
    by (vm_compute; reflexivity).
  split; [exact Hret|].
  exact (proj1 (returned_case_marker_alive_bad_dead_good
                  5 CSmithCaseGenerator TestEnv.test_config
                  TestEnv.test_scenario _ _ _ Hret)).
Defined.

(** C2: for every case that [generate_interesting_case] returns, the
    optimization level of the bad setting is one of the optimization levels
    of the good settings. *)
Theorem returned_case_tier_matching {W : Type} `{!Env W}
    (fuel : nat) (self : CaseGenerator) (config : Config) (scen : Scenario)
    (w w' : W) (c : Case) :
  generate_interesting_case fuel self config scen w = (Return c, w') →
  opt_level (bad_setting c) ∈ map opt_level (good_settings c).
Proof.
  intros Hret.
  apply returned_case in Hret as (tl & al & w1 & w2 & w3 & _ & _ & Hf).
  apply Hf.
Qed.

Lemma returned_case_tier_matching_witness :
  generate_interesting_case (Env0 := Fixtures.e_accept) 5 CSmithCaseGenerator
    TestEnv.test_config TestEnv.test_scenario TestEnv.empty_world
  = (Return Fixtures.found_case, Fixtures.w_closed)
  ∧ opt_level (bad_setting Fixtures.found_case)
    ∈ map opt_level (good_settings Fixtures.found_case).
Proof.
  assert (Hret : generate_interesting_case (Env0 := Fixtures.e_accept) 5
                   CSmithCaseGenerator TestEnv.test_config
                   TestEnv.test_scenario TestEnv.empty_world
                 = (Return Fixtures.found_case, Fixtures.w_closed))
    by (vm_compute; reflexivity).
  split; [exact Hret|].
  exact (returned_case_tier_matching 5 CSmithCaseGenerator
           TestEnv.test_config TestEnv.test_scenario _ _ _ Hret).
Defined.

(** C10: every case that [generate_interesting_case] returns has a
    non-empty list of good settings, all of them attacker settings of its
    scenario that eliminated the marker, and its fields [reduced_code],
    [bisection] and [path] are [None]. *)
Theorem returned_case_fresh {W : Type} `{!Env W}
    (fuel : nat) (self : CaseGenerator) (config : Config) (scen : Scenario)
    (w w' : W) (c : Case) :
  generate_interesting_case fuel self config scen w = (Return c, w') →
  good_settings c ≠ []
  ∧ (0 < length (good_settings c))%nat
  ∧ (∀ g, g ∈ good_settings c → g ∈ attacker_settings (scenario c))
  ∧ reduced_code c = None
  ∧ bisection c = None
  ∧ path c = None.
Proof.
  intros Hret.
  apply returned_case in Hret as (tl & al & w1 & w2 & w3 & _ & Hal & Hf).
  destruct Hf as [_ _ _ Hgood Hne _ Hr Hb Hp _].
  split_and!; auto.
  - destruct (good_settings c); [done | simpl; lia].
  - intros g Hg. rewrite Hgood in Hg. eapply good_for_attackers; eauto.
Qed.

Lemma returned_case_fresh_witness :
  generate_interesting_case (Env0 := Fixtures.e_accept) 5 CSmithCaseGenerator
    TestEnv.test_config TestEnv.test_scenario TestEnv.empty_world
  = (Return Fixtures.found_case, Fixtures.w_closed)
  ∧ good_settings Fixtures.found_case ≠ []
  ∧ (0 < length (good_settings Fixtures.found_case))%nat
  ∧ (∀ g, g ∈ good_settings Fixtures.found_case →
          g ∈ attacker_settings (scenario Fixtures.found_case))
  ∧ reduced_code Fixtures.found_case = None
  ∧ bisection Fixtures.found_case = None
  ∧ path Fixtures.found_case = None.
Proof.
  assert (Hret : generate_interesting_case (Env0 := Fixtures.e_accept) 5
                   CSmithCaseGenerator TestEnv.test_config
                   TestEnv.test_scenario TestEnv.empty_world
                 = (Return Fixtures.found_case, Fixtures.w_closed))
    by (vm_compute; reflexivity).
  split; [exact Hret|].
  exact (returned_case_fresh 5 CSmithCaseGenerator
           TestEnv.test_config TestEnv.test_scenario _ _ _ Hret).
Defined.





(** Both runs above go on to return a case: the loop after
    the failed Builder with its second candidate, the search after the
    failed Checker with the next target setting. *)
Example discovery_after_builder_failure :
  fst (discovery_loop (Env0 := Fixtures.e_flaky) 3
         (run_csmith (Env0 := Fixtures.e_flaky) "csmith") TestEnv.test_config
         (csmith TestEnv.test_config)
         {| target_settings := [Fixtures.A2_O2];
            attacker_settings := [TestEnv.B_O2] |} 0 Fixtures.w_bad_first)
  = Return {| code := Fixtures.instrumented; marker := "DCEMarker7_";
              bad_setting := Fixtures.A2_O2; good_settings := [TestEnv.B_O2];
              scenario := {| target_settings := [Fixtures.A2_O2];
                             attacker_settings := [TestEnv.B_O2] |};
              reduced_code := None; bisection := None; path := None |}.
Proof. vm_compute. reflexivity. Qed.

Example find_bad_after_checker_failure :
  fst (find_bad (Env0 := Fixtures.e_flaky) Fixtures.instrumented
         "DCEMarker7_" [TestEnv.B_O2] TestEnv.test_scenario ["2"]
         [(TestEnv.A_O2, Fixtures.both_alive);
          (Fixtures.A2_O2, Fixtures.both_alive)] TestEnv.empty_world)
  = Return (Some (Fixtures.tentative Fixtures.A2_O2)).
Proof. vm_compute. reflexivity. Qed.

(** A [CompileError] raised inside [generate_file], here by the run of the
    generator, is not handled by the loop. *)
Example generate_file_compile_error_leaves :
  fst (generate_interesting_case (Env0 := Fixtures.e_accept) 2
         CSmithCaseGenerator TestEnv.test_config TestEnv.test_scenario
         Fixtures.w_gen_compile_error)
  = Raised CompileError.
Proof. vm_compute. reflexivity. Qed.

(** ** Program generators: termination and rounds *)

Section Totality.
Context {W : Type}.


Lemma total_ret {A} (a : A) : total (W := W) (ret a).
Proof. intros w w'. discriminate. Qed.

Lemma total_raise {A} e : total (W := W) (raise (A := A) e).
Proof. intros w w'. discriminate. Qed.

Lemma total_call {A} (o : W → result A * W) : total (call o).
Proof. intros w w'. apply call_not_OutOfFuel. Qed.

Lemma total_call_total {A} (o : W → A * W) : total (call_total o).
Proof. intros w w'. unfold call_total. destruct (o w). discriminate. Qed.

Lemma total_of_result {A} (r : result A) : total (W := W) (of_result r).
Proof. destruct r; [apply total_ret | apply total_raise]. Qed.

Lemma total_bind {A B} (m : M W A) (k : A → M W B) :
  total m → (∀ a, total (k a)) → total (bind m k).
Proof.
  intros Hm Hk w w' Hb.
  apply bind_OutOfFuel_inv in Hb as [Hb|(a & w1 & _ & Hb)].
  - now apply Hm in Hb.
  - now apply Hk in Hb.
Qed.

Lemma total_finally {A} (m : M W A) cleanup : total m → total (finally m cleanup).
Proof.
  intros Hm w w' Hb. apply finally_inv in Hb as (w1 & Hb & _).
  now apply Hm in Hb.
Qed.

Lemma total_index {A} (l : list A) i : total (W := W) (index l i).
Proof. unfold index. destruct (l !! i); [apply total_ret | apply total_raise]. Qed.

Lemma total_index_int {A} (l : list A) i : total (W := W) (index_int l i).
Proof.
  unfold index_int.
  repeat case_match; first [apply total_index | apply total_raise].
Qed.

End Totality.

Create HintDb total.
Global Hint Resolve total_ret total_raise total_call total_call_total
  total_of_result total_finally total_index total_index_int : total.

Section GeneratorFacts.
Context {W : Type} `{!Env W}.

Lemma total_csmith_toggle options cmd : total (csmith_toggle options cmd).
Proof.
  revert cmd. induction options as [|o options IH]; intros cmd; simpl.
  - apply total_ret.
  - apply total_bind; [apply total_call_total|].
    intros r. destruct (negb (r =? 0)); apply IH.
Qed.

Lemma total_csmith_cmd exe : total (csmith_cmd exe).
Proof. apply total_csmith_toggle. Qed.

(** The loop of [run_csmith] answers within [11 - tries] rounds. *)
Lemma run_csmith_loop_total fuel exe tries :
  tries ≤ 10 → (Z.to_nat (11 - tries) ≤ fuel)%nat →
  total (run_csmith_loop fuel exe tries).
Proof.
  revert tries. induction fuel as [|fuel IH]; intros tries Hle Hfuel; [lia|].
  simpl. apply total_bind; [apply total_csmith_cmd|]. intros cmd.
  apply total_bind; [apply total_call|]. intros r.
  destruct (returncode r =? 0); [apply total_of_result|].
  destruct (tries + 1 >? 10) eqn:Hgt; [apply total_raise|].
  apply IH; lia.
Qed.

Lemma run_csmith_total exe : total (run_csmith exe).
Proof. apply run_csmith_loop_total; [lia | reflexivity]. Qed.

Lemma total_yarpgen_pick options hi values cmd :
  total (yarpgen_pick options hi values cmd).
Proof.
  revert cmd. induction options as [|o options IH]; intros cmd; simpl.
  - apply total_ret.
  - apply total_bind; [apply total_call_total|]. intros ri.
    apply total_bind; [apply total_index_int|]. intros v. apply IH.
Qed.

Lemma total_yarpgen_cmd exe out_dir : total (yarpgen_cmd exe out_dir).
Proof.
  unfold yarpgen_cmd.
  repeat (apply total_bind;
          [auto using total_yarpgen_pick with total | intros ?]).
  apply total_ret.
Qed.

Lemma total_read_files out_dir names content :
  total (read_files out_dir names content).
Proof.
  revert content. induction names as [|n names IH]; intros content; simpl.
  - apply total_ret.
  - apply total_bind; [apply total_call|]. intros text. apply IH.
Qed.

Lemma total_strip_include content : total (strip_include (W := W) content).
Proof.
  unfold strip_include.
  apply total_bind; [apply total_index|]. intros func.
  apply total_bind; [apply total_index|]. intros line.
  case_decide; [apply total_ret | apply total_raise].
Qed.

Lemma total_run_yarpgen_round exe tries out_dir :
  total (run_yarpgen_round exe tries out_dir).
Proof.
  unfold run_yarpgen_round.
  apply total_bind; [apply total_yarpgen_cmd|]. intros cmd.
  apply total_bind; [apply total_call|]. intros r.
  destruct (returncode r =? 0).
  - apply total_bind; [apply total_read_files|]. intros content.
    apply total_bind; [apply total_strip_include|]. intros content'.
    apply total_ret.
  - destruct (tries + 1 >? 100); [apply total_raise | apply total_ret].
Qed.

(** A round that asks for another round has counted one more failure and
    is within the bound. *)
Lemma run_yarpgen_round_inr exe tries out_dir w tries' w' :
  run_yarpgen_round exe tries out_dir w = (Return (inr tries'), w') →
  tries' = tries + 1 ∧ tries' ≤ 100.
Proof.
  unfold run_yarpgen_round. intros Hb.
  apply bind_Return_inv in Hb as (cmd & w1 & _ & Hb).
  apply bind_Return_inv in Hb as (r & w2 & _ & Hb).
  destruct (returncode r =? 0).
  - apply bind_Return_inv in Hb as (c1 & w3 & _ & Hb).
    apply bind_Return_inv in Hb as (c2 & w4 & _ & [=]).
  - destruct (tries + 1 >? 100) eqn:Hgt; [discriminate|].
    injection Hb as <- _. lia.
Qed.

(** The loop of [run_yarpgen] answers within [101 - tries] rounds. *)
Lemma run_yarpgen_loop_total fuel exe tries :
  tries ≤ 100 → (Z.to_nat (101 - tries) ≤ fuel)%nat →
  total (run_yarpgen_loop fuel exe tries).
Proof.
  revert tries. induction fuel as [|fuel IH]; intros tries Hle Hfuel; [lia|].
  simpl. apply total_bind; [apply total_call|]. intros out_dir.
  intros w w' Hb.
  apply bind_OutOfFuel_inv in Hb as [Hb|([s|tries'] & w1 & Hr & Hb)].
  - revert Hb. apply total_finally, total_run_yarpgen_round.
  - discriminate.
  - apply finally_inv in Hr as (w2 & Hr & _).
    apply run_yarpgen_round_inr in Hr as [-> Hle'].
    revert Hb. apply IH; lia.
Qed.

Lemma run_yarpgen_total exe : total (run_yarpgen exe).
Proof. apply run_yarpgen_loop_total; [lia | reflexivity]. Qed.


Lemma run_csmith_loop_retry fuel exe tries w w1 :
  csmith_round_fails exe w w1 → tries + 1 ≤ 10 →
  run_csmith_loop (S fuel) exe tries w = run_csmith_loop fuel exe (tries + 1) w1.
Proof.
  intros (cmd & w0 & r & Hcmd & Hrun & Hrc) Hle. simpl.
  rewrite (bind_Return _ _ _ _ _ Hcmd).
  apply call_Return_inv in Hrun. rewrite (bind_Return _ _ _ _ _ Hrun).
  apply Z.eqb_neq in Hrc. rewrite Hrc.
  destruct (tries + 1 >? 10) eqn:Hgt; [lia | reflexivity].
Qed.

Lemma run_csmith_loop_exhausted fuel exe tries w w1 :
  csmith_round_fails exe w w1 → 10 < tries + 1 →
  run_csmith_loop (S fuel) exe tries w
  = (Raised (Exception "CSmith failed 10 times in a row!"), w1).
Proof.
  intros (cmd & w0 & r & Hcmd & Hrun & Hrc) Hle. simpl.
  rewrite (bind_Return _ _ _ _ _ Hcmd).
  apply call_Return_inv in Hrun. rewrite (bind_Return _ _ _ _ _ Hrun).
  apply Z.eqb_neq in Hrc. rewrite Hrc.
  destruct (tries + 1 >? 10) eqn:Hgt; [reflexivity | lia].
Qed.

Lemma run_yarpgen_round_fails exe tries w w' :
  yarpgen_round_fails exe w w' →
  ∃ out_dir w0 w2,
    TemporaryDirectory w = (Ok out_dir, w0)
    ∧ w' = TemporaryDirectory_cleanup out_dir w2
    ∧ run_yarpgen_round exe tries out_dir w0
      = if tries + 1 >? 100
        then (Raised (Exception "YARPGen failed 10 times in a row!"), w2)
        else (Return (inr (tries + 1)), w2).
Proof.
  intros (out_dir & w0 & cmd & w1 & r & w2 & Htd & Hcmd & Hrun & Hrc & ->).
  exists out_dir, w0, w2. split_and!; auto.
  unfold run_yarpgen_round.
  rewrite (bind_Return _ _ _ _ _ Hcmd).
  apply call_Return_inv in Hrun. rewrite (bind_Return _ _ _ _ _ Hrun).
  apply Z.eqb_neq in Hrc. rewrite Hrc.
  now destruct (tries + 1 >? 100).
Qed.

Lemma run_yarpgen_loop_retry fuel exe tries w w1 :
  yarpgen_round_fails exe w w1 → tries + 1 ≤ 100 →
  run_yarpgen_loop (S fuel) exe tries w
  = run_yarpgen_loop fuel exe (tries + 1) w1.
Proof.
  intros Hf Hle.
  apply (run_yarpgen_round_fails _ tries) in Hf
    as (out_dir & w0 & w2 & Htd & -> & Hround).
  destruct (tries + 1 >? 100) eqn:Hgt; [lia|]. simpl.
  apply call_Return_inv in Htd. rewrite (bind_Return _ _ _ _ _ Htd).
  rewrite (bind_Return _ _ w0 (inr (tries + 1))
             (TemporaryDirectory_cleanup out_dir w2)); [reflexivity|].
  unfold finally. now rewrite Hround.
Qed.

Lemma run_yarpgen_loop_exhausted fuel exe tries w w1 :
  yarpgen_round_fails exe w w1 → 100 < tries + 1 →
  run_yarpgen_loop (S fuel) exe tries w
  = (Raised (Exception "YARPGen failed 10 times in a row!"), w1).
Proof.
  intros Hf Hle.
  apply (run_yarpgen_round_fails _ tries) in Hf
    as (out_dir & w0 & w2 & Htd & -> & Hround).
  destruct (tries + 1 >? 100) eqn:Hgt; [|lia]. simpl.
  apply call_Return_inv in Htd. rewrite (bind_Return _ _ _ _ _ Htd).
  apply bind_Raised. unfold finally. now rewrite Hround.
Qed.

(** [n] failures in a row, counted from [tries], leave the loop at
    [tries + n] as long as the bound is not passed. *)
Lemma run_csmith_loop_fails n fuel exe tries w w1 :
  csmith_fails exe n w w1 → tries + Z.of_nat n ≤ 10 →
  run_csmith_loop (n + fuel) exe tries w
  = run_csmith_loop fuel exe (tries + Z.of_nat n) w1.
Proof.
  intros Hn. revert tries. induction Hn as [|n w w1 w2 Hr _ IH]; intros tries Hle.
  - simpl. now rewrite Z.add_0_r.
  - change (S n + fuel)%nat with (S (n + fuel)).
    rewrite (run_csmith_loop_retry _ _ _ _ _ Hr) by lia.
    rewrite IH by lia. f_equal. lia.
Qed.

Lemma run_yarpgen_loop_fails n fuel exe tries w w1 :
  yarpgen_fails exe n w w1 → tries + Z.of_nat n ≤ 100 →
  run_yarpgen_loop (n + fuel) exe tries w
  = run_yarpgen_loop fuel exe (tries + Z.of_nat n) w1.
Proof.
  intros Hn. revert tries. induction Hn as [|n w w1 w2 Hr _ IH]; intros tries Hle.
  - simpl. now rewrite Z.add_0_r.
  - change (S n + fuel)%nat with (S (n + fuel)).
    rewrite (run_yarpgen_loop_retry _ _ _ _ _ Hr) by lia.
    rewrite IH by lia. f_equal. lia.
Qed.

End GeneratorFacts.

(** ** Python strings: [join], [readlines] and [replace] *)

Lemma str_app_cons (c : ascii) (a b : string) :
  String c a +:+ b = String c (a +:+ b).
Proof. reflexivity. Qed.

Lemma str_app_nil_l (b : string) : "" +:+ b = b.
Proof. reflexivity. Qed.

Lemma str_app_nil_r (s : string) : s +:+ "" = s.
Proof.
  induction s as [|c s IH]; [reflexivity|]. now rewrite str_app_cons, IH.
Qed.

Lemma str_app_assoc (a b c : string) : (a +:+ b) +:+ c = a +:+ (b +:+ c).
Proof.
  induction a as [|x a IH]; [reflexivity|]. now rewrite !str_app_cons, IH.
Qed.

Lemma join_cons (x : string) (l : list string) : join (x :: l) = x +:+ join l.
Proof.
  unfold join. destruct l as [|y l]; simpl; [|reflexivity].
  now rewrite str_app_nil_r.
Qed.

Lemma join_app (l1 l2 : list string) : join (l1 ++ l2) = join l1 +:+ join l2.
Proof.
  induction l1 as [|x l1 IH]; [reflexivity|].
  change ((x :: l1) ++ l2) with (x :: (l1 ++ l2)).
  now rewrite !join_cons, IH, str_app_assoc.
Qed.

(** The lines of a text, put together again, are the text. *)
Lemma join_readlines (s : string) : join (readlines s) = s.
Proof.
  induction s as [|c s IH]; [reflexivity|]. simpl.
  destruct (Ascii.eqb c newline).
  - now rewrite join_cons, str_app_cons, str_app_nil_l, IH.
  - destruct (readlines s) as [|l ls].
    + rewrite <- IH. reflexivity.
    + rewrite join_cons in *. now rewrite str_app_cons, IH.
Qed.


Lemma prefix_app (old b : string) : String.prefix old (old +:+ b) = true.
Proof.
  induction old as [|c old IH]; simpl; [now destruct b|].
  destruct (Ascii.ascii_dec c c) as [_|Hne]; [exact IH | now destruct Hne].
Qed.

Lemma replace_from_skip (old new x b : string) :
  replace_from old new (String.length x) (x +:+ b) = replace_from old new 0 b.
Proof.
  induction x as [|c x IH]; simpl; [|exact IH].
  destruct b; reflexivity.
Qed.

(** Where [old] does not occur, nothing is changed. *)
Lemma replace_from_none (old new s : string) :
  (∀ i, String.prefix old (str_drop i s) = false) →
  replace_from old new 0 s = s.
Proof.
  induction s as [|c s IH]; intros Hno; [reflexivity|].
  simpl. pose proof (Hno 0%nat) as H0. simpl in H0. rewrite H0.
  f_equal. apply IH. intros i. exact (Hno (S i)).
Qed.

(** The first occurrence of [old] is replaced, and the replacement goes on
    behind it. *)
Lemma replace_from_first (old new a b : string) :
  old ≠ "" →
  (∀ i, (i < String.length a)%nat →
        String.prefix old (str_drop i (a +:+ old +:+ b)) = false) →
  replace_from old new 0 (a +:+ old +:+ b)
  = a +:+ new +:+ replace_from old new 0 b.
Proof.
  intros Hold. induction a as [|c a IH]; intros Hno.
  - destruct old as [|c old]; [done|].
    change ("" +:+ String c old +:+ b) with (String c (old +:+ b)).
    change (replace_from (String c old) new 0 (String c (old +:+ b)))
      with (if String.prefix (String c old) (String c (old +:+ b))
            then new +:+ replace_from (String c old) new
                           (String.length (String c old) - 1) (old +:+ b)
            else String c (replace_from (String c old) new 0 (old +:+ b))).
    pose proof (prefix_app (String c old) b) as Hp.
    rewrite str_app_cons in Hp. rewrite Hp.
    replace (String.length (String c old) - 1)%nat with (String.length old)
      by (simpl; lia).
    now rewrite replace_from_skip.
  - change (String c a +:+ old +:+ b) with (String c (a +:+ old +:+ b)).
    pose proof (Hno 0%nat ltac:(simpl; lia)) as H0.
    change (str_drop 0 (String c a +:+ old +:+ b))
      with (String c (a +:+ old +:+ b)) in H0.
    change (replace_from old new 0 (String c (a +:+ old +:+ b)))
      with (if String.prefix old (String c (a +:+ old +:+ b))
            then new +:+ replace_from old new (String.length old - 1)
                           (a +:+ old +:+ b)
            else String c (replace_from old new 0 (a +:+ old +:+ b))).
    rewrite H0, str_app_cons. f_equal. apply IH.
    intros i Hi. apply (Hno (S i)). simpl. lia.
Qed.

Example str_replace_void_test :
  str_replace "void test" "static void test"
    "void test(); int x; void test() { x = 1; }"
  = "static void test(); int x; static void test() { x = 1; }".
Proof. reflexivity. Qed.

(** ** A successful round of [run_yarpgen] *)

Section YarpgenSuccess.
Context {W : Type} `{!Env W}.

(** Exactly two files are read, driver.c and then func.c. *)
Lemma read_files_two out_dir (w2 w3 w4 : W) driver func :
  read_text (pjoin out_dir "driver.c") w2 = (Ok driver, w3) →
  read_text (pjoin out_dir "func.c") w3 = (Ok func, w4) →
  read_files out_dir gen_files [] w2
  = (Return [readlines driver; readlines func], w4).
Proof.
  intros H1 H2. unfold gen_files. cbn [read_files].
  apply call_Return_inv in H1, H2.
  rewrite (bind_Return _ _ _ _ _ H1), (bind_Return _ _ _ _ _ H2).
  reflexivity.
Qed.

Lemma strip_include_two (dl fl : list string) (w : W) :
  strip_include [dl; fl] w
  = match fl !! 5%nat with
    | Some line =>
        if decide (line = include_init_h)
        then (Return [dl; del_at 5 fl], w)
        else (Raised AssertionError, w)
    | None => (Raised IndexError, w)
    end.
Proof.
  unfold strip_include, index, bind. cbn [lookup list_lookup ret].
  destruct (fl !! 5%nat) as [line|]; [|reflexivity].
  unfold ret. destruct (decide (line = include_init_h)); reflexivity.
Qed.

Lemma run_yarpgen_round_exit_0 exe tries out_dir (w0 w1 w2 w3 w4 : W)
    cmd r driver func :
  yarpgen_cmd exe out_dir w0 = (Return cmd, w1) →
  subprocess_run cmd w1 = (Ok r, w2) →
  returncode r = 0 →
  read_text (pjoin out_dir "driver.c") w2 = (Ok driver, w3) →
  read_text (pjoin out_dir "func.c") w3 = (Ok func, w4) →
  run_yarpgen_round exe tries out_dir w0
  = match readlines func !! 5%nat with
    | Some line =>
        if decide (line = include_init_h)
        then (Return (inl (str_replace "void test" "static void test"
                             (driver +:+ join (del_at 5 (readlines func))))),
              w4)
        else (Raised AssertionError, w4)
    | None => (Raised IndexError, w4)
    end.
Proof.
  intros Hcmd Hrun Hrc Hd Hf. unfold run_yarpgen_round.
  rewrite (bind_Return _ _ _ _ _ Hcmd).
  apply call_Return_inv in Hrun. rewrite (bind_Return _ _ _ _ _ Hrun).
  rewrite Hrc. change (0 =? 0) with true. cbv iota.
  rewrite (bind_Return _ _ _ _ _ (read_files_two _ _ _ _ _ _ Hd Hf)).
  unfold bind at 1. rewrite strip_include_two.
  destruct (readlines func !! 5%nat) as [line|]; [|reflexivity].
  destruct (decide (line = include_init_h)); [|reflexivity].
  unfold ret. do 3 f_equal.
  change (concat [readlines driver; del_at 5 (readlines func)])
    with (readlines driver ++ del_at 5 (readlines func) ++ []).
  now rewrite app_nil_r, join_app, join_readlines.
Qed.

Lemma run_yarpgen_loop_exit_0 fuel exe tries out_dir (w w0 w1 w2 w3 w4 : W)
    cmd r driver func :
  TemporaryDirectory w = (Ok out_dir, w0) →
  yarpgen_cmd exe out_dir w0 = (Return cmd, w1) →
  subprocess_run cmd w1 = (Ok r, w2) →
  returncode r = 0 →
  read_text (pjoin out_dir "driver.c") w2 = (Ok driver, w3) →
  read_text (pjoin out_dir "func.c") w3 = (Ok func, w4) →
  run_yarpgen_loop (S fuel) exe tries w
  = match readlines func !! 5%nat with
    | Some line =>
        if decide (line = include_init_h)
        then (Return (str_replace "void test" "static void test"
                        (driver +:+ join (del_at 5 (readlines func)))),
              TemporaryDirectory_cleanup out_dir w4)
        else (Raised AssertionError, TemporaryDirectory_cleanup out_dir w4)
    | None => (Raised IndexError, TemporaryDirectory_cleanup out_dir w4)
    end.
Proof.
  intros Htd Hcmd Hrun Hrc Hd Hf. cbn [run_yarpgen_loop].
  apply call_Return_inv in Htd. rewrite (bind_Return _ _ _ _ _ Htd).
  unfold bind, finally.
  rewrite (run_yarpgen_round_exit_0 _ tries _ _ _ _ _ _ _ _ _ _
             Hcmd Hrun Hrc Hd Hf).
  destruct (readlines func !! 5%nat) as [line|]; [|reflexivity].
  destruct (decide (line = include_init_h)); reflexivity.
Qed.

End YarpgenSuccess.

(** ** Claims about the program generators *)

Section GeneratorRuns.
Context {W : Type} `{!Env W}.

(** Eleven failed rounds, counted from [tries], end in the exception. *)
Lemma run_csmith_loop_all_fail n fuel exe tries (w w1 : W) :
  csmith_fails exe (S n) w w1 → tries + Z.of_nat (S n) = 11 →
  run_csmith_loop (S n + fuel) exe tries w
  = (Raised (Exception "CSmith failed 10 times in a row!"), w1).
Proof.
  revert tries w. induction n as [|n IH]; intros tries w Hn Htries.
  - inversion Hn as [|n0 wa wb wc Hr Hrest]; subst.
    inversion Hrest; subst.
    apply run_csmith_loop_exhausted; [assumption | lia].
  - inversion Hn as [|n0 wa wb wc Hr Hrest]; subst.
    change (S (S n) + fuel)%nat with (S (S n + fuel)).
    rewrite (run_csmith_loop_retry _ _ _ _ _ Hr) by lia.
    apply IH; [assumption | lia].
Qed.

Lemma run_yarpgen_loop_all_fail n fuel exe tries (w w1 : W) :
  yarpgen_fails exe (S n) w w1 → tries + Z.of_nat (S n) = 101 →
  run_yarpgen_loop (S n + fuel) exe tries w
  = (Raised (Exception "YARPGen failed 10 times in a row!"), w1).
Proof.
  revert tries w. induction n as [|n IH]; intros tries w Hn Htries.
  - inversion Hn as [|n0 wa wb wc Hr Hrest]; subst.
    inversion Hrest; subst.
    apply run_yarpgen_loop_exhausted; [assumption | lia].
  - inversion Hn as [|n0 wa wb wc Hr Hrest]; subst.
    change (S (S n) + fuel)%nat with (S (S n + fuel)).
    rewrite (run_yarpgen_loop_retry _ _ _ _ _ Hr) by lia.
    apply IH; [assumption | lia].
Qed.

(** [run_csmith] after [n] failed rounds and a round with exit code 0. *)
Lemma run_csmith_after_fails exe n (w_start w w1 w2 : W) cmd r :
  csmith_fails exe n w_start w → (n ≤ 10)%nat →
  csmith_cmd exe w = (Return cmd, w1) →
  subprocess_run cmd w1 = (Ok r, w2) →
  returncode r = 0 →
  run_csmith exe w_start = of_result (utf8_decode (stdout r)) w2.
Proof.
  intros Hn Hle Hcmd Hrun Hrc. unfold run_csmith.
  replace 11%nat with (n + S (10 - n))%nat by lia.
  rewrite (run_csmith_loop_fails _ _ _ _ _ _ Hn) by lia.
  cbn [run_csmith_loop].
  rewrite (bind_Return _ _ _ _ _ Hcmd).
  apply call_Return_inv in Hrun. rewrite (bind_Return _ _ _ _ _ Hrun).
  now rewrite Hrc.
Qed.

(** [run_yarpgen] after [n] failed rounds and a round with exit code 0. *)
Lemma run_yarpgen_after_fails exe n (w_start w w0 w1 w2 w3 w4 : W)
    out_dir cmd r driver func :
  yarpgen_fails exe n w_start w → (n ≤ 100)%nat →
  TemporaryDirectory w = (Ok out_dir, w0) →
  yarpgen_cmd exe out_dir w0 = (Return cmd, w1) →
  subprocess_run cmd w1 = (Ok r, w2) →
  returncode r = 0 →
  read_text (pjoin out_dir "driver.c") w2 = (Ok driver, w3) →
  read_text (pjoin out_dir "func.c") w3 = (Ok func, w4) →
  run_yarpgen exe w_start
  = match readlines func !! 5%nat with
    | Some line =>
        if decide (line = include_init_h)
        then (Return (str_replace "void test" "static void test"
                        (driver +:+ join (del_at 5 (readlines func)))),
              TemporaryDirectory_cleanup out_dir w4)
        else (Raised AssertionError, TemporaryDirectory_cleanup out_dir w4)
    | None => (Raised IndexError, TemporaryDirectory_cleanup out_dir w4)
    end.
Proof.
  intros Hn Hle Htd Hcmd Hrun Hrc Hd Hf. unfold run_yarpgen.
  replace 101%nat with (n + S (100 - n))%nat by lia.
  rewrite (run_yarpgen_loop_fails _ _ _ _ _ _ Hn) by lia.
  eapply run_yarpgen_loop_exit_0; eauto.
Qed.


End GeneratorRuns.

(** C7: when the tool exits with code 0, after up to 100 failed rounds,
    [run_yarpgen] reads exactly two of its output files, driver.c and
    func.c.  If line 5 of func.c is the include of init.h, it returns the
    text of driver.c followed by the lines of func.c without line 5, with
    every [void test] replaced by [static void test]; if not, it returns
    no program. *)
Theorem run_yarpgen_success {W : Type} `{!Env W}
    (exe : string) (n : nat) (w_start w w0 w1 w2 w3 w4 : W)
    (out_dir : string) (cmd : list string) (r : CompletedProcess)
    (driver func : string) :
  yarpgen_fails exe n w_start w → (n ≤ 100)%nat →
  TemporaryDirectory w = (Ok out_dir, w0) →
  yarpgen_cmd exe out_dir w0 = (Return cmd, w1) →
  subprocess_run cmd w1 = (Ok r, w2) →
  returncode r = 0 →
  read_text (pjoin out_dir "driver.c") w2 = (Ok driver, w3) →
  read_text (pjoin out_dir "func.c") w3 = (Ok func, w4) →
  (readlines func !! 5%nat = Some include_init_h →
   run_yarpgen exe w_start
   = (Return (str_replace "void test" "static void test"
                (driver +:+ join (del_at 5 (readlines func)))),
      TemporaryDirectory_cleanup out_dir w4))
  ∧ (readlines func !! 5%nat ≠ Some include_init_h →
     ∃ e, run_yarpgen exe w_start
          = (Raised e, TemporaryDirectory_cleanup out_dir w4)).
Proof.
  intros Hn Hle Htd Hcmd Hrun Hrc Hd Hf.
  rewrite (run_yarpgen_after_fails _ _ _ _ _ _ _ _ _ _ _ _ _ _
             Hn Hle Htd Hcmd Hrun Hrc Hd Hf).
  split.
  - intros ->. now rewrite decide_True.
  - intros Hline. destruct (readlines func !! 5%nat) as [line|]; [|eauto].
    rewrite decide_False; [eauto | congruence].
Qed.

Lemma run_yarpgen_success_witness :
  readlines Fixtures.func_c !! 5%nat = Some include_init_h
  ∧ run_yarpgen (Env0 := Fixtures.e_accept) "yarpgen" Fixtures.w_yarpgen
    = (Return Fixtures.concatenated_0, Fixtures.w_yarpgen).
Proof.
  assert (Hline : readlines Fixtures.func_c !! 5%nat = Some include_init_h)
    by reflexivity.
  split; [exact Hline|].
  exact (proj1 (run_yarpgen_success (Env0 := Fixtures.e_accept)
                  "yarpgen" 0 Fixtures.w_yarpgen Fixtures.w_yarpgen
                  Fixtures.w_yarpgen Fixtures.w_yarpgen Fixtures.w_yarpgen
                  Fixtures.w_yarpgen Fixtures.w_yarpgen
                  "/tmp/out" Fixtures.yarpgen_cmd_0
                  {| returncode := 0; stdout := "int main(void) { return 0; }" |}
                  Fixtures.driver_c Fixtures.func_c
                  (yarpgen_fails_O _ _) (Nat.le_0_l _)
                  eq_refl eq_refl eq_refl eq_refl eq_refl eq_refl)
           Hline).
Defined.

(** C4 (amended): both generators run the tool again after an exit code
    other than 0 and give up with an exception when the tool keeps
    failing.  [run_csmith] returns the output of a successful run that
    follows fewer than 10 failed ones, and has raised by the 11th failed
    run in a row; [run_yarpgen] returns the program of a successful run
    that follows up to 100 failed ones, and raises on the 101st failed run
    in a row.  The exhausted budget is not the only fatal condition:
    [run_yarpgen] is also left by [AssertionError] when the tool exits with
    code 0 and line 5 of func.c is not the include of init.h. *)
Theorem generator_retry_bounds {W : Type} `{!Env W} (exe : string) :
  (∀ n (w_start w w1 w2 : W) cmd r text,
     csmith_fails exe n w_start w → (n < 10)%nat →
     csmith_cmd exe w = (Return cmd, w1) →
     subprocess_run cmd w1 = (Ok r, w2) →
     returncode r = 0 →
     utf8_decode (stdout r) = Ok text →
     run_csmith exe w_start = (Return text, w2))
  ∧ (∀ (w w1 : W),
       csmith_fails exe 11 w w1 →
       ∃ w', run_csmith exe w
             = (Raised (Exception "CSmith failed 10 times in a row!"), w'))
  ∧ (∀ n (w_start w w0 w1 w2 w3 w4 : W) out_dir cmd r driver func,
       yarpgen_fails exe n w_start w → (n ≤ 100)%nat →
       TemporaryDirectory w = (Ok out_dir, w0) →
       yarpgen_cmd exe out_dir w0 = (Return cmd, w1) →
       subprocess_run cmd w1 = (Ok r, w2) →
       returncode r = 0 →
       read_text (pjoin out_dir "driver.c") w2 = (Ok driver, w3) →
       read_text (pjoin out_dir "func.c") w3 = (Ok func, w4) →
       readlines func !! 5%nat = Some include_init_h →
       run_yarpgen exe w_start
       = (Return (str_replace "void test" "static void test"
                    (driver +:+ join (del_at 5 (readlines func)))),
          TemporaryDirectory_cleanup out_dir w4))
  ∧ (∀ (w w1 : W),
       yarpgen_fails exe 101 w w1 →
       run_yarpgen exe w
       = (Raised (Exception "YARPGen failed 10 times in a row!"), w1))
  ∧ (∀ n (w_start w w0 w1 w2 w3 w4 : W) out_dir cmd r driver func line,
       yarpgen_fails exe n w_start w → (n ≤ 100)%nat →
       TemporaryDirectory w = (Ok out_dir, w0) →
       yarpgen_cmd exe out_dir w0 = (Return cmd, w1) →
       subprocess_run cmd w1 = (Ok r, w2) →
       returncode r = 0 →
       read_text (pjoin out_dir "driver.c") w2 = (Ok driver, w3) →
       read_text (pjoin out_dir "func.c") w3 = (Ok func, w4) →
       readlines func !! 5%nat = Some line → line ≠ include_init_h →
       run_yarpgen exe w_start
       = (Raised AssertionError, TemporaryDirectory_cleanup out_dir w4)).
Proof.
  split_and!.
  - intros n w_start w w1 w2 cmd r text Hn Hlt Hcmd Hrun Hrc Hdec.
    rewrite (run_csmith_after_fails _ _ _ _ _ _ _ _ Hn ltac:(lia) Hcmd Hrun Hrc).
    now rewrite Hdec.
  - intros w w1 Hn. exists w1. unfold run_csmith.
    apply (run_csmith_loop_all_fail 10 0); [assumption | reflexivity].
  - intros n w_start w w0 w1 w2 w3 w4 out_dir cmd r driver func
      Hn Hle Htd Hcmd Hrun Hrc Hd Hf Hline.
    rewrite (run_yarpgen_after_fails _ _ _ _ _ _ _ _ _ _ _ _ _ _
               Hn Hle Htd Hcmd Hrun Hrc Hd Hf), Hline.
    now rewrite decide_True.
  - intros w w1 Hn. unfold run_yarpgen.
    apply (run_yarpgen_loop_all_fail 100 0); [assumption | reflexivity].
  - intros n w_start w w0 w1 w2 w3 w4 out_dir cmd r driver func line
      Hn Hle Htd Hcmd Hrun Hrc Hd Hf Hline Hne.
    rewrite (run_yarpgen_after_fails _ _ _ _ _ _ _ _ _ _ _ _ _ _
               Hn Hle Htd Hcmd Hrun Hrc Hd Hf), Hline.
    now rewrite decide_False.
Qed.

Lemma generator_retry_bounds_witness :
  (csmith_fails (Env0 := Fixtures.e_accept) "csmith" 2
     (Fixtures.w_failures 2) TestEnv.empty_world
   ∧ run_csmith (Env0 := Fixtures.e_accept) "csmith" (Fixtures.w_failures 2)
     = (Return "int main(void) { return 0; }", TestEnv.empty_world))
  ∧ (readlines Fixtures.func_c_short_header !! 5%nat
     = Some ("void test() {" +:+ nl)
     ∧ run_yarpgen (Env0 := Fixtures.e_accept) "yarpgen"
         Fixtures.w_yarpgen_short_header
       = (Raised AssertionError, Fixtures.w_yarpgen_short_header)).
Proof.
  destruct (generator_retry_bounds (Env0 := Fixtures.e_accept) "csmith")
    as (Hcsmith & _).
  destruct (generator_retry_bounds (Env0 := Fixtures.e_accept) "yarpgen")
    as (_ & _ & _ & _ & Hassert).
  assert (Hfails : csmith_fails (Env0 := Fixtures.e_accept) "csmith" 2
                     (Fixtures.w_failures 2) TestEnv.empty_world).
  { apply csmith_fails_S with (Fixtures.w_failures 1).
    { eexists _, _, _. split_and!; [reflexivity | reflexivity | discriminate]. }
    apply csmith_fails_S with TestEnv.empty_world.
    { eexists _, _, _. split_and!; [reflexivity | reflexivity | discriminate]. }
    apply csmith_fails_O. }
  assert (Hline : readlines Fixtures.func_c_short_header !! 5%nat
                  = Some ("void test() {" +:+ nl)) by reflexivity.
  split.
  - split; [exact Hfails|].
    eapply (Hcsmith 2%nat _ _ _ _ _ _ _ Hfails);
      [lia | reflexivity | reflexivity | reflexivity | reflexivity].
  - split; [exact Hline|].
    exact (Hassert 0%nat Fixtures.w_yarpgen_short_header
             Fixtures.w_yarpgen_short_header Fixtures.w_yarpgen_short_header
             Fixtures.w_yarpgen_short_header Fixtures.w_yarpgen_short_header
             Fixtures.w_yarpgen_short_header Fixtures.w_yarpgen_short_header
             "/tmp/out" Fixtures.yarpgen_cmd_0
             {| returncode := 0; stdout := "int main(void) { return 0; }" |}
             Fixtures.driver_c Fixtures.func_c_short_header
             ("void test() {" +:+ nl)
             (yarpgen_fails_O _ _) (Nat.le_0_l _)
             eq_refl eq_refl eq_refl eq_refl eq_refl eq_refl Hline
             ltac:(discriminate)).
Defined.

(** C4, as stated, fails: the tool exits with code 0 on its first run, so
    that no failure has been counted, and [run_yarpgen] is left by
    [AssertionError] because line 5 of func.c is not the include. *)
Lemma exhaustion_is_not_the_only_fatal_condition :
  run_yarpgen (Env0 := Fixtures.e_accept) "yarpgen"
    Fixtures.w_yarpgen_short_header
  = (Raised AssertionError, Fixtures.w_yarpgen_short_header)
  ∧ ¬ only_exhaustion_is_fatal (Env0 := Fixtures.e_accept).
Proof.
  assert (Hrun : run_yarpgen (Env0 := Fixtures.e_accept) "yarpgen"
                   Fixtures.w_yarpgen_short_header
                 = (Raised AssertionError, Fixtures.w_yarpgen_short_header))
    by (vm_compute; reflexivity).
  split; [exact Hrun|].
  intros Hclaim. apply Hclaim in Hrun.
  inversion Hrun as [|n w wa wb Hround Hrest]; subst.
  destruct Hround as (out_dir & w0 & cmd & w1 & r & w2
                      & Htd & Hcmd & Hsub & Hrc & _).
  vm_compute in Htd. injection Htd as <- <-.
  vm_compute in Hcmd. injection Hcmd as <- <-.
  vm_compute in Hsub. injection Hsub as <- <-.
  apply Hrc. reflexivity.
Qed.

(** The count of [run_csmith] at its bound: ten failed runs in a row are
    followed by an eleventh run, whose output is returned. *)
Example run_csmith_ten_failures_then_success :
  run_csmith (Env0 := Fixtures.e_accept) "csmith" (Fixtures.w_failures 10)
  = (Return "int main(void) { return 0; }", TestEnv.empty_world).
Proof. vm_compute. reflexivity. Qed.

Example run_csmith_eleven_failures :
  run_csmith (Env0 := Fixtures.e_accept) "csmith" (Fixtures.w_failures 11)
  = (Raised (Exception "CSmith failed 10 times in a row!"),
     TestEnv.empty_world).
Proof. vm_compute. reflexivity. Qed.

Example run_yarpgen_101_failures :
  run_yarpgen (Env0 := Fixtures.e_accept) "yarpgen" (Fixtures.w_failures 101)
  = (Raised (Exception "YARPGen failed 10 times in a row!"),
     TestEnv.empty_world).
Proof. vm_compute. reflexivity. Qed.

Example run_yarpgen_100_failures_then_success :
  fst (run_yarpgen (Env0 := Fixtures.e_accept) "yarpgen"
         (TestEnv.with_runs Fixtures.w_yarpgen
            (replicate 100 (TestEnv.failed 1))))
  = Return Fixtures.concatenated_0.
Proof. vm_compute. reflexivity. Qed.

(** ** The orchestrator: signals and the process table *)

Module OrchestratorFacts.
Import Orchestrator OrchestratorFixtures OrchestratorTraces.

Lemma os_kill_Return_inv n sig w w' :
  os_kill n sig w = (Return tt, w') →
  ∃ st, table w !! n = Some st
        ∧ w' = {| table := <[n := deliver sig st]> (table w);
                  queue := queue w;
                  signals := signals w ++ [(n, sig)] |}.
Proof.
  unfold os_kill. destruct (table w !! n) as [st|] eqn:Hn; [|discriminate].
  intros [= <-]. eauto.
Qed.

Lemma os_kill_present n sig w st :
  table w !! n = Some st →
  os_kill n sig w
  = (Return tt, {| table := <[n := deliver sig st]> (table w);
                   queue := queue w;
                   signals := signals w ++ [(n, sig)] |}).
Proof. unfold os_kill. now intros ->. Qed.

(** SIGCONT and then SIGTERM end a process in whatever state it is;
    SIGTERM alone does not end a stopped one. *)
Lemma cont_then_term_exits st : deliver SIGTERM (deliver SIGCONT st) = Exited.
Proof. destruct st as [|[]|]; reflexivity. Qed.

Lemma term_alone_leaves_stopped b : alive (deliver SIGTERM (Stopped b)) = true.
Proof. reflexivity. Qed.

Lemma exited_stays sig : deliver sig Exited = Exited.
Proof. destruct sig; reflexivity. Qed.

(** [os.kill(pid, SIGCONT); p.terminate()] for one started worker. *)
Lemma cont_terminate_one n w st :
  table w !! n = Some st →
  bind (os_kill n SIGCONT) (λ _, Process_terminate n) w
  = (Return tt, {| table := <[n := Exited]> (table w);
                   queue := queue w;
                   signals := signals w ++ [(n, SIGCONT); (n, SIGTERM)] |}).
Proof.
  intros Hn. rewrite (bind_Return _ _ _ _ _ (os_kill_present _ SIGCONT _ _ Hn)).
  unfold Process_terminate.
  set (w1 := {| table := <[n := deliver SIGCONT st]> (table w);
                queue := queue w;
                signals := signals w ++ [(n, SIGCONT)] |}).
  assert (H1 : table w1 !! n = Some (deliver SIGCONT st))
    by apply lookup_insert_eq.
  rewrite (try_except_Return _ _ _ _ _ _ (os_kill_present _ SIGTERM _ _ H1)).
  unfold w1. cbn [table queue signals].
  now rewrite insert_insert_eq, cont_then_term_exits, <- app_assoc.
Qed.

Lemma terminate_processes_spec ps w :
  (∀ p n, p ∈ ps → pid p = Some n → is_Some (table w !! n)) →
  ∃ w', terminate_processes ps w = (Return tt, w')
        ∧ signals w' = signals w ++ terminate_signals ps
        ∧ queue w' = queue w
        ∧ (∀ n, is_Some (table w !! n) → is_Some (table w' !! n))
        ∧ (∀ n, table w !! n = Some Exited → table w' !! n = Some Exited)
        ∧ (∀ p n, p ∈ ps → pid p = Some n → table w' !! n = Some Exited).
Proof.
  revert w. induction ps as [|p ps IH]; intros w Hin.
  - exists w. simpl. rewrite app_nil_r. split_and!; auto.
    intros p n Hp. inversion Hp.
  - simpl. unfold terminate_signals. simpl. fold (terminate_signals ps).
    destruct (pid p) as [n|] eqn:Hpid.
    + destruct (Hin p n) as [st Hst]; [left | assumption |].
      pose proof (cont_terminate_one n w st Hst) as Hone.
      unfold bind in Hone |- *.
      destruct (os_kill n SIGCONT w) as [[[]|e|] w1]; try discriminate.
      rewrite Hone. clear Hone.
      set (w2 := {| table := <[n := Exited]> (table w); queue := queue w;
                    signals := signals w ++ [(n, SIGCONT); (n, SIGTERM)] |}).
      destruct (IH w2) as (w' & Hrun & Hsig & Hq & Hdom & Hex & Hall).
      { intros p' n' Hp' Hn'. simpl.
        destruct (decide (n = n')) as [->|Hne].
        - rewrite lookup_insert_eq. eauto.
        - rewrite lookup_insert_ne by done. apply (Hin p' n'); [now right | done]. }
      exists w'. split_and!; auto.
      * rewrite Hsig. simpl. now rewrite <- app_assoc.
      * intros n' Hn'. apply Hdom. simpl.
        destruct (decide (n = n')) as [->|Hne].
        -- rewrite lookup_insert_eq. eauto.
        -- now rewrite lookup_insert_ne.
      * intros n' Hn'. apply Hex. simpl.
        destruct (decide (n = n')) as [->|Hne].
        -- now rewrite lookup_insert_eq.
        -- now rewrite lookup_insert_ne.
      * intros p' n' Hp' Hn'.
        apply elem_of_cons in Hp' as [->|Hp']; [|eauto].
        rewrite Hpid in Hn'. injection Hn' as <-.
        apply Hex. simpl. apply lookup_insert_eq.
    + destruct (IH w) as (w' & Hrun & Hsig & Hq & Hdom & Hex & Hall).
      { intros p' n' Hp' Hn'. apply (Hin p' n'); [now right | done]. }
      exists w'. split_and!; auto.
      intros p' n' Hp' Hn'.
      apply elem_of_cons in Hp' as [->|Hp']; [congruence | eauto].
Qed.

Lemma os_kill_Raised_inv n sig w e w' :
  os_kill n sig w = (Raised e, w') → w' = w.
Proof.
  unfold os_kill. destruct (table w !! n); [discriminate|]. now intros [= _ <-].
Qed.

Lemma os_kill_keeps_entries n sig w w' m :
  os_kill n sig w = (Return tt, w') →
  is_Some (table w !! m) → is_Some (table w' !! m).
Proof.
  intros Hk Hm. apply os_kill_Return_inv in Hk as (st & Hst & ->). simpl.
  apply lookup_insert_is_Some. destruct (decide (n = m)); auto.
Qed.

(** In every run, the workers that were started are in the process table:
    they are children of the orchestrator, which never waits for them. *)
Lemma step_pids_in_table start_stop decode s e s' :
  pids_in_table s → Orchestrator.step start_stop decode s e s' →
  pids_in_table s'.
Proof.
  intros Hwf Hstep. unfold pids_in_table in *.
  inversion Hstep as
    [ w ps i p n Hi Hfree | | | | | | w w' ps c p rest n Hp Hk
    | w w' ps c p rest n ex Hp Hk | |
    | | w w' ps p rest n Hp Hk | w w' ps p rest n ex Hp Hk |
    | | w ps a p n Hin Hp Hrun ];
    subst; simpl in *; auto.
  - intros p' n' Hin Hpid. apply lookup_insert_is_Some.
    destruct (decide (n = n')) as [->|Hne]; [now left | right].
    split; [done|].
    apply list_elem_of_lookup in Hin as [j Hj].
    apply list_lookup_insert_Some in Hj as [(-> & <- & _)|[Hij Hj]].
    + simpl in Hpid. congruence.
    + apply (Hwf p' n'); [|done]. apply list_elem_of_lookup. eauto.
  - intros p' n' Hin Hpid. eapply os_kill_keeps_entries; eauto.
  - apply os_kill_Raised_inv in Hk as ->. exact Hwf.
  - intros p' n' Hin Hpid. eapply os_kill_keeps_entries; eauto.
  - apply os_kill_Raised_inv in Hk as ->. exact Hwf.
  - intros p' n' Hin' Hpid. apply lookup_insert_is_Some.
    destruct (decide (n = n')); [now left | right]. split; [done|]. eauto.
Qed.

Lemma exec_pids_in_table start_stop decode w0 processes tr s :
  Orchestrator.exec start_stop decode (init w0 processes) tr s →
  pids_in_table s.
Proof.
  induction 1 as [|tr s e s' _ IH Hstep].
  - intros p n Hin Hpid. unfold init in Hin. simpl in Hin.
    apply elem_of_replicate in Hin as [-> _]. discriminate.
  - eapply step_pids_in_table; eauto.
Qed.

(** [terminate_processes] may be called at any point of any run, also
    while the generator is suspended at [yield] with its workers stopped:
    it is not left by an exception and every started worker has exited
    afterwards. *)
Lemma terminate_processes_after_any_run start_stop decode w0 processes tr s :
  Orchestrator.exec start_stop decode (init w0 processes) tr s →
  ∃ w', terminate_processes (procs s) (os s) = (Return tt, w')
        ∧ signals w' = signals (os s) ++ terminate_signals (procs s)
        ∧ ∀ p n, p ∈ procs s → pid p = Some n → table w' !! n = Some Exited.
Proof.
  intros Hexec. apply exec_pids_in_table in Hexec.
  destruct (terminate_processes_spec (procs s) (os s) Hexec)
    as (w' & Hrun & Hsig & _ & _ & _ & Hall).
  eauto.
Qed.

(** *** The signals of a run *)

Lemma sent_snoc tr e :
  sent (tr ++ [e])
  = sent tr ++ match e with EKill n sig => [(n, sig)] | _ => [] end.
Proof. unfold sent. rewrite flat_map_app. simpl. now rewrite app_nil_r. Qed.

Lemma os_kill_signals n sig w w' :
  os_kill n sig w = (Return tt, w') → signals w' = signals w ++ [(n, sig)].
Proof.
  intros Hk. now apply os_kill_Return_inv in Hk as (st & _ & ->).
Qed.

Section Signals.
Variable start_stop : bool.
Variable decode : string → result Case.

Lemma signal_inv_step w0 tr s e s' :
  signal_inv start_stop w0 tr s → Orchestrator.step start_stop decode s e s' →
  signal_inv start_stop w0 (tr ++ [e]) s'.
Proof.
  intros [Hsig Hrest] Hstep. unfold signal_inv.
  rewrite sent_snoc.
  inversion Hstep as
    [ | | | | | | w w' ps c p rest n Hp Hk | w w' ps c p rest n ex Hp Hk | |
    | | w w' ps p rest n Hp Hk | w w' ps p rest n ex Hp Hk |
    | | ];
    subst; cbn [at_pc os with_queue with_table signals] in *;
    rewrite ?app_nil_r;
    try (split; [exact Hsig|]; intros Hmode;
         try specialize (Hrest Hmode); try rewrite Hmode; try done;
         try (destruct a; done)).
  - split; [|intros Hmode; now specialize (Hrest Hmode)].
    now rewrite (os_kill_signals _ _ _ _ Hk), Hsig, app_assoc.
  - apply os_kill_Raised_inv in Hk as ->. split; [exact Hsig | done].
  - split; [|intros Hmode; now specialize (Hrest Hmode)].
    now rewrite (os_kill_signals _ _ _ _ Hk), Hsig, app_assoc.
  - apply os_kill_Raised_inv in Hk as ->. split; [exact Hsig | done].
Qed.

Lemma signal_inv_exec w0 processes tr s :
  Orchestrator.exec start_stop decode (init w0 processes) tr s →
  signal_inv start_stop w0 tr s.
Proof.
  induction 1 as [|tr s e s' _ IH Hstep].
  - split; [simpl; now rewrite app_nil_r | done].
  - eapply signal_inv_step; eauto.
Qed.

End Signals.

(** *** The run of the generator: what holds where *)

Section Backpressure.
Variable decode : string → result Case.

(** Start/stop mode. *)
Abbreviation step := (step true decode).
Abbreviation exec := (exec true decode).


Lemma own_events_snoc tr e :
  own_events (tr ++ [e])
  = if own e then own_events tr ++ [e] else own_events tr.
Proof.
  unfold own_events. rewrite filter_app.
  destruct (own e) eqn:He.
  - now rewrite filter_cons_True.
  - rewrite filter_cons_False by (rewrite He; discriminate).
    now rewrite app_nil_r.
Qed.

Lemma no_yield_snoc tr e :
  no_yield tr → (∀ c, e ≠ EYield c) → no_yield (tr ++ [e]).
Proof.
  intros Hno He c Hin. apply elem_of_app in Hin as [Hin|Hin].
  - now apply (Hno c).
  - apply list_elem_of_singleton in Hin. now apply (He c).
Qed.

Lemma kills_app sig a b : kills sig (a ++ b) = kills sig a ++ kills sig b.
Proof. unfold kills. apply flat_map_app. Qed.

Lemma kills_snoc_started sig done p n :
  pid p = Some n → kills sig (done ++ [p]) = kills sig done ++ [EKill n sig].
Proof. intros Hp. rewrite kills_app. unfold kills at 2. simpl. now rewrite Hp. Qed.

Lemma suspended_with_queue w q p : suspended w p → suspended (with_queue w q) p.
Proof. intros (n & st & ? & ? & ?). exists n, st. auto. Qed.

Lemma suspended_exit w n p :
  suspended w p → suspended (with_table w (<[n := Exited]> (table w))) p.
Proof.
  intros (n' & st & Hp & Hst & Hne).
  destruct (decide (n = n')) as [->|Hnn].
  - exists n', Exited. simpl. rewrite lookup_insert_eq.
    split_and!; auto; discriminate.
  - exists n', st. simpl. rewrite lookup_insert_ne by done. auto.
Qed.

Lemma suspended_after_stop n w w' p :
  os_kill n SIGSTOP w = (Return tt, w') → pid p = Some n → suspended w' p.
Proof.
  intros Hk Hp. apply os_kill_Return_inv in Hk as (st & Hst & ->).
  exists n, (deliver SIGSTOP st). simpl. rewrite lookup_insert_eq.
  split_and!; auto. destruct st; discriminate.
Qed.

Lemma suspended_stays_stop n w w' p :
  os_kill n SIGSTOP w = (Return tt, w') → suspended w p → suspended w' p.
Proof.
  intros Hk (n' & st' & Hp & Hst' & Hne).
  apply os_kill_Return_inv in Hk as (st & Hst & ->).
  destruct (decide (n = n')) as [->|Hnn].
  - exists n', (deliver SIGSTOP st). simpl. rewrite lookup_insert_eq.
    split_and!; auto. destruct st; discriminate.
  - exists n', st'. simpl. rewrite lookup_insert_ne by done. auto.
Qed.

(** A suspended worker takes no step. *)
Lemma suspended_not_running w p n :
  suspended w p → pid p = Some n → table w !! n ≠ Some Running.
Proof.
  intros (n' & st & Hp & Hst & Hne) Hn. rewrite Hp in Hn. injection Hn as ->.
  rewrite Hst. congruence.
Qed.

Lemma inv_init w0 processes : inv [] (init w0 processes).
Proof.
  unfold inv, init. simpl. split; [intros j p Hj; lia|].
  intros c Hin. inversion Hin.
Qed.

(** Steps of the workers keep what holds at the point where the generator
    stands. *)
Lemma inv_worker tr s e w' :
  own e = false → (∀ c, e ≠ EYield c) →
  (∀ p, suspended (os s) p → suspended w' p) →
  inv tr s →
  inv (tr ++ [e]) {| os := w'; procs := procs s; at_pc := at_pc s |}.
Proof.
  intros He Hny Hsus. unfold inv, all_started. simpl.
  rewrite own_events_snoc, He.
  destruct (at_pc s) as [i| |c rest|c|rest|ex]; auto.
  - intros [Hlt Hno]. split; [exact Hlt | now apply no_yield_snoc].
  - intros [Hall [Hno|Htr]]; (split; [exact Hall|]);
      [left; now apply no_yield_snoc | now right].
  - intros (Hall & done & tr0 & msg & Hps & Hdone & Htr).
    split; [exact Hall|]. exists done, tr0, msg. split_and!; auto.
    eapply Forall_impl; eauto.
  - intros (Hall & Hdone & Htr). split_and!; auto.
    eapply Forall_impl; eauto.
Qed.

Lemma inv_step tr s e s' : inv tr s → step s e s' → inv (tr ++ [e]) s'.
Proof.
  intros Hinv Hstep.
  inversion Hstep as
    [ w ps i p n Hi Hfree | w ps i p msg Hi | w ps i Hi
    | w ps msg q c Hq Hdec | w ps msg q ex Hq Hdec
    | w ps c p rest Hp | w w' ps c p rest n Hp Hk
    | w w' ps c p rest n ex Hp Hk
    | w ps c | w ps c
    | w ps p rest Hp | w w' ps p rest n Hp Hk | w w' ps p rest n ex Hp Hk
    | w ps
    | w ps a p n msg Hin Hp Hrun | w ps a p n Hin Hp Hrun ];
    subst;
    try (apply (inv_worker tr {| os := w; procs := ps; at_pc := a |});
         [done | discriminate | | exact Hinv];
         intros p'; first [apply suspended_with_queue | apply suspended_exit]);
    unfold inv, all_started in *; simpl in *;
    try rewrite own_events_snoc; simpl; try exact I.
  - (* p.start() *)
    destruct Hinv as [Hlt Hno]. split.
    + intros j p' Hj Hj'. destruct (decide (j = i)) as [->|Hne].
      * rewrite list_lookup_insert_eq in Hj' by (eapply lookup_lt_Some; eauto).
        injection Hj' as <-. simpl. eauto.
      * rewrite list_lookup_insert_ne in Hj' by done.
        apply (Hlt j); [lia | done].
    + apply no_yield_snoc; [done | discriminate].
  - (* every process is started *)
    destruct Hinv as [Hlt Hno]. split.
    + intros p Hin. apply list_elem_of_lookup in Hin as [j Hj].
      apply (Hlt j); [|done].
      apply lookup_ge_None in Hi. apply lookup_lt_Some in Hj. lia.
    + left. apply no_yield_snoc; [done | discriminate].
  - (* queue.get() *)
    destruct Hinv as [Hall _]. split; [exact Hall|].
    exists [], (own_events tr), msg. split_and!; auto.
  - (* SIGSTOP loop: a process without pid *)
    destruct Hinv as (Hall & done & tr0 & msg & Hps & _).
    destruct (Hall p) as [n Hn]; [|congruence].
    rewrite Hps. apply elem_of_app. right. left.
  - (* SIGSTOP loop: os.kill *)
    destruct Hinv as (Hall & done & tr0 & msg & Hps & Hdone & Htr).
    split; [exact Hall|].
    exists (done ++ [p]), tr0, msg. split_and!.
    + now rewrite <- app_assoc.
    + apply Forall_app. split.
      * eapply Forall_impl; [exact Hdone|].
        intros p'. exact (suspended_stays_stop n w w' p' Hk).
      * apply Forall_singleton. exact (suspended_after_stop n w w' p Hk Hp).
    + rewrite Htr, (kills_snoc_started _ _ _ _ Hp), <- app_assoc.
      reflexivity.
  - (* yield *)
    destruct Hinv as (Hall & done & tr0 & msg & Hps & Hdone & Htr).
    rewrite app_nil_r in Hps. subst done.
    split_and!; auto. exists tr0, msg.
    rewrite Htr, <- app_assoc. reflexivity.
  - (* next() *)
    destruct Hinv as (Hall & Hdone & tr0 & msg & Htr).
    split; [exact Hall|].
    exists [], (tr0 ++ EGet msg :: kills SIGSTOP ps), c. split; [done|].
    rewrite Htr. simpl. rewrite <- !app_assoc. simpl.
    now rewrite <- app_assoc.
  - (* SIGCONT loop: a process without pid *)
    destruct Hinv as (Hall & done & tr0 & c & Hps & _).
    destruct (Hall p) as [n Hn]; [|congruence].
    rewrite Hps. apply elem_of_app. right. left.
  - (* SIGCONT loop: os.kill *)
    destruct Hinv as (Hall & done & tr0 & c & Hps & Htr).
    split; [exact Hall|].
    exists (done ++ [p]), tr0, c. split.
    + now rewrite <- app_assoc.
    + rewrite Htr, (kills_snoc_started _ _ _ _ Hp), <- app_assoc.
      reflexivity.
  - (* the SIGCONT loop is done *)
    destruct Hinv as (Hall & done & tr0 & c & Hps & Htr).
    rewrite app_nil_r in Hps. subst done.
    split; [exact Hall|]. right. eauto.
Qed.

Lemma exec_inv w0 processes tr s :
  exec (init w0 processes) tr s → inv tr s.
Proof.
  induction 1 as [|tr s e s' _ IH Hstep]; [apply inv_init|].
  now apply inv_step with s.
Qed.

(** *** The states of the workers along a run *)

Lemma sound_mono (tr : list event) (e : event) (t : gmap Z pstate)
    (ps : list Process) :
  (∀ p n, p ∈ ps → pid p = Some n →
     ∃ st, t !! n = Some st ∧ st ≠ Stopped true
           ∧ (st = Exited → EExit n ∈ tr)) →
  ∀ p n, p ∈ ps → pid p = Some n →
    ∃ st, t !! n = Some st ∧ st ≠ Stopped true
          ∧ (st = Exited → EExit n ∈ tr ++ [e]).
Proof.
  intros HG p n Hp Hn. destruct (HG p n Hp Hn) as (st & Hst & Hne & Hex).
  exists st. split_and!; auto. intros Hx. apply elem_of_app. auto.
Qed.

Lemma sound_insert (tr : list event) (e : event) (t : gmap Z pstate)
    (ps : list Process) (m : Z) (change : pstate → pstate) (st0 : pstate) :
  t !! m = Some st0 →
  (∀ st, st ≠ Stopped true →
         change st ≠ Stopped true ∧ (change st = Exited → st = Exited)) →
  (∀ p n, p ∈ ps → pid p = Some n →
     ∃ st, t !! n = Some st ∧ st ≠ Stopped true
           ∧ (st = Exited → EExit n ∈ tr)) →
  ∀ p n, p ∈ ps → pid p = Some n →
    ∃ st, <[m := change st0]> t !! n = Some st ∧ st ≠ Stopped true
          ∧ (st = Exited → EExit n ∈ tr ++ [e]).
Proof.
  intros Hm Hchange HG p n Hp Hn.
  destruct (HG p n Hp Hn) as (st & Hst & Hne & Hex).
  destruct (decide (m = n)) as [->|Hmn].
  - rewrite Hm in Hst. injection Hst as ->.
    destruct (Hchange st Hne) as [Hne' Hex'].
    exists (change st). rewrite lookup_insert_eq. split_and!; auto.
    intros Hx. apply elem_of_app. auto.
  - exists st. rewrite lookup_insert_ne by done. split_and!; auto.
    intros Hx. apply elem_of_app. auto.
Qed.

Lemma not_stopped_insert (t : gmap Z pstate) (ps : list Process) (m : Z)
    (st' : pstate) :
  st' ≠ Stopped false →
  (∀ p n, p ∈ ps → pid p = Some n → t !! n ≠ Some (Stopped false)) →
  ∀ p n, p ∈ ps → pid p = Some n →
         <[m := st']> t !! n ≠ Some (Stopped false).
Proof.
  intros Hst' Hps p n Hp Hn. destruct (decide (m = n)) as [->|Hmn].
  - rewrite lookup_insert_eq. congruence.
  - rewrite lookup_insert_ne by done. eauto.
Qed.

Lemma cont_never_stops st : deliver SIGCONT st ≠ Stopped false.
Proof. destruct st as [|[]|]; discriminate. Qed.

Lemma worker_inv_init w0 processes : worker_inv [] (init w0 processes).
Proof.
  unfold worker_inv, init. simpl. split.
  - intros p n Hp Hn. apply elem_of_replicate in Hp as [-> _]. discriminate.
  - intros p n Hp Hn. apply elem_of_replicate in Hp as [-> _]. discriminate.
Qed.

Lemma worker_inv_step tr s e s' :
  worker_inv tr s → step s e s' → worker_inv (tr ++ [e]) s'.
Proof.
  intros [HG Hpc] Hstep.
  inversion Hstep as
    [ w ps i p n Hi Hfree | w ps i p msg Hi | w ps i Hi
    | w ps msg q c Hq Hdec | w ps msg q ex Hq Hdec
    | w ps c p rest Hp | w w' ps c p rest n Hp Hk
    | w w' ps c p rest n ex Hp Hk
    | w ps c | w ps c
    | w ps p rest Hp | w w' ps p rest n Hp Hk | w w' ps p rest n ex Hp Hk
    | w ps
    | w ps a p n msg Hin Hp Hrun | w ps a p n Hin Hp Hrun ];
    subst; unfold worker_inv; cbn [at_pc os procs table with_queue with_table] in *.
  - (* p.start() *)
    assert (Hsplit : ∀ p', p' ∈ <[i := {| pid := Some n |}]> ps →
                           p' = {| pid := Some n |} ∨ p' ∈ ps).
    { intros p' Hin. apply list_elem_of_lookup in Hin as [j Hj].
      apply list_lookup_insert_Some in Hj as [(-> & <- & _)|[_ Hj]]; [now left|].
      right. apply list_elem_of_lookup. eauto. }
    split.
    + intros p' m Hin Hm. destruct (decide (n = m)) as [->|Hnm].
      * exists Running. rewrite lookup_insert_eq.
        split_and!; [done | discriminate | discriminate].
      * destruct (Hsplit p' Hin) as [->|Hold]; [simpl in Hm; congruence|].
        destruct (HG p' m Hold Hm) as (st & Hst & Hne & Hex).
        exists st. rewrite lookup_insert_ne by done. split_and!; auto.
        intros Hx. apply elem_of_app. auto.
    + intros p' m Hin Hm. destruct (decide (n = m)) as [->|Hnm].
      * rewrite lookup_insert_eq. discriminate.
      * rewrite lookup_insert_ne by done.
        destruct (Hsplit p' Hin) as [->|Hold]; [simpl in Hm; congruence|].
        eauto.
  - split; [now apply sound_mono | exact I].
  - split; [now apply sound_mono | exact Hpc].
  - split; [now apply sound_mono | exact I].
  - split; [now apply sound_mono | exact I].
  - split; [now apply sound_mono | exact I].
  - (* SIGSTOP *)
    apply os_kill_Return_inv in Hk as (st0 & Hst0 & ->). cbn [table].
    split; [|exact I].
    apply (sound_insert tr _ (table w) ps n (deliver SIGSTOP) st0 Hst0);
      [|exact HG].
    intros st Hne. destruct st as [|[]|]; split; try done.
  - apply os_kill_Raised_inv in Hk as ->.
    split; [now apply sound_mono | exact I].
  - split; [now apply sound_mono | exact I].
  - split; [now apply sound_mono|]. exists []. split; [reflexivity|].
    intros p n Hp. inversion Hp.
  - (* SIGCONT loop: a process without pid *)
    destruct Hpc as (done & Hps & Hdone).
    split; [now apply sound_mono|]. exists (done ++ [p]).
    split; [now rewrite <- app_assoc|].
    intros p' n Hin Hn. apply elem_of_app in Hin as [Hin|Hin]; [eauto|].
    apply list_elem_of_singleton in Hin as ->. congruence.
  - (* SIGCONT *)
    destruct Hpc as (done & Hps & Hdone).
    apply os_kill_Return_inv in Hk as (st0 & Hst0 & ->). cbn [table].
    split.
    + apply (sound_insert tr _ (table w) ps n (deliver SIGCONT) st0 Hst0);
        [|exact HG].
      intros st Hne. destruct st as [|[]|]; split; try done.
    + exists (done ++ [p]). split; [now rewrite <- app_assoc|].
      intros p' m Hin Hm. destruct (decide (n = m)) as [->|Hnm].
      * rewrite lookup_insert_eq. intros [= Hx].
        now apply (cont_never_stops st0).
      * rewrite lookup_insert_ne by done.
        apply elem_of_app in Hin as [Hin|Hin]; [eauto|].
        apply list_elem_of_singleton in Hin as ->. congruence.
  - apply os_kill_Raised_inv in Hk as ->.
    split; [now apply sound_mono | exact I].
  - (* the SIGCONT loop is done *)
    destruct Hpc as (done & Hps & Hdone). rewrite app_nil_r in Hps. subst done.
    split; [now apply sound_mono | exact Hdone].
  - (* queue.put() *)
    split; [now apply sound_mono | exact Hpc].
  - (* a worker exits *)
    split.
    + intros p' m Hin' Hm. destruct (decide (n = m)) as [->|Hnm].
      * exists Exited. rewrite lookup_insert_eq.
        split_and!; [done | discriminate |].
        intros _. apply elem_of_app. right. left.
      * destruct (HG p' m Hin' Hm) as (st & Hst & Hne & Hex).
        exists st. rewrite lookup_insert_ne by done. split_and!; auto.
        intros Hx. apply elem_of_app. auto.
    + destruct a as [i| |c rest|c|rest|ex]; try exact I.
      * apply not_stopped_insert; [discriminate | exact Hpc].
      * apply not_stopped_insert; [discriminate | exact Hpc].
      * destruct Hpc as (done & Hps & Hdone). exists done.
        split; [exact Hps|].
        apply not_stopped_insert; [discriminate | exact Hdone].
Qed.

Lemma exec_worker_inv w0 processes tr s :
  exec (init w0 processes) tr s → worker_inv tr s.
Proof.
  induction 1 as [|tr s e s' _ IH Hstep]; [apply worker_inv_init|].
  now apply worker_inv_step with s.
Qed.

(** *** From a delivery to the signals that continue the workers *)

Lemma snoc_eq_yield (tr : list event) e tr1 c tr2 :
  tr ++ [e] = tr1 ++ EYield c :: tr2 →
  (tr2 = [] ∧ e = EYield c ∧ tr = tr1)
  ∨ ∃ tr2', tr2 = tr2' ++ [e] ∧ tr = tr1 ++ EYield c :: tr2'.
Proof.
  destruct tr2 as [|x tr2' _] using rev_ind; intros Heq.
  - apply app_inj_tail in Heq as [-> ->]. now left.
  - change (tr1 ++ EYield c :: tr2' ++ [x])
      with (tr1 ++ (EYield c :: tr2') ++ [x]) in Heq.
    rewrite app_assoc in Heq. apply app_inj_tail in Heq as [-> ->].
    right. eauto.
Qed.

Lemma continued_inv_step tr s e s' :
  inv tr s → inv (tr ++ [e]) s' → continued_inv tr s → step s e s' →
  continued_inv (tr ++ [e]) s'.
Proof.
  intros Hinv Hinv' HJ Hstep tr1 c0 tr2 Heq p0 n0 Hp0 Hn0 Hrun.
  apply snoc_eq_yield in Heq as [(-> & -> & ->)|(tr2' & -> & Htr)].
  - (* the delivery itself: every worker is suspended *)
    inversion Hstep; subst. unfold inv in Hinv'. simpl in Hinv', Hp0, Hrun.
    destruct Hinv' as (_ & Hsus & _). rewrite Forall_forall in Hsus.
    now destruct (suspended_not_running _ _ _ (Hsus p0 Hp0) Hn0).
  - apply elem_of_app.
    inversion Hstep as
      [ w ps i p n Hi Hfree | w ps i p msg Hi | w ps i Hi
      | w ps msg q c Hq Hdec | w ps msg q ex Hq Hdec
      | w ps c p rest Hp | w w' ps c p rest n Hp Hk
      | w w' ps c p rest n ex Hp Hk
      | w ps c | w ps c
      | w ps p rest Hp | w w' ps p rest n Hp Hk | w w' ps p rest n ex Hp Hk
      | w ps
      | w ps a p n msg Hin Hp Hrun' | w ps a p n Hin Hp Hrun' ];
      subst; cbn [at_pc os procs table with_queue with_table] in *;
      try (left; apply (HJ tr1 c0 tr2' eq_refl p0 n0); assumption).
    + (* p.start(): there has been no delivery *)
      unfold inv in Hinv. simpl in Hinv. destruct Hinv as [_ Hno].
      destruct (Hno c0). apply elem_of_app. right. left.
    + (* SIGSTOP *)
      apply os_kill_Return_inv in Hk as (st0 & Hst0 & ->). cbn [table] in Hrun.
      destruct (decide (n = n0)) as [->|Hnn].
      * rewrite lookup_insert_eq in Hrun. injection Hrun as Hrun.
        destruct st0 as [|[]|]; discriminate.
      * rewrite lookup_insert_ne in Hrun by done.
        left. apply (HJ tr1 c0 tr2' eq_refl p0 n0); assumption.
    + apply os_kill_Raised_inv in Hk as ->.
      left. apply (HJ tr1 c0 tr2' eq_refl p0 n0); assumption.
    + (* SIGCONT *)
      apply os_kill_Return_inv in Hk as (st0 & Hst0 & ->). cbn [table] in Hrun.
      destruct (decide (n = n0)) as [->|Hnn].
      * right. left.
      * rewrite lookup_insert_ne in Hrun by done.
        left. apply (HJ tr1 c0 tr2' eq_refl p0 n0); assumption.
    + apply os_kill_Raised_inv in Hk as ->.
      left. apply (HJ tr1 c0 tr2' eq_refl p0 n0); assumption.
    + (* a worker exits *)
      destruct (decide (n = n0)) as [->|Hnn].
      * rewrite lookup_insert_eq in Hrun. discriminate.
      * rewrite lookup_insert_ne in Hrun by done.
        left. apply (HJ tr1 c0 tr2' eq_refl p0 n0); assumption.
Qed.

Lemma exec_continued_inv w0 processes tr s :
  exec (init w0 processes) tr s → continued_inv tr s.
Proof.
  induction 1 as [|tr s e s' Hexec IH Hstep].
  - intros tr1 c tr2 Heq. now destruct tr1.
  - apply continued_inv_step with s; auto.
    + now apply exec_inv with w0 processes.
    + apply exec_inv with w0 processes. now apply exec_snoc with s.
Qed.

Lemma exec_snoc_inv s0 tr e s :
  exec s0 (tr ++ [e]) s → ∃ s1, exec s0 tr s1 ∧ step s1 e s.
Proof.
  intros Hexec. inversion Hexec as [Hnil|tr' s1 e' s' Hexec' Hstep Heq]; subst.
  - now destruct tr.
  - apply app_inj_tail in Heq as [-> ->]. eauto.
Qed.

End Backpressure.

(** Runs, read from their first step. *)
Lemma exec_cons start_stop decode s0 e s1 tr s :
  Orchestrator.step start_stop decode s0 e s1 →
  Orchestrator.exec start_stop decode s1 tr s →
  Orchestrator.exec start_stop decode s0 (e :: tr) s.
Proof.
  intros Hstep Hexec. induction Hexec as [|tr s e' s' _ IH Hstep'].
  - apply (exec_snoc _ _ _ [] s0); [apply exec_nil | exact Hstep].
  - change (e :: tr ++ [e']) with ((e :: tr) ++ [e']).
    now apply exec_snoc with s.
Qed.


Lemma run_to_yield_exec :
  Orchestrator.exec true test_decode (init w_boot 2) run_to_yield s_yield.
Proof.
  unfold run_to_yield, init. simpl replicate.
  eapply exec_cons.
  { apply (step_start _ _ _ _ 0%nat {| pid := None |} 101); reflexivity. }
  eapply exec_cons.
  { apply (step_start _ _ _ _ 1%nat {| pid := None |} 102); reflexivity. }
  eapply exec_cons; [apply step_started; reflexivity|].
  eapply exec_cons.
  { apply (step_put _ _ _ _ _ (worker 101) 101 "case 1");
      [set_solver | reflexivity | reflexivity]. }
  eapply exec_cons.
  { apply (step_get _ _ _ _ "case 1" []); reflexivity. }
  eapply exec_cons.
  { eapply (step_stop _ _ _ _ _ _ (worker 101) _ 101); reflexivity. }
  eapply exec_cons.
  { apply (step_put _ _ _ _ _ (worker 102) 102 "case 2");
      [set_solver | reflexivity | reflexivity]. }
  eapply exec_cons.
  { eapply (step_stop _ _ _ _ _ _ (worker 102) _ 102); reflexivity. }
  eapply exec_cons; [apply step_yield|].
  apply exec_nil.
Defined.

Lemma run_to_resume_exec :
  Orchestrator.exec true test_decode (init w_boot 2) run_to_resume s_resumed.
Proof.
  pose proof run_to_yield_exec as H0.
  pose proof (exec_snoc _ _ _ _ _ ENext _ H0 (step_next _ _ _ _ _)) as H1.
  assert (H2 : Orchestrator.exec true test_decode (init w_boot 2)
                 ((run_to_yield ++ [ENext]) ++ [EKill 101 SIGCONT])
                 {| os := {| table := {[ 101 := Running; 102 := Stopped false ]};
                             queue := ["case 2"];
                             signals := [(101, SIGSTOP); (102, SIGSTOP);
                                         (101, SIGCONT)] |};
                    procs := [worker 101; worker 102];
                    at_pc := AtCont [worker 102] |}).
  { eapply exec_snoc; [exact H1|].
    eapply (step_cont _ _ _ _ _ (worker 101) _ 101); reflexivity. }
  assert (H3 : Orchestrator.exec true test_decode (init w_boot 2)
                 (((run_to_yield ++ [ENext]) ++ [EKill 101 SIGCONT])
                  ++ [EKill 102 SIGCONT])
                 {| os := os s_resumed;
                    procs := [worker 101; worker 102];
                    at_pc := AtCont [] |}).
  { eapply exec_snoc; [exact H2|].
    eapply (step_cont _ _ _ _ _ (worker 102) _ 102); reflexivity. }
  exact (exec_snoc _ _ _ _ _ ETau _ H3 (step_cont_done _ _ _ _)).
Defined.

(** ** Claims about the orchestrator *)

(** C8: in start/stop mode, whenever a case is delivered to the consumer,
    every worker is a started process that is suspended, and the last
    events of the generator before the delivery are the dequeue of the case
    followed by a SIGSTOP for every worker.  From the delivery on, the only
    step the system can take is the next request of the consumer: no worker
    runs, so no case is put on the queue and none is taken from it.  A
    SIGCONT is sent only after that request; it is received by the process
    it names, and a stopped worker runs again after it.  A case that is put
    on the queue after a delivery comes from a worker that has been sent
    SIGCONT since that delivery, so that none is put before the first
    SIGCONT.  When the generator is back at [queue.get()] every worker has
    been sent one and none is stopped any more: each runs, or has exited
    by a step of its own.  The signals the system has received are those of
    the run. *)
Theorem start_stop_backpressure (decode : string → result Case)
    (w0 : OS) (processes : nat) (tr : list event) (s : Sys) :
  Orchestrator.exec true decode (init w0 processes) tr s →
  (∀ c, at_pc s = AtYield c →
     Forall (suspended (os s)) (procs s)
     ∧ (∃ tr0 msg,
          own_events tr
          = tr0 ++ EGet msg :: kills SIGSTOP (procs s) ++ [EYield c])
     ∧ (∀ e s', Orchestrator.step true decode s e s' →
                e = ENext ∧ os s' = os s))
  ∧ (∀ n s', Orchestrator.step true decode s (EKill n SIGCONT) s' →
       (∃ tr0 c done p rest,
          procs s = done ++ p :: rest
          ∧ pid p = Some n
          ∧ own_events tr = tr0 ++ EYield c :: ENext :: kills SIGCONT done)
       ∧ (∃ st, table (os s) !! n = Some st
                ∧ table (os s') !! n = Some (deliver SIGCONT st)
                ∧ deliver SIGCONT st ≠ Stopped false)
       ∧ (table (os s) !! n = Some (Stopped false) →
          table (os s') !! n = Some Running)
       ∧ signals (os s') = signals (os s) ++ [(n, SIGCONT)])
  ∧ (at_pc s = AtGet →
       no_yield tr
       ∨ ∃ tr0 c,
           own_events tr
           = tr0 ++ EYield c :: ENext :: kills SIGCONT (procs s))
  ∧ (at_pc s = AtGet → Forall (resumed tr (os s)) (procs s))
  ∧ (∀ tr1 c tr2 n msg,
       tr = tr1 ++ EYield c :: tr2 ++ [EPut n msg] →
       EKill n SIGCONT ∈ tr2)
  ∧ signals (os s) = signals w0 ++ sent tr.
Proof.
  intros Hexec. apply exec_inv in Hexec as Hinv.
  unfold inv, all_started in Hinv. split_and!.
  - intros c Hc. rewrite Hc in Hinv. destruct Hinv as (Hall & Hsus & Htr).
    split_and!; auto.
    intros e s' Hstep. destruct s as [w ps a]. simpl in *. subst a.
    inversion Hstep as
      [ | | | | | | | | | ? ? ? | | | |
      | ? ? ? p n msg Hin Hp Hrun | ? ? ? p n Hin Hp Hrun ]; subst.
    + auto.
    + rewrite Forall_forall in Hsus.
      now destruct (suspended_not_running _ _ _ (Hsus p Hin) Hp).
    + rewrite Forall_forall in Hsus.
      now destruct (suspended_not_running _ _ _ (Hsus p Hin) Hp).
  - intros n s' Hstep. destruct s as [w ps a]. simpl in *.
    inversion Hstep as
      [ | | | | | | | | | | | ? w' ? p rest ? Hp Hk | | | | ]; subst.
    destruct Hinv as (_ & done & tr0 & c & Hps & Htr).
    apply os_kill_Return_inv in Hk as (st & Hst & ->). simpl.
    split_and!.
    + exists tr0, c, done, p, rest. auto.
    + exists st. rewrite lookup_insert_eq.
      split_and!; auto. apply cont_never_stops.
    + intros Hstopped. rewrite Hstopped in Hst. injection Hst as <-.
      now rewrite lookup_insert_eq.
    + reflexivity.
  - intros Hget. rewrite Hget in Hinv. apply Hinv.
  - intros Hget. rewrite Hget in Hinv. destruct Hinv as [Hall _].
    destruct (exec_worker_inv decode _ _ _ _ Hexec) as [HG Hpc].
    rewrite Hget in Hpc. apply Forall_forall. intros p Hp.
    destruct (Hall p Hp) as [n Hn]. exists n. split; [exact Hn|].
    destruct (HG p n Hp Hn) as (st & Hst & Hne & Hex).
    specialize (Hpc p n Hp Hn). rewrite Hst in Hpc |- *.
    destruct st as [|[]|]; [now left | congruence | congruence |].
    right. auto.
  - intros tr1 c tr2 n msg ->.
    change (tr1 ++ EYield c :: tr2 ++ [EPut n msg])
      with (tr1 ++ (EYield c :: tr2) ++ [EPut n msg]) in Hexec.
    rewrite app_assoc in Hexec.
    apply exec_snoc_inv in Hexec as (s1 & Hexec1 & Hstep).
    pose proof (exec_continued_inv decode _ _ _ _ Hexec1) as HJ.
    inversion Hstep as
      [ | | | | | | | | | | | | |
      | w ps a p n' msg' Hin Hp Hrun | ]; subst.
    exact (HJ tr1 c tr2 eq_refl p n Hin Hp Hrun).
  - exact (proj1 (signal_inv_exec true decode _ _ _ _ Hexec)).
Qed.

Lemma start_stop_backpressure_witness :
  (Orchestrator.exec true test_decode (init w_boot 2) run_to_yield s_yield
   ∧ Forall (suspended (os s_yield)) (procs s_yield)
   ∧ (∃ tr0 msg,
        own_events run_to_yield
        = tr0 ++ EGet msg :: kills SIGSTOP (procs s_yield)
              ++ [EYield Fixtures.found_case])
   ∧ (∀ e s', Orchestrator.step true test_decode s_yield e s' →
              e = ENext ∧ os s' = os s_yield))
  ∧ (Orchestrator.exec true test_decode (init w_boot 2) run_to_resume s_resumed
     ∧ at_pc s_resumed = AtGet
     ∧ Forall (resumed run_to_resume (os s_resumed)) (procs s_resumed)
     ∧ signals (os s_resumed) = signals w_boot ++ sent run_to_resume).
Proof.
  split.
  - split; [exact run_to_yield_exec|].
    exact (proj1 (start_stop_backpressure test_decode w_boot 2 run_to_yield
                    s_yield run_to_yield_exec)
             Fixtures.found_case eq_refl).
  - split; [exact run_to_resume_exec|]. split; [reflexivity|].
    destruct (start_stop_backpressure test_decode w_boot 2 run_to_resume
                s_resumed run_to_resume_exec)
      as (_ & _ & _ & Hresumed & _ & Hsignals).
    split; [exact (Hresumed eq_refl) | exact Hsignals].
Defined.

(** After the run above both workers run again, and the second case, put
    before its worker was stopped, is still on the queue. *)
Example workers_run_again_after_resume :
  table (os s_resumed) !! 101 = Some Running
  ∧ table (os s_resumed) !! 102 = Some Running
  ∧ queue (os s_resumed) = ["case 2"].
Proof. vm_compute. auto. Qed.

(** Without start/stop mode the workers keep running while the consumer
    holds a case: a second case can be put on the queue after the
    delivery. *)
Example no_backpressure_without_start_stop :
  ∃ s s', Orchestrator.exec false test_decode (init w_boot 1)
            [EStart 101; ETau; EPut 101 "case 1"; EGet "case 1";
             EYield Fixtures.found_case] s
          ∧ Orchestrator.step false test_decode s (EPut 101 "case 2") s'.
Proof.
  eexists _, _. split.
  - unfold init. simpl replicate.
    eapply exec_cons.
    { apply (step_start _ _ _ _ 0%nat {| pid := None |} 101); reflexivity. }
    eapply exec_cons; [apply step_started; reflexivity|].
    eapply exec_cons.
    { apply (step_put _ _ _ _ _ (worker 101) 101 "case 1");
        [set_solver | reflexivity | reflexivity]. }
    eapply exec_cons.
    { apply (step_get _ _ _ _ "case 1" []); reflexivity. }
    eapply exec_cons; [apply step_yield|].
    apply exec_nil.
  - apply (step_put _ _ _ _ _ (worker 101) 101 "case 2");
      [set_solver | reflexivity | reflexivity].
Qed.

(** C9: [terminate_processes] sends every worker that has a pid first
    SIGCONT and then the SIGTERM of [terminate()], and no other signal;
    afterwards every such worker has exited, whatever state it was in,
    stopped ones included.  Signals are taken to act at once, and the
    workers to be children that nobody has waited for. *)
Theorem terminate_processes_kills_all (ps : list Process) (w : OS) :
  (∀ p n, p ∈ ps → pid p = Some n → is_Some (table w !! n)) →
  ∃ w',
    terminate_processes ps w = (Return tt, w')
    ∧ signals w' = signals w ++ terminate_signals ps
    ∧ (∀ p n, p ∈ ps → pid p = Some n → table w' !! n = Some Exited)
    ∧ (∀ n st, table w' !! n = Some st → alive st = true →
               ∀ p, p ∈ ps → pid p ≠ Some n).
Proof.
  intros Hin.
  destruct (terminate_processes_spec ps w Hin)
    as (w' & Hrun & Hsig & _ & _ & _ & Hall).
  exists w'. split_and!; auto.
  intros n st Hst Halive p Hp Hpid.
  rewrite (Hall p n Hp Hpid) in Hst. injection Hst as <-. discriminate.
Qed.

Lemma terminate_processes_kills_all_witness :
  (∀ p n, p ∈ some_procs → pid p = Some n → is_Some (table w_mixed !! n))
  ∧ ∃ w',
      terminate_processes some_procs w_mixed = (Return tt, w')
      ∧ signals w' = signals w_mixed ++ terminate_signals some_procs
      ∧ (∀ p n, p ∈ some_procs → pid p = Some n →
                table w' !! n = Some Exited)
      ∧ (∀ n st, table w' !! n = Some st → alive st = true →
                 ∀ p, p ∈ some_procs → pid p ≠ Some n).
Proof.
  assert (Hin : ∀ p n, p ∈ some_procs → pid p = Some n →
                       is_Some (table w_mixed !! n)).
  { intros p n Hp Hn. unfold some_procs in Hp.
    repeat (apply elem_of_cons in Hp as [->|Hp]);
      [| discriminate | |inversion Hp];
      injection Hn as <-; eexists; reflexivity. }
  split; [exact Hin|].
  exact (terminate_processes_kills_all some_procs w_mixed Hin).
Defined.

(** The run above, and what SIGTERM alone would leave. *)
Example terminate_processes_mixed :
  terminate_processes some_procs w_mixed = (Return tt, w_terminated).
Proof. vm_compute. reflexivity. Qed.

Example terminate_without_resume_leaves_stopped_worker :
  Process_terminate 101 w_mixed
  = (Return tt,
     {| table := {[ 101 := Stopped true; 102 := Running ]};
        queue := ["case 2"];
        signals := [(101, SIGTERM)] |}).
Proof. vm_compute. reflexivity. Qed.

End OrchestratorFacts.

(** * Properties beyond the claims *)

(** ** The command lines of the generators *)

Section CommandLines.
Context {W : Type} `{!Env W}.

Lemma csmith_toggle_shape options cmd0 (w : W) :
  ∃ flags w',
    csmith_toggle options cmd0 w = (Return (cmd0 ++ flags), w')
    ∧ Forall2 csmith_flag_for flags options.
Proof.
  revert cmd0 w. induction options as [|o options IH]; intros cmd0 w.
  - exists [], w. simpl. rewrite app_nil_r. split; [reflexivity | constructor].
  - cbn [csmith_toggle]. unfold bind, call_total.
    destruct (randint 0 1 w) as [r w1].
    destruct (negb (r =? 0)).
    + destruct (IH (cmd0 ++ ["--" +:+ o]) w1) as (flags & w' & Hrun & Hall).
      exists (("--" +:+ o) :: flags), w'. rewrite Hrun, <- app_assoc.
      split; [reflexivity|]. constructor; [now left | exact Hall].
    + destruct (IH (cmd0 ++ ["--no-" +:+ o]) w1) as (flags & w' & Hrun & Hall).
      exists (("--no-" +:+ o) :: flags), w'. rewrite Hrun, <- app_assoc.
      split; [reflexivity|]. constructor; [now right | exact Hall].
Qed.

Lemma index_int_in_range {A} (l : list A) (i : Z) (w : W) :
  0 ≤ i < Z.of_nat (length l) →
  ∃ v, l !! Z.to_nat i = Some v ∧ index_int l i w = (Return v, w).
Proof.
  intros Hi. unfold index_int.
  replace ((0 <=? i) && (i <? Z.of_nat (length l))) with true
    by (symmetry; apply andb_true_iff; split; [apply Z.leb_le | apply Z.ltb_lt]; lia).
  unfold index.
  destruct (l !! Z.to_nat i) as [v|] eqn:Hv.
  - exists v. auto.
  - apply lookup_ge_None in Hv. lia.
Qed.

Lemma yarpgen_pick_shape options hi values cmd0 (w : W) :
  randint_in_range → 0 ≤ hi → Z.of_nat (length values) = hi + 1 →
  ∃ flags w',
    yarpgen_pick options hi values cmd0 w = (Return (cmd0 ++ flags), w')
    ∧ Forall2 yarpgen_flag_for flags (map (λ o, (o, values)) options).
Proof.
  intros Hrand Hhi Hlen. revert cmd0 w.
  induction options as [|o options IH]; intros cmd0 w.
  - exists [], w. simpl. rewrite app_nil_r. split; [reflexivity | constructor].
  - cbn [yarpgen_pick]. unfold bind at 1. unfold call_total.
    pose proof (Hrand 0 hi w Hhi) as Hr.
    destruct (randint 0 hi w) as [ri w1]. simpl in Hr.
    destruct (index_int_in_range values ri w1 ltac:(lia)) as (v & Hv & Hidx).
    rewrite (bind_Return _ _ _ _ _ Hidx).
    destruct (IH (cmd0 ++ ["--" +:+ o +:+ "=" +:+ v]) w1)
      as (flags & w' & Hrun & Hall).
    exists (("--" +:+ o +:+ "=" +:+ v) :: flags), w'.
    rewrite Hrun, <- app_assoc. split; [reflexivity|].
    simpl. constructor; [|exact Hall].
    exists v. split; [|reflexivity]. simpl.
    apply list_elem_of_lookup. eauto.
Qed.

End CommandLines.

(** X1: the command line of CSmith is the executable, the five fixed
    flags [--no-unions --safe-math --no-argc --no-volatiles
    --no-volatile-pointers], and then, for each of the 21 options in
    order, either [--option] or [--no-option]; building it never fails. *)
Theorem csmith_cmd_shape {W : Type} `{!Env W} (exe : string) (w : W) :
  ∃ flags w',
    csmith_cmd exe w
    = (Return ([ exe; "--no-unions"; "--safe-math"; "--no-argc";
                 "--no-volatiles"; "--no-volatile-pointers" ] ++ flags), w')
    ∧ Forall2 csmith_flag_for flags csmith_options
    ∧ length flags = 21%nat.
Proof.
  destruct (csmith_toggle_shape csmith_options
              [ exe; "--no-unions"; "--safe-math"; "--no-argc";
                "--no-volatiles"; "--no-volatile-pointers" ] w)
    as (flags & w' & Hrun & Hall).
  exists flags, w'. split_and!; auto.
  apply Forall2_length in Hall. exact Hall.
Qed.

(** X2: when [randint] answers within its bounds, building the command
    line of YARPGen does not fail, and the command line is the executable,
    [--std=c], [--out-dir=<dir>] and then one [--option=value] for each of
    the nine options in order, the value taken from the list of that
    option. *)
Theorem yarpgen_cmd_shape {W : Type} `{!Env W} (exe out_dir : string) (w : W) :
  randint_in_range →
  ∃ flags w',
    yarpgen_cmd exe out_dir w
    = (Return ([exe; "--std=c"; "--out-dir=" +:+ out_dir] ++ flags), w')
    ∧ Forall2 yarpgen_flag_for flags yarpgen_choices.
Proof.
  intros Hrand. unfold yarpgen_cmd.
  destruct (yarpgen_pick_shape nsa_options 2 nsa
              [exe; "--std=c"; "--out-dir=" +:+ out_dir] w Hrand
              ltac:(lia) eq_refl) as (f1 & w1 & Hrun1 & Hall1).
  rewrite (bind_Return _ _ _ _ _ Hrun1).
  destruct (yarpgen_pick_shape tf_options 1 tf
              ([exe; "--std=c"; "--out-dir=" +:+ out_dir] ++ f1) w1 Hrand
              ltac:(lia) eq_refl) as (f2 & w2 & Hrun2 & Hall2).
  rewrite (bind_Return _ _ _ _ _ Hrun2).
  unfold bind at 1. unfold call_total.
  pose proof (Hrand 0 2 w2 ltac:(lia)) as Hr3.
  destruct (randint 0 2 w2) as [r3 w3]. simpl in Hr3.
  destruct (index_int_in_range nea r3 w3 ltac:(simpl; lia)) as (v3 & Hv3 & Hi3).
  rewrite (bind_Return _ _ _ _ _ Hi3).
  unfold bind at 1.
  pose proof (Hrand 0 2 w3 ltac:(lia)) as Hr4.
  destruct (randint 0 2 w3) as [r4 w4]. simpl in Hr4.
  destruct (index_int_in_range align_sizes r4 w4 ltac:(simpl; lia))
    as (v4 & Hv4 & Hi4).
  rewrite (bind_Return _ _ _ _ _ Hi4).
  exists (f1 ++ f2 ++ ["--mutate=" +:+ v3; "--align-size=" +:+ v4]), w4.
  split.
  - unfold ret. rewrite <- !app_assoc. reflexivity.
  - unfold yarpgen_choices.
    apply Forall2_app; [exact Hall1|].
    apply Forall2_app; [exact Hall2|].
    constructor; [|constructor; [|constructor]].
    + exists v3. split; [apply list_elem_of_lookup; eauto | reflexivity].
    + exists v4. split; [apply list_elem_of_lookup; eauto | reflexivity].
Qed.

Lemma yarpgen_cmd_shape_witness :
  randint_in_range (Env0 := MoreFixtures.e_low)
  ∧ ∃ flags w',
      yarpgen_cmd (Env0 := MoreFixtures.e_low) "yarpgen" "/tmp/out"
        TestEnv.empty_world
      = (Return (["yarpgen"; "--std=c"; "--out-dir=" +:+ "/tmp/out"] ++ flags),
         w')
      ∧ Forall2 yarpgen_flag_for flags yarpgen_choices.
Proof.
  assert (Hrand : randint_in_range (Env0 := MoreFixtures.e_low)).
  { intros a b w Hab. simpl. lia. }
  split; [exact Hrand|].
  exact (yarpgen_cmd_shape (Env0 := MoreFixtures.e_low) "yarpgen" "/tmp/out"
           TestEnv.empty_world Hrand).
Defined.

(** ** The generators: bounded runs and errors that are not retried *)

Section GeneratorEdges.
Context {W : Type} `{!Env W}.

(** More fuel does not change an answer of the loops. *)
Lemma run_csmith_loop_more_fuel fuel k exe tries (w : W) r w' :
  run_csmith_loop fuel exe tries w = (r, w') → r ≠ OutOfFuel →
  run_csmith_loop (fuel + k) exe tries w = (r, w').
Proof.
  revert tries w. induction fuel as [|fuel IH]; intros tries w.
  - intros [= <- _] Hr. now destruct Hr.
  - change (S fuel + k)%nat with (S (fuel + k)). cbn [run_csmith_loop].
    unfold bind.
    destruct (csmith_cmd exe w) as [[cmd|e|] w1]; auto.
    destruct (call (subprocess_run cmd) w1) as [[res|e|] w2]; auto.
    destruct (returncode res =? 0); auto.
    destruct (tries + 1 >? 10); auto.
Qed.

Lemma run_yarpgen_loop_more_fuel fuel k exe tries (w : W) r w' :
  run_yarpgen_loop fuel exe tries w = (r, w') → r ≠ OutOfFuel →
  run_yarpgen_loop (fuel + k) exe tries w = (r, w').
Proof.
  revert tries w. induction fuel as [|fuel IH]; intros tries w.
  - intros [= <- _] Hr. now destruct Hr.
  - change (S fuel + k)%nat with (S (fuel + k)). cbn [run_yarpgen_loop].
    unfold bind.
    destruct (call TemporaryDirectory w) as [[d|e|] w0]; auto.
    destruct (finally (run_yarpgen_round exe tries d)
                (TemporaryDirectory_cleanup d) w0) as [[[s|t]|e|] w1]; auto.
Qed.

Lemma answered {A} (m : M W A) (w : W) :
  total m →
  (∃ a w', m w = (Return a, w')) ∨ (∃ e w', m w = (Raised e, w')).
Proof.
  intros Hm. destruct (m w) as [[a|e|] w'] eqn:Hr; eauto.
  now apply Hm in Hr.
Qed.

End GeneratorEdges.

(** X3: [run_csmith] runs the tool at most eleven times: with room for
    eleven rounds or more the loop gives one and the same answer, and the
    answer is a program or an exception. *)
Theorem run_csmith_within_11_runs {W : Type} `{!Env W}
    (exe : string) (fuel : nat) (w : W) :
  (11 ≤ fuel)%nat →
  run_csmith_loop fuel exe 0 w = run_csmith exe w
  ∧ ((∃ text w', run_csmith exe w = (Return text, w'))
     ∨ (∃ e w', run_csmith exe w = (Raised e, w'))).
Proof.
  intros Hfuel. split; [|apply answered, run_csmith_total].
  unfold run_csmith. replace fuel with (11 + (fuel - 11))%nat by lia.
  destruct (run_csmith_loop 11 exe 0 w) as [r w'] eqn:Hr.
  apply run_csmith_loop_more_fuel; [exact Hr|].
  intros ->. now apply (run_csmith_total exe) in Hr.
Qed.

Lemma run_csmith_within_11_runs_witness :
  (11 ≤ 40)%nat
  ∧ run_csmith_loop (Env0 := Fixtures.e_accept) 40 "csmith" 0
      (Fixtures.w_failures 10)
    = run_csmith (Env0 := Fixtures.e_accept) "csmith" (Fixtures.w_failures 10).
Proof.
  assert (Hfuel : (11 ≤ 40)%nat) by lia.
  split; [exact Hfuel|].
  exact (proj1 (run_csmith_within_11_runs (Env0 := Fixtures.e_accept)
                  "csmith" 40 (Fixtures.w_failures 10) Hfuel)).
Defined.

(** X4: [run_yarpgen] runs the tool at most 101 times: with room for 101
    rounds or more the loop gives one and the same answer, and the answer
    is a program or an exception. *)
Theorem run_yarpgen_within_101_runs {W : Type} `{!Env W}
    (exe : string) (fuel : nat) (w : W) :
  (101 ≤ fuel)%nat →
  run_yarpgen_loop fuel exe 0 w = run_yarpgen exe w
  ∧ ((∃ text w', run_yarpgen exe w = (Return text, w'))
     ∨ (∃ e w', run_yarpgen exe w = (Raised e, w'))).
Proof.
  intros Hfuel. split; [|apply answered, run_yarpgen_total].
  unfold run_yarpgen. replace fuel with (101 + (fuel - 101))%nat by lia.
  destruct (run_yarpgen_loop 101 exe 0 w) as [r w'] eqn:Hr.
  apply run_yarpgen_loop_more_fuel; [exact Hr|].
  intros ->. now apply (run_yarpgen_total exe) in Hr.
Qed.

Lemma run_yarpgen_within_101_runs_witness :
  (101 ≤ 150)%nat
  ∧ run_yarpgen_loop (Env0 := Fixtures.e_accept) 150 "yarpgen" 0
      (Fixtures.w_failures 101)
    = run_yarpgen (Env0 := Fixtures.e_accept) "yarpgen"
        (Fixtures.w_failures 101).
Proof.
  assert (Hfuel : (101 ≤ 150)%nat) by lia.
  split; [exact Hfuel|].
  exact (proj1 (run_yarpgen_within_101_runs (Env0 := Fixtures.e_accept)
                  "yarpgen" 150 (Fixtures.w_failures 101) Hfuel)).
Defined.

(** X5: [run_csmith] retries nothing but an exit code other than 0.  An
    exception of [subprocess.run], and an output that is not UTF-8 after
    an exit code of 0, leave [run_csmith] at once, however few runs have
    failed before. *)
Theorem run_csmith_errors_not_retried {W : Type} `{!Env W}
    (exe : string) (n : nat) (w_start w w1 : W) (cmd : list string) :
  csmith_fails exe n w_start w → (n ≤ 10)%nat →
  csmith_cmd exe w = (Return cmd, w1) →
  (∀ e w2, subprocess_run cmd w1 = (Raise e, w2) →
           run_csmith exe w_start = (Raised e, w2))
  ∧ (∀ r e w2, subprocess_run cmd w1 = (Ok r, w2) → returncode r = 0 →
               utf8_decode (stdout r) = Raise e →
               run_csmith exe w_start = (Raised e, w2)).
Proof.
  intros Hn Hle Hcmd. split.
  - intros e w2 Hrun. unfold run_csmith.
    replace 11%nat with (n + S (10 - n))%nat by lia.
    rewrite (run_csmith_loop_fails _ _ _ _ _ _ Hn) by lia.
    cbn [run_csmith_loop]. rewrite (bind_Return _ _ _ _ _ Hcmd).
    apply bind_Raised. now apply call_Raised_inv.
  - intros r e w2 Hrun Hrc Hdec.
    rewrite (run_csmith_after_fails _ _ _ _ _ _ _ _ Hn Hle Hcmd Hrun Hrc).
    now rewrite Hdec.
Qed.

Lemma run_csmith_errors_not_retried_witness :
  (csmith_fails (Env0 := Fixtures.e_accept) "csmith" 2
     MoreFixtures.w_tool_gone
     (TestEnv.with_runs TestEnv.empty_world
        [Raise (OSError "No such file or directory")])
   ∧ (2 ≤ 10)%nat)
  ∧ run_csmith (Env0 := Fixtures.e_accept) "csmith" MoreFixtures.w_tool_gone
    = (Raised (OSError "No such file or directory"), TestEnv.empty_world).
Proof.
  assert (Hfails : csmith_fails (Env0 := Fixtures.e_accept) "csmith" 2
                     MoreFixtures.w_tool_gone
                     (TestEnv.with_runs TestEnv.empty_world
                        [Raise (OSError "No such file or directory")])).
  { eapply csmith_fails_S.
    { eexists _, _, _. split_and!; [reflexivity | reflexivity | discriminate]. }
    eapply csmith_fails_S.
    { eexists _, _, _. split_and!; [reflexivity | reflexivity | discriminate]. }
    apply csmith_fails_O. }
  assert (Hle : (2 ≤ 10)%nat) by lia.
  split; [split; [exact Hfails | exact Hle]|].
  eapply (proj1 (run_csmith_errors_not_retried (Env0 := Fixtures.e_accept)
                   "csmith" 2 _ _ _ _ Hfails Hle eq_refl)).
  reflexivity.
Defined.

(** X6: in [run_yarpgen], too, only an exit code other than 0 is
    retried.  A temporary directory that cannot be made, an exception of
    [subprocess.run], and after an exit code of 0 a file that cannot be
    read or a func.c of fewer than six lines, leave [run_yarpgen] at once;
    the temporary directory of the round is removed on the way out. *)
Theorem run_yarpgen_errors_not_retried {W : Type} `{!Env W}
    (exe : string) (n : nat) (w_start w : W) :
  yarpgen_fails exe n w_start w → (n ≤ 100)%nat →
  (∀ e w0, TemporaryDirectory w = (Raise e, w0) →
           run_yarpgen exe w_start = (Raised e, w0))
  ∧ (∀ d w0 cmd w1,
       TemporaryDirectory w = (Ok d, w0) →
       yarpgen_cmd exe d w0 = (Return cmd, w1) →
       (∀ e w2, subprocess_run cmd w1 = (Raise e, w2) →
                run_yarpgen exe w_start
                = (Raised e, TemporaryDirectory_cleanup d w2))
       ∧ (∀ r w2, subprocess_run cmd w1 = (Ok r, w2) → returncode r = 0 →
            (∀ e w3, read_text (pjoin d "driver.c") w2 = (Raise e, w3) →
                     run_yarpgen exe w_start
                     = (Raised e, TemporaryDirectory_cleanup d w3))
            ∧ (∀ driver w3 e w4,
                 read_text (pjoin d "driver.c") w2 = (Ok driver, w3) →
                 read_text (pjoin d "func.c") w3 = (Raise e, w4) →
                 run_yarpgen exe w_start
                 = (Raised e, TemporaryDirectory_cleanup d w4))
            ∧ (∀ driver w3 func w4,
                 read_text (pjoin d "driver.c") w2 = (Ok driver, w3) →
                 read_text (pjoin d "func.c") w3 = (Ok func, w4) →
                 (length (readlines func) < 6)%nat →
                 run_yarpgen exe w_start
                 = (Raised IndexError, TemporaryDirectory_cleanup d w4)))).
Proof.
  intros Hn Hle.
  assert (Hloop : run_yarpgen exe w_start
                  = run_yarpgen_loop (S (100 - n)) exe (0 + Z.of_nat n) w).
  { unfold run_yarpgen. replace 101%nat with (n + S (100 - n))%nat by lia.
    apply run_yarpgen_loop_fails; [exact Hn | lia]. }
  split.
  - intros e w0 Htd. rewrite Hloop. cbn [run_yarpgen_loop].
    apply bind_Raised. now apply call_Raised_inv.
  - intros d w0 cmd w1 Htd Hcmd.
    assert (Hround : ∀ e w2,
              run_yarpgen_round exe (0 + Z.of_nat n) d w0 = (Raised e, w2) →
              run_yarpgen exe w_start
              = (Raised e, TemporaryDirectory_cleanup d w2)).
    { intros e w2 Hr. rewrite Hloop. cbn [run_yarpgen_loop].
      apply call_Return_inv in Htd. rewrite (bind_Return _ _ _ _ _ Htd).
      apply bind_Raised. unfold finally. now rewrite Hr. }
    split.
    + intros e w2 Hrun. apply Hround. unfold run_yarpgen_round.
      rewrite (bind_Return _ _ _ _ _ Hcmd).
      apply bind_Raised. now apply call_Raised_inv.
    + intros r w2 Hrun Hrc.
      assert (Hfiles : ∀ e w3,
                read_files d gen_files [] w2 = (Raised e, w3) →
                run_yarpgen exe w_start
                = (Raised e, TemporaryDirectory_cleanup d w3)).
      { intros e w3 Hf. apply Hround. unfold run_yarpgen_round.
        rewrite (bind_Return _ _ _ _ _ Hcmd).
        apply call_Return_inv in Hrun. rewrite (bind_Return _ _ _ _ _ Hrun).
        rewrite Hrc. change (0 =? 0) with true. cbv iota.
        now apply bind_Raised. }
      split_and!.
      * intros e w3 Hd. apply Hfiles. unfold gen_files. cbn [read_files].
        apply bind_Raised. now apply call_Raised_inv.
      * intros driver w3 e w4 Hd Hf. apply Hfiles.
        unfold gen_files. cbn [read_files].
        apply call_Return_inv in Hd. rewrite (bind_Return _ _ _ _ _ Hd).
        apply bind_Raised. now apply call_Raised_inv.
      * intros driver w3 func w4 Hd Hf Hshort.
        rewrite (run_yarpgen_after_fails _ _ _ _ _ _ _ _ _ _ _ _ _ _
                   Hn Hle Htd Hcmd Hrun Hrc Hd Hf).
        destruct (readlines func !! 5%nat) as [line|] eqn:Hline;
          [|reflexivity].
        apply lookup_lt_Some in Hline. lia.
Qed.

Lemma run_yarpgen_errors_not_retried_witness :
  (yarpgen_fails (Env0 := Fixtures.e_accept) "yarpgen" 0
     TestEnv.empty_world TestEnv.empty_world
   ∧ (0 ≤ 100)%nat)
  ∧ run_yarpgen (Env0 := Fixtures.e_accept) "yarpgen" TestEnv.empty_world
    = (Raised (OSError "No such file or directory"), TestEnv.empty_world).
Proof.
  assert (Hfails : yarpgen_fails (Env0 := Fixtures.e_accept) "yarpgen" 0
                     TestEnv.empty_world TestEnv.empty_world)
    by apply yarpgen_fails_O.
  assert (Hle : (0 ≤ 100)%nat) by lia.
  split; [split; [exact Hfails | exact Hle]|].
  destruct (run_yarpgen_errors_not_retried (Env0 := Fixtures.e_accept)
              "yarpgen" 0 _ _ Hfails Hle) as [_ Hrest].
  destruct (Hrest "/tmp/out" TestEnv.empty_world Fixtures.yarpgen_cmd_0
              TestEnv.empty_world eq_refl eq_refl) as [_ Hzero].
  destruct (Hzero {| returncode := 0;
                     stdout := "int main(void) { return 0; }" |}
              TestEnv.empty_world eq_refl eq_refl) as [Hdriver _].
  exact (Hdriver (OSError "No such file or directory") TestEnv.empty_world
           eq_refl).
Defined.

(** X7: the program that [run_yarpgen] returns is the text of driver.c
    followed by the text of func.c with its sixth line, the include of
    init.h, cut out and nothing else changed, before [void test] is
    rewritten. *)
Theorem run_yarpgen_cuts_include {W : Type} `{!Env W}
    (exe : string) (n : nat) (w_start w w0 w1 w2 w3 w4 : W)
    (out_dir : string) (cmd : list string) (r : CompletedProcess)
    (driver func : string) (pre post : list string) :
  yarpgen_fails exe n w_start w → (n ≤ 100)%nat →
  TemporaryDirectory w = (Ok out_dir, w0) →
  yarpgen_cmd exe out_dir w0 = (Return cmd, w1) →
  subprocess_run cmd w1 = (Ok r, w2) →
  returncode r = 0 →
  read_text (pjoin out_dir "driver.c") w2 = (Ok driver, w3) →
  read_text (pjoin out_dir "func.c") w3 = (Ok func, w4) →
  readlines func = pre ++ include_init_h :: post → length pre = 5%nat →
  func = join pre +:+ include_init_h +:+ join post
  ∧ run_yarpgen exe w_start
    = (Return (str_replace "void test" "static void test"
                 (driver +:+ join pre +:+ join post)),
       TemporaryDirectory_cleanup out_dir w4).
Proof.
  intros Hn Hle Htd Hcmd Hrun Hrc Hd Hf Hlines Hpre. split.
  - rewrite <- (join_readlines func), Hlines, join_app, join_cons.
    reflexivity.
  - rewrite (run_yarpgen_after_fails _ _ _ _ _ _ _ _ _ _ _ _ _ _
               Hn Hle Htd Hcmd Hrun Hrc Hd Hf), Hlines.
    assert (Hline : (pre ++ include_init_h :: post) !! 5%nat
                    = Some include_init_h).
    { rewrite lookup_app_r by lia. now rewrite Hpre. }
    rewrite Hline, decide_True by reflexivity.
    do 3 f_equal. unfold del_at.
    rewrite take_app_length' by done.
    replace (drop 6 (pre ++ include_init_h :: post)) with post.
    + now rewrite join_app.
    + rewrite drop_app_ge by lia. rewrite Hpre. reflexivity.
Qed.

Lemma run_yarpgen_cuts_include_witness :
  (readlines Fixtures.func_c
   = MoreFixtures.func_header_lines
     ++ include_init_h :: MoreFixtures.func_body_lines
   ∧ length MoreFixtures.func_header_lines = 5%nat)
  ∧ Fixtures.func_c
    = join MoreFixtures.func_header_lines +:+ include_init_h
      +:+ join MoreFixtures.func_body_lines
  ∧ run_yarpgen (Env0 := Fixtures.e_accept) "yarpgen" Fixtures.w_yarpgen
    = (Return (str_replace "void test" "static void test"
                 (Fixtures.driver_c +:+ join MoreFixtures.func_header_lines
                  +:+ join MoreFixtures.func_body_lines)),
       Fixtures.w_yarpgen).
Proof.
  assert (Hlines : readlines Fixtures.func_c
                   = MoreFixtures.func_header_lines
                     ++ include_init_h :: MoreFixtures.func_body_lines)
    by reflexivity.
  assert (Hpre : length MoreFixtures.func_header_lines = 5%nat)
    by reflexivity.
  split; [split; [exact Hlines | exact Hpre]|].
  exact (run_yarpgen_cuts_include (Env0 := Fixtures.e_accept)
           "yarpgen" 0 Fixtures.w_yarpgen Fixtures.w_yarpgen
           Fixtures.w_yarpgen Fixtures.w_yarpgen Fixtures.w_yarpgen
           Fixtures.w_yarpgen Fixtures.w_yarpgen
           "/tmp/out" Fixtures.yarpgen_cmd_0
           {| returncode := 0; stdout := "int main(void) { return 0; }" |}
           Fixtures.driver_c Fixtures.func_c
           MoreFixtures.func_header_lines MoreFixtures.func_body_lines
           (yarpgen_fails_O _ _) (Nat.le_0_l _)
           eq_refl eq_refl eq_refl eq_refl eq_refl eq_refl Hlines Hpre).
Defined.

(** ** The instrumentation pipeline: what a result went through *)

Section InstrumentationEdges.
Context {W : Type} `{!Env W}.

Lemma instrument_candidate_Return_inv config ec flags cand (w : W) p text w' :
  instrument_candidate config ec flags cand w = (Return (p, text), w') →
  ∃ ntf w1 w2 paths w3 out w4 w5,
    NamedTemporaryFile ".c" w = (Ok ntf, w1)
    ∧ write_text ntf (cand +:+ nl) w1 = (Ok tt, w2)
    ∧ find_include_paths (llvm_sane_version config) ntf flags w2
      = (Ok paths, w3)
    ∧ run_cmd ([dcei config; ntf]
               ++ map (λ p, "--extra-arg=-isystem" +:+ p)
                    (paths ++ [include_path ec])) w3
      = (Ok out, w4)
    ∧ read_text ntf w4 = (Ok text, w5)
    ∧ p = "DCEMarker"
    ∧ w' = NamedTemporaryFile_close ntf w5.
Proof.
  unfold instrument_candidate. intros Hb.
  apply bind_Return_inv in Hb as (ntf & w1 & Hntf & Hb).
  apply finally_inv in Hb as (w5 & Hb & ->).
  apply bind_Return_inv in Hb as ([] & w2 & Hwrite & Hb).
  apply bind_Return_inv in Hb as (paths & w3 & Hpaths & Hb).
  apply bind_Return_inv in Hb as (p0 & w4 & Hins & Hb).
  apply bind_Return_inv in Hb as (t0 & w6 & Hread & [= <- <- <-]).
  unfold instrument_program in Hins.
  apply bind_Return_inv in Hins as (out & w7 & Hcmd & [= <- <-]).
  apply call_Return_inv in Hntf, Hwrite, Hpaths, Hcmd, Hread.
  exists ntf, w1, w2, paths, w3, out, w7, w6. split_and!; auto.
Qed.

Lemma generate_file_loop_raises fuel gp config ec flags (w : W) e w1 :
  generate_file_round gp config ec flags w = (Raised e, w1) →
  e ≠ TimeoutExpired →
  generate_file_loop (S fuel) gp config ec flags w = (Raised e, w1).
Proof.
  intros Hr Hne. cbn [generate_file_loop].
  apply bind_Raised. now apply try_except_other.
Qed.

Lemma generate_file_round_accept gp config ec flags (w : W) cand w1 r w2 :
  gp w = (Return cand, w1) →
  min_size ec ≤ len cand ≤ max_size ec →
  instrument_candidate config ec flags cand w1 = (r, w2) →
  generate_file_round gp config ec flags w
  = (match r with
     | Return res => Return (Some res)
     | Raised e => Raised e
     | OutOfFuel => OutOfFuel
     end, w2).
Proof.
  intros Hgp Hin Hins. unfold generate_file_round.
  rewrite (bind_Return _ _ _ _ _ Hgp).
  destruct (len cand >? max_size ec) eqn:Hmax; [lia|].
  destruct (len cand <? min_size ec) eqn:Hmin; [lia|].
  unfold bind. rewrite Hins. now destruct r.
Qed.

End InstrumentationEdges.

(** X8: a program returned by [generate_file] went through these steps, in
    this order: a temporary [.c] file was made, the candidate followed by
    a line end was written to it, the include paths were resolved for that
    file with the flags [additional_flags + " -I " + include_path], the
    tool was run on the file with those paths and the include path of the
    generator after them, and the text returned was read back from the
    file; the marker prefix is [DCEMarker] and the file is closed. *)
Theorem generate_file_steps {W : Type} `{!Env W}
    (fuel : nat) (gp : M W string) (config : Config) (ec : ExecConfig)
    (flags : string) (w w' : W) (p text : string) :
  generate_file fuel gp config ec flags w = (Return (p, text), w') →
  ∃ cand wa wb ntf w1 w2 paths w3 out w4 w5,
    gp wa = (Return cand, wb)
    ∧ NamedTemporaryFile ".c" wb = (Ok ntf, w1)
    ∧ write_text ntf (cand +:+ nl) w1 = (Ok tt, w2)
    ∧ find_include_paths (llvm_sane_version config) ntf
        (flags +:+ " -I " +:+ include_path ec) w2
      = (Ok paths, w3)
    ∧ run_cmd ([dcei config; ntf]
               ++ map (λ p, "--extra-arg=-isystem" +:+ p)
                    (paths ++ [include_path ec])) w3
      = (Ok out, w4)
    ∧ read_text ntf w4 = (Ok text, w5)
    ∧ p = "DCEMarker"
    ∧ w' = NamedTemporaryFile_close ntf w5.
Proof.
  unfold generate_file. intros Hret.
  apply generate_file_loop_Return in Hret as (cand & wa & wb & Hgp & _ & Hins).
  apply instrument_candidate_Return_inv in Hins
    as (ntf & w1 & w2 & paths & w3 & out & w4 & w5 & ? & ? & ? & ? & ? & ? & ?).
  exists cand, wa, wb, ntf, w1, w2, paths, w3, out, w4, w5.
  split_and!; auto.
Qed.

Lemma generate_file_steps_witness :
  generate_file (Env0 := Fixtures.e_accept) 2 TestEnv.scripted_gen
    TestEnv.test_config (csmith TestEnv.test_config) "" Fixtures.w_sizes
  = (Return ("DCEMarker", Fixtures.instrumented), Fixtures.w_closed)
  ∧ ∃ cand wa wb ntf w1 w2 paths w3 out w4 w5,
      TestEnv.scripted_gen wa = (Return cand, wb)
      ∧ NamedTemporaryFile (Env := Fixtures.e_accept) ".c" wb = (Ok ntf, w1)
      ∧ write_text (Env := Fixtures.e_accept) ntf (cand +:+ nl) w1
        = (Ok tt, w2)
      ∧ find_include_paths (Env := Fixtures.e_accept)
          (llvm_sane_version TestEnv.test_config) ntf
          ("" +:+ " -I " +:+ include_path (csmith TestEnv.test_config)) w2
        = (Ok paths, w3)
      ∧ run_cmd (Env := Fixtures.e_accept)
          ([dcei TestEnv.test_config; ntf]
           ++ map (λ p, "--extra-arg=-isystem" +:+ p)
                (paths ++ [include_path (csmith TestEnv.test_config)])) w3
        = (Ok out, w4)
      ∧ read_text (Env := Fixtures.e_accept) ntf w4
        = (Ok Fixtures.instrumented, w5)
      ∧ "DCEMarker" = "DCEMarker"
      ∧ Fixtures.w_closed
        = NamedTemporaryFile_close (Env := Fixtures.e_accept) ntf w5.
Proof.
  assert (Hret : generate_file (Env0 := Fixtures.e_accept) 2
                   TestEnv.scripted_gen TestEnv.test_config
                   (csmith TestEnv.test_config) "" Fixtures.w_sizes
                 = (Return ("DCEMarker", Fixtures.instrumented),
                    Fixtures.w_closed))
    by (vm_compute; reflexivity).
  split; [exact Hret|].
  exact (generate_file_steps (Env0 := Fixtures.e_accept) 2
           TestEnv.scripted_gen TestEnv.test_config
           (csmith TestEnv.test_config) "" _ _ _ _ Hret).
Defined.

(** X9: the bounds on the length of a candidate are inclusive, and a
    candidate within them whose instrumentation succeeds is returned in
    the round that generated it: the generator is not asked again. *)
Theorem generate_file_accepts_within_bounds {W : Type} `{!Env W}
    (fuel : nat) (gp : M W string) (config : Config) (ec : ExecConfig)
    (flags : string) (w w1 w2 : W) (cand : string) (res : string * string) :
  gp w = (Return cand, w1) →
  min_size ec ≤ len cand ≤ max_size ec →
  instrument_candidate config ec (flags +:+ " -I " +:+ include_path ec)
    cand w1 = (Return res, w2) →
  generate_file (S fuel) gp config ec flags w = (Return res, w2).
Proof.
  intros Hgp Hin Hins. unfold generate_file. cbn [generate_file_loop].
  rewrite (bind_Return _ _ w (Some res) w2); [reflexivity|].
  apply try_except_Return.
  now rewrite (generate_file_round_accept _ _ _ _ _ _ _ _ _ Hgp Hin Hins).
Qed.

Lemma generate_file_accepts_within_bounds_witness :
  (TestEnv.scripted_gen MoreFixtures.w_min_size
   = (Return "int x = 0;", TestEnv.empty_world)
   ∧ min_size (csmith TestEnv.test_config) ≤ len "int x = 0;"
     ≤ max_size (csmith TestEnv.test_config)
   ∧ len "int x = 0;" = min_size (csmith TestEnv.test_config))
  ∧ generate_file (Env0 := Fixtures.e_accept) 1 TestEnv.scripted_gen
      TestEnv.test_config (csmith TestEnv.test_config) ""
      MoreFixtures.w_min_size
    = (Return ("DCEMarker", MoreFixtures.instrumented_min), Fixtures.w_closed).
Proof.
  assert (Hgp : TestEnv.scripted_gen MoreFixtures.w_min_size
                = (Return "int x = 0;", TestEnv.empty_world)) by reflexivity.
  assert (Hin : min_size (csmith TestEnv.test_config) ≤ len "int x = 0;"
                ≤ max_size (csmith TestEnv.test_config))
    by (vm_compute; split; discriminate).
  split; [split; [exact Hgp | split; [exact Hin | reflexivity]]|].
  apply (generate_file_accepts_within_bounds (Env0 := Fixtures.e_accept)
           0 TestEnv.scripted_gen TestEnv.test_config
           (csmith TestEnv.test_config) "" _ _ _ _ _ Hgp Hin).
  vm_compute. reflexivity.
Defined.

(** X10: [generate_file] handles [TimeoutExpired] and nothing else.  Any
    other exception, raised by the generator (its exhausted retry budget
    among them) or while a candidate within the bounds is instrumented,
    leaves [generate_file] in the round in which it is raised. *)
Theorem generate_file_other_exceptions_leave {W : Type} `{!Env W}
    (fuel : nat) (gp : M W string) (config : Config) (ec : ExecConfig)
    (flags : string) (w w1 : W) (e : exn) :
  e ≠ TimeoutExpired →
  (gp w = (Raised e, w1) →
   generate_file (S fuel) gp config ec flags w = (Raised e, w1))
  ∧ (∀ cand w2,
       gp w = (Return cand, w1) →
       min_size ec ≤ len cand ≤ max_size ec →
       instrument_candidate config ec (flags +:+ " -I " +:+ include_path ec)
         cand w1 = (Raised e, w2) →
       generate_file (S fuel) gp config ec flags w = (Raised e, w2)).
Proof.
  intros Hne. unfold generate_file. split.
  - intros Hgp. apply generate_file_loop_raises; [|exact Hne].
    now apply generate_file_round_gen_raises.
  - intros cand w2 Hgp Hin Hins.
    apply generate_file_loop_raises; [|exact Hne].
    now rewrite (generate_file_round_accept _ _ _ _ _ _ _ _ _ Hgp Hin Hins).
Qed.

Lemma generate_file_other_exceptions_leave_witness :
  (Exception "CSmith failed 10 times in a row!" ≠ TimeoutExpired
   ∧ TestEnv.scripted_gen MoreFixtures.w_gen_exhausted
     = (Raised (Exception "CSmith failed 10 times in a row!"),
        TestEnv.empty_world))
  ∧ generate_file (Env0 := Fixtures.e_accept) 5 TestEnv.scripted_gen
      TestEnv.test_config (csmith TestEnv.test_config) ""
      MoreFixtures.w_gen_exhausted
    = (Raised (Exception "CSmith failed 10 times in a row!"),
       TestEnv.empty_world).
Proof.
  assert (Hne : Exception "CSmith failed 10 times in a row!" ≠ TimeoutExpired)
    by discriminate.
  assert (Hgp : TestEnv.scripted_gen MoreFixtures.w_gen_exhausted
                = (Raised (Exception "CSmith failed 10 times in a row!"),
                   TestEnv.empty_world)) by reflexivity.
  split; [split; [exact Hne | exact Hgp]|].
  exact (proj1 (generate_file_other_exceptions_leave
                  (Env0 := Fixtures.e_accept) 4 TestEnv.scripted_gen
                  TestEnv.test_config (csmith TestEnv.test_config) ""
                  _ _ _ Hne) Hgp).
Defined.

(** ** The discovery loop: completeness, provenance and edge cases *)

Section DiscoveryEdges.
Context {W : Type} `{!Env W}.

Lemma foldl_union_markers (l : list (CompilerSetting * gset string))
    (acc : gset string) (m : string) :
  m ∈ foldl (λ acc p, acc ∪ p.2) acc l
  ↔ m ∈ acc ∨ ∃ s S, (s, S) ∈ l ∧ m ∈ S.
Proof.
  revert acc. induction l as [|[s0 S0] l IH]; intros acc; simpl.
  - split; [now left | intros [Hm|(s & S & Hin & _)]; [done | inversion Hin]].
  - rewrite IH, elem_of_union. simpl. split.
    + intros [[Hm|Hm]|(s & S & Hin & Hm)].
      * now left.
      * right. exists s0, S0. split; [left | done].
      * right. exists s, S. split; [now right | done].
    + intros [Hm|(s & S & Hin & Hm)]; [now left; left|].
      apply elem_of_cons in Hin as [[= -> ->]|Hin].
      * left. now right.
      * right. eauto.
Qed.

(** Where no target setting makes a tentative case, the loop over the
    target settings ends without a call to the Checker. *)
Lemma find_bad_no_tentative code m good scen gol tl (w : W) :
  (∀ bad S, (bad, S) ∈ tl → m ∈ S → opt_level bad ∈ gol → False) →
  find_bad code m good scen gol tl w = (Return None, w).
Proof.
  induction tl as [|[bad S] tl IH]; intros Hno; [reflexivity|].
  cbn [find_bad].
  destruct (bool_decide (m ∈ S) && bool_decide (opt_level bad ∈ gol)) eqn:Hc.
  - apply andb_true_iff in Hc as [H1 H2].
    apply bool_decide_eq_true in H1, H2.
    destruct (Hno bad S); [left | done | done].
  - apply IH. intros bad' S' Hin. apply Hno. now right.
Qed.

Lemma extract_case_no_tentative code scen tl al ms (w : W) :
  (∀ m, m ∈ ms → ¬ tentative_for tl al m) →
  extract_case code scen tl al ms w = (Return None, w).
Proof.
  induction ms as [|m ms IH]; intros Hno; [reflexivity|].
  cbn [extract_case].
  assert (Hfind : find_bad code m (good_for m al) scen
                    (map opt_level (good_for m al)) tl w = (Return None, w)).
  { apply find_bad_no_tentative. intros bad S Hin HmS Hop.
    apply (Hno m); [left|]. exists bad, S. auto. }
  destruct (0 <? length (good_for m al))%nat.
  - rewrite (bind_Return _ _ _ _ _ Hfind). apply IH.
    intros m' Hm'. apply Hno. now right.
  - apply IH. intros m' Hm'. apply Hno. now right.
Qed.

Lemma attempt_after_find_alive code prefix scen (w : W) tl al w1 :
  find_alive code prefix scen w = (Return (tl, al), w1) →
  attempt code prefix scen w
  = extract_case code scen tl al (set_order (collect_markers tl)) w1.
Proof.
  intros Hfa. unfold attempt.
  rewrite (bind_Return _ _ w (Some (tl, al)) w1); [reflexivity|].
  apply try_except_Return. now rewrite (bind_Return _ _ _ _ _ Hfa).
Qed.

(** With a Checker that accepts every case, the loop over the target
    settings returns the case of the first tentative one. *)
Lemma find_bad_accepting code m good scen gol tl (w : W) :
  accepts_all →
  (∃ bad S, (bad, S) ∈ tl ∧ m ∈ S ∧ opt_level bad ∈ gol) →
  ∃ c w', find_bad code m good scen gol tl w = (Return (Some c), w').
Proof.
  intros Hacc. revert w. induction tl as [|[bad S] tl IH]; intros w.
  - intros (b & S & Hin & _). inversion Hin.
  - intros (b & S' & Hin & HmS & Hop). cbn [find_bad].
    destruct (bool_decide (m ∈ S) && bool_decide (opt_level bad ∈ gol)) eqn:Hc.
    + set (c := {| code := code; marker := m; bad_setting := bad;
                   good_settings := good; scenario := scen;
                   reduced_code := None; bisection := None; path := None |}).
      destruct (Hacc c w) as [w' Hw'].
      exists c, w'.
      rewrite (bind_Return _ _ w true w'); [reflexivity|].
      apply try_except_Return. now apply call_Return_inv.
    + apply IH. apply elem_of_cons in Hin as [[= -> ->]|Hin]; [|eauto].
      apply andb_false_iff in Hc as [Hc|Hc];
        apply bool_decide_eq_false in Hc; done.
Qed.

Lemma find_bad_answers code m good scen gol tl (w : W) :
  accepts_all →
  ∃ r w', find_bad code m good scen gol tl w = (Return r, w').
Proof.
  intros Hacc. revert w. induction tl as [|[bad S] tl IH]; intros w.
  - exists None, w. reflexivity.
  - cbn [find_bad].
    destruct (bool_decide (m ∈ S) && bool_decide (opt_level bad ∈ gol)).
    + set (c := {| code := code; marker := m; bad_setting := bad;
                   good_settings := good; scenario := scen;
                   reduced_code := None; bisection := None; path := None |}).
      destruct (Hacc c w) as [w' Hw'].
      exists (Some c), w'.
      rewrite (bind_Return _ _ w true w'); [reflexivity|].
      apply try_except_Return. now apply call_Return_inv.
    + apply IH.
Qed.

Lemma extract_case_accepting code scen tl al ms (w : W) :
  accepts_all →
  (∃ m, m ∈ ms ∧ tentative_for tl al m) →
  ∃ c w', extract_case code scen tl al ms w = (Return (Some c), w').
Proof.
  intros Hacc. revert w. induction ms as [|m ms IH]; intros w.
  - intros (m & Hin & _). inversion Hin.
  - intros (m' & Hin & Htent). cbn [extract_case].
    destruct (find_bad_answers code m (good_for m al) scen
                (map opt_level (good_for m al)) tl w Hacc)
      as ([c|] & w1 & Hfind).
    + (* the first marker has a case *)
      destruct (0 <? length (good_for m al))%nat eqn:Hlen.
      * exists c, w1. now rewrite (bind_Return _ _ _ _ _ Hfind).
      * exfalso. destruct (good_for m al) eqn:Hg; [|discriminate].
        clear IH Htent. revert w Hfind.
        induction tl as [|[bad S] tl IHtl]; intros w Hfind; [discriminate|].
        cbn [find_bad] in Hfind. simpl in Hfind.
        rewrite andb_false_r in Hfind. eauto.
    + assert (Hrest : ∃ m0, m0 ∈ ms ∧ tentative_for tl al m0).
      { apply elem_of_cons in Hin as [->|Hin]; [|eauto].
        exfalso. destruct Htent as (bad & S & Hbad & HmS & Hop).
        destruct (find_bad_accepting code m (good_for m al) scen
                    (map opt_level (good_for m al)) tl w Hacc)
          as (c & w2 & Hc); [eauto|congruence]. }
      destruct (0 <? length (good_for m al))%nat.
      * rewrite (bind_Return _ _ _ _ _ Hfind). now apply IH.
      * now apply IH.
Qed.

End DiscoveryEdges.

Section DiscoveryProperties.
Context {W : Type} `{!Env W}.

Lemma find_bad_Some_last code m good scen gol tl (w : W) c w' :
  find_bad code m good scen gol tl w = (Return (Some c), w') →
  ∃ wa, is_interesting c wa = (Ok true, w').
Proof.
  revert w. induction tl as [|[bad S] tl IH]; intros w; cbn [find_bad].
  - intros [=].
  - destruct (bool_decide (m ∈ S) && bool_decide (opt_level bad ∈ gol)); [|eauto].
    intros Hb. apply bind_Return_inv in Hb as (acc & w1 & Htry & Hb).
    destruct acc; [|eauto].
    injection Hb as <- <-.
    apply try_except_Return_inv in Htry as [Hcall|(w2 & _ & [=])].
    apply call_Return_inv in Hcall. eauto.
Qed.

Lemma extract_case_Some_last code scen tl al ms (w : W) c w' :
  extract_case code scen tl al ms w = (Return (Some c), w') →
  ∃ wa, is_interesting c wa = (Ok true, w').
Proof.
  revert w. induction ms as [|m ms IH]; intros w; cbn [extract_case].
  - intros [=].
  - destruct (0 <? length (good_for m al))%nat; [|eauto].
    intros Hb. apply bind_Return_inv in Hb as ([c0|] & w1 & Hfind & Hb).
    + injection Hb as <- <-. eapply find_bad_Some_last, Hfind.
    + eauto.
Qed.

Lemma attempt_Some_extract code prefix scen (w : W) c w' :
  attempt code prefix scen w = (Return (Some c), w') →
  ∃ tl al w1,
    find_alive code prefix scen w = (Return (tl, al), w1)
    ∧ extract_case code scen tl al (set_order (collect_markers tl)) w1
      = (Return (Some c), w').
Proof.
  unfold attempt. intros Hb.
  apply bind_Return_inv in Hb as (lists & w2 & Htry & Hb).
  destruct lists as [[tl al]|]; [|discriminate].
  apply try_except_Return_inv in Htry as [Hl|(w3 & _ & [=])].
  apply bind_Return_inv in Hl as ([tl' al'] & w3 & Hfa & [= -> -> ->]).
  eauto.
Qed.

Lemma find_alive_settings code prefix scen (w : W) tl al w' :
  find_alive code prefix scen w = (Return (tl, al), w') →
  tl.*1 = target_settings scen ∧ al.*1 = attacker_settings scen.
Proof.
  unfold find_alive. intros Hfa.
  apply bind_Return_inv in Hfa as (tl' & w1 & Htl & Hfa).
  apply bind_Return_inv in Hfa as (al' & w2 & Hal & [= -> -> ->]).
  split; eapply alive_marker_list_settings; eauto.
Qed.

Lemma discovery_loop_round fuel pg config ec scen tc (w : W) prefix code w1 :
  generate_file fuel pg config ec "" w = (Return (prefix, code), w1) →
  discovery_loop (S fuel) pg config ec scen tc w
  = (r <~ attempt code prefix scen;
     match r with
     | Some case => ret case
     | None => discovery_loop fuel pg config ec scen (tc + 1)
     end) w1.
Proof.
  intros Hgen. cbn [discovery_loop].
  now rewrite (bind_Return _ _ _ _ _ Hgen).
Qed.

Lemma extract_case_raises code scen tl al m ms (w : W) e w' :
  good_for m al ≠ [] →
  find_bad code m (good_for m al) scen (map opt_level (good_for m al)) tl w
  = (Raised e, w') →
  extract_case code scen tl al (m :: ms) w = (Raised e, w').
Proof.
  intros Hne Hfind. cbn [extract_case].
  destruct (good_for m al) eqn:Hg; [done|].
  cbn [length Nat.ltb Nat.leb]. now apply bind_Raised.
Qed.

(** X11: a case returned by [generate_interesting_case] carries the
    scenario of the caller with the flags of the generator added, its bad
    setting is a target setting of that scenario, its code is a program
    that [generate_file] returned for the generator and the bounds of the
    subclass, and the Checker accepted it: the accepting call of
    [is_interesting] is the last action of the search, the world returned
    is the world that call left. *)
Theorem returned_case_provenance
    (fuel : nat) (self : CaseGenerator) (config : Config) (scen : Scenario)
    (w w' : W) (c : Case) :
  generate_interesting_case fuel self config scen w = (Return c, w') →
  scenario c = add_flags scen (_get_runner_details self config).2
  ∧ bad_setting c ∈ target_settings (scenario c)
  ∧ (∃ f wa wb,
       generate_file f (_get_runner_details self config).1.1 config
         (_get_runner_details self config).1.2 "" wa
       = (Return ("DCEMarker", code c), wb))
  ∧ (∃ wa, is_interesting c wa = (Ok true, w')).
Proof.
  unfold generate_interesting_case.
  destruct (_get_runner_details self config) as [[pg ec] flags]. simpl.
  intros Hloop.
  apply discovery_loop_Return in Hloop as (f & code0 & w0 & w1 & Hgen & Hatt).
  pose proof Hatt as Hatt'.
  apply attempt_Some_extract in Hatt as (tl & al & w2 & Hfa & Hex).
  pose proof (extract_case_Some _ _ _ _ _ _ _ _ Hex) as Hfound.
  destruct Hfound as [Hc Hs (S & Hin & _) _ _ _ _ _ _ _].
  apply find_alive_settings in Hfa as [Htl _].
  split; [exact Hs|]. split; [|split].
  - rewrite Hs, <- Htl. apply list_elem_of_fmap. now exists (bad_setting c, S).
  - exists f, w0, w1. now rewrite Hc.
  - eapply extract_case_Some_last, Hex.
Qed.

(** X12: a round in which no marker has a tentative case (no target
    setting kept a marker that an attacker setting of the same optimization
    level eliminated) ends without a call to the Checker: the search goes
    to its next round with the counter advanced, in the world that the
    Builder left. *)
Theorem round_without_tentative_case
    (fuel : nat) (pg : M W string) (config : Config) (ec : ExecConfig)
    (scen : Scenario) (tc : Z) (w w1 w2 : W) (prefix code : string)
    (tl al : list (CompilerSetting * gset string)) :
  generate_file fuel pg config ec "" w = (Return (prefix, code), w1) →
  find_alive code prefix scen w1 = (Return (tl, al), w2) →
  (∀ m, ¬ tentative_for tl al m) →
  attempt code prefix scen w1 = (Return None, w2)
  ∧ discovery_loop (S fuel) pg config ec scen tc w
    = discovery_loop fuel pg config ec scen (tc + 1) w2.
Proof.
  intros Hgen Hfa Hno.
  assert (Hatt : attempt code prefix scen w1 = (Return None, w2)).
  { rewrite (attempt_after_find_alive _ _ _ _ _ _ _ Hfa).
    apply extract_case_no_tentative. auto. }
  split; [exact Hatt|].
  rewrite (discovery_loop_round _ _ _ _ _ _ _ _ _ _ Hgen).
  now rewrite (bind_Return _ _ _ _ _ Hatt).
Qed.

(** X13: no case comes out of a candidate whose markers diverge the wrong
    way or across optimization levels only.  If every marker that a target
    setting kept was kept by every attacker setting (as when all settings
    keep the same markers), or if no attacker setting has the optimization
    level of a target setting, the round returns no case and the Checker is
    not asked. *)
Theorem no_case_without_divergence_at_tier
    (code prefix : string) (scen : Scenario) (w w1 : W)
    (tl al : list (CompilerSetting * gset string)) :
  find_alive code prefix scen w = (Return (tl, al), w1) →
  (∀ bad S m, (bad, S) ∈ tl → m ∈ S → ∀ g G, (g, G) ∈ al → m ∈ G)
  ∨ (∀ bad g, bad ∈ target_settings scen → g ∈ attacker_settings scen →
       opt_level bad ≠ opt_level g) →
  attempt code prefix scen w = (Return None, w1).
Proof.
  intros Hfa Hcases.
  rewrite (attempt_after_find_alive _ _ _ _ _ _ _ Hfa).
  apply extract_case_no_tentative. intros m _ (bad & S & Hin & HmS & Hop).
  apply list_elem_of_fmap in Hop as (g & Hlev & Hg).
  apply elem_of_good_for in Hg as (G & HgG & HmG).
  destruct Hcases as [Hkept|Htier].
  - apply HmG. eapply Hkept; eauto.
  - apply find_alive_settings in Hfa as [Htl Hal].
    apply (Htier bad g); [| |exact Hlev].
    + rewrite <- Htl. apply list_elem_of_fmap. now exists (bad, S).
    + rewrite <- Hal. apply list_elem_of_fmap. now exists (g, G).
Qed.

(** X14: with a Checker that accepts every case, a candidate on which some
    marker has a tentative case ends the search: the round that generated
    the candidate returns a case for it, whatever the tentative case was
    found at. *)
Theorem accepted_divergence_is_returned
    (fuel : nat) (pg : M W string) (config : Config) (ec : ExecConfig)
    (scen : Scenario) (tc : Z) (w w1 w2 : W) (prefix code0 : string)
    (tl al : list (CompilerSetting * gset string)) (m : string) :
  accepts_all →
  set_order_enumerates →
  generate_file fuel pg config ec "" w = (Return (prefix, code0), w1) →
  find_alive code0 prefix scen w1 = (Return (tl, al), w2) →
  tentative_for tl al m →
  ∃ c w', discovery_loop (S fuel) pg config ec scen tc w = (Return c, w')
          ∧ code c = code0 ∧ scenario c = scen.
Proof.
  intros Hacc Hset Hgen Hfa Htent.
  assert (Hm : m ∈ set_order (collect_markers tl)).
  { apply Hset. unfold collect_markers. apply foldl_union_markers. right.
    destruct Htent as (bad & S & Hin & HmS & _). eauto. }
  destruct (extract_case_accepting code0 scen tl al
              (set_order (collect_markers tl)) w2 Hacc)
    as (c & w' & Hex); [eauto|].
  exists c, w'.
  pose proof (extract_case_Some _ _ _ _ _ _ _ _ Hex) as [Hc Hs _ _ _ _ _ _ _ _].
  split; [|auto].
  rewrite (discovery_loop_round _ _ _ _ _ _ _ _ _ _ Hgen).
  rewrite (bind_Return _ _ w1 (Some c) w'); [reflexivity|].
  now rewrite (attempt_after_find_alive _ _ _ _ _ _ _ Hfa).
Qed.

(** X15: only [CompileError] is handled inside the discovery loop.  Any
    other exception leaves [generate_interesting_case] at once: one of
    [generate_file], one of the Builder while the alive markers are
    computed, and one of the Checker on the first tentative case of the
    round. *)
Theorem discovery_other_exceptions_leave
    (fuel : nat) (pg : M W string) (config : Config) (ec : ExecConfig)
    (scen : Scenario) (tc : Z) (w : W) (e : exn) :
  e ≠ CompileError →
  (∀ w', generate_file fuel pg config ec "" w = (Raised e, w') →
         discovery_loop (S fuel) pg config ec scen tc w = (Raised e, w'))
  ∧ (∀ prefix code0 w1 w2,
       generate_file fuel pg config ec "" w = (Return (prefix, code0), w1) →
       find_alive code0 prefix scen w1 = (Raised e, w2) →
       discovery_loop (S fuel) pg config ec scen tc w = (Raised e, w2))
  ∧ (∀ prefix code0 w1 tl al w2 m ms bad kept rest w3,
       generate_file fuel pg config ec "" w = (Return (prefix, code0), w1) →
       find_alive code0 prefix scen w1 = (Return (tl, al), w2) →
       set_order (collect_markers tl) = m :: ms →
       tl = (bad, kept) :: rest →
       m ∈ kept →
       opt_level bad ∈ map opt_level (good_for m al) →
       is_interesting {| code := code0; marker := m; bad_setting := bad;
                         good_settings := good_for m al; scenario := scen;
                         reduced_code := None; bisection := None;
                         path := None |} w2 = (Raise e, w3) →
       discovery_loop (S fuel) pg config ec scen tc w = (Raised e, w3)).
Proof.
  intros Hne. split; [|split].
  - intros w' Hgen. cbn [discovery_loop]. now apply bind_Raised.
  - intros prefix code0 w1 w2 Hgen Hfa.
    rewrite (discovery_loop_round _ _ _ _ _ _ _ _ _ _ Hgen).
    apply bind_Raised. unfold attempt. apply bind_Raised.
    apply try_except_other; [|exact Hne]. now apply bind_Raised.
  - intros prefix code0 w1 tl al w2 m ms bad kept rest w3
      Hgen Hfa Hord -> HmS Hop Hchk.
    rewrite (discovery_loop_round _ _ _ _ _ _ _ _ _ _ Hgen).
    apply bind_Raised.
    rewrite (attempt_after_find_alive _ _ _ _ _ _ _ Hfa), Hord.
    apply extract_case_raises.
    { intros Hnil. rewrite Hnil in Hop. inversion Hop. }
    cbn [find_bad].
    rewrite (bool_decide_eq_true_2 _ HmS), (bool_decide_eq_true_2 _ Hop).
    cbn [andb]. apply bind_Raised.
    apply try_except_other; [|exact Hne]. now apply call_Raised_inv.
Qed.

(** X16: a scenario that, with the flags of the generator added, has no
    target setting or no attacker setting never yields a case:
    [generate_interesting_case] does not return on it. *)
Theorem no_settings_no_case
    (fuel : nat) (self : CaseGenerator) (config : Config) (scen : Scenario)
    (w : W) :
  target_settings (add_flags scen (_get_runner_details self config).2) = []
  ∨ attacker_settings (add_flags scen (_get_runner_details self config).2) = [] →
  ∀ c w', generate_interesting_case fuel self config scen w ≠ (Return c, w').
Proof.
  unfold generate_interesting_case.
  destruct (_get_runner_details self config) as [[pg ec] flags]. simpl.
  intros Hempty c w' Hloop.
  apply discovery_loop_Return in Hloop as (f & code0 & w0 & w1 & _ & Hatt).
  apply attempt_Some_extract in Hatt as (tl & al & w2 & Hfa & Hex).
  apply extract_case_Some in Hex as [_ _ (S & Hin & _) Hgood Hne _ _ _ _ _].
  apply find_alive_settings in Hfa as [Htl Hal].
  destruct Hempty as [Hnil|Hnil]; rewrite Hnil in *.
  - apply fmap_nil_inv in Htl. subst tl. inversion Hin.
  - apply fmap_nil_inv in Hal. subst al. now rewrite Hgood in Hne.
Qed.

(** X17: the Builder is asked once for every setting of the scenario: the
    two lists of alive markers of a round have one entry for each target
    setting and for each attacker setting, in the order of the scenario,
    and every entry holds what the Builder answered for the candidate, the
    setting and the prefix. *)
Theorem builder_asked_for_every_setting
    (code0 prefix : string) (scen : Scenario) (w w' : W)
    (tl al : list (CompilerSetting * gset string)) :
  find_alive code0 prefix scen w = (Return (tl, al), w') →
  tl.*1 = target_settings scen
  ∧ al.*1 = attacker_settings scen
  ∧ (∀ s S, (s, S) ∈ tl ++ al →
       ∃ wa wb, find_alive_markers code0 s prefix wa = (Ok S, wb)).
Proof.
  intros Hfa.
  destruct (find_alive_settings _ _ _ _ _ _ _ Hfa) as [Htl Hal].
  split; [exact Htl|]. split; [exact Hal|].
  unfold find_alive in Hfa.
  apply bind_Return_inv in Hfa as (tl' & w1 & Htl' & Hfa).
  apply bind_Return_inv in Hfa as (al' & w2 & Hal' & [= -> -> ->]).
  intros s S Hin. apply elem_of_app in Hin as [Hin|Hin].
  - exact (alive_marker_list_calls _ _ _ _ _ _ Htl' s S Hin).
  - exact (alive_marker_list_calls _ _ _ _ _ _ Hal' s S Hin).
Qed.

End DiscoveryProperties.

Lemma returned_case_provenance_witness :
  generate_interesting_case (Env0 := Fixtures.e_accept) 5 CSmithCaseGenerator
    TestEnv.test_config TestEnv.test_scenario TestEnv.empty_world
  = (Return Fixtures.found_case, Fixtures.w_closed)
  ∧ scenario Fixtures.found_case
    = add_flags (Env := Fixtures.e_accept) TestEnv.test_scenario
        ["-I/usr/include/csmith"]
  ∧ bad_setting Fixtures.found_case
    ∈ target_settings (scenario Fixtures.found_case)
  ∧ ∃ wa, is_interesting (Env := Fixtures.e_accept) Fixtures.found_case wa
          = (Ok true, Fixtures.w_closed).
Proof.
  assert (Hret : generate_interesting_case (Env0 := Fixtures.e_accept) 5
                   CSmithCaseGenerator TestEnv.test_config
                   TestEnv.test_scenario TestEnv.empty_world
                 = (Return Fixtures.found_case, Fixtures.w_closed))
    by (vm_compute; reflexivity).
  split; [exact Hret|].
  destruct (returned_case_provenance (Env0 := Fixtures.e_accept) 5
              CSmithCaseGenerator TestEnv.test_config TestEnv.test_scenario
              _ _ _ Hret) as (Hs & Hbad & _ & Hacc).
  split; [exact Hs|]. split; [exact Hbad | exact Hacc].
Defined.

Lemma round_without_tentative_case_witness :
  generate_file (Env0 := MoreFixtures.e_same) 1
    (run_csmith (Env0 := MoreFixtures.e_same) "csmith") TestEnv.test_config
    (csmith TestEnv.test_config) "" TestEnv.empty_world
  = (Return ("DCEMarker", Fixtures.instrumented), Fixtures.w_closed)
  ∧ attempt (Env0 := MoreFixtures.e_same) Fixtures.instrumented "DCEMarker"
      TestEnv.test_scenario Fixtures.w_closed
    = (Return None, Fixtures.w_closed)
  ∧ discovery_loop (Env0 := MoreFixtures.e_same) 2
      (run_csmith (Env0 := MoreFixtures.e_same) "csmith") TestEnv.test_config
      (csmith TestEnv.test_config) TestEnv.test_scenario 0 TestEnv.empty_world
    = discovery_loop (Env0 := MoreFixtures.e_same) 1
        (run_csmith (Env0 := MoreFixtures.e_same) "csmith") TestEnv.test_config
        (csmith TestEnv.test_config) TestEnv.test_scenario (0 + 1)
        Fixtures.w_closed.
Proof.
  assert (Hgen : generate_file (Env0 := MoreFixtures.e_same) 1
            (run_csmith (Env0 := MoreFixtures.e_same) "csmith")
            TestEnv.test_config (csmith TestEnv.test_config) ""
            TestEnv.empty_world
          = (Return ("DCEMarker", Fixtures.instrumented), Fixtures.w_closed))
    by (vm_compute; reflexivity).
  split; [exact Hgen|].
  apply (round_without_tentative_case (Env0 := MoreFixtures.e_same) 1
           (run_csmith (Env0 := MoreFixtures.e_same) "csmith")
           TestEnv.test_config (csmith TestEnv.test_config)
           TestEnv.test_scenario 0 TestEnv.empty_world Fixtures.w_closed
           Fixtures.w_closed "DCEMarker" Fixtures.instrumented
           [(TestEnv.A_O2, Fixtures.both_alive)]
           [(TestEnv.B_O3, Fixtures.both_alive);
            (TestEnv.B_O2, Fixtures.both_alive)] Hgen).
  - reflexivity.
  - intros m (bad & S & Hin & HmS & Hop).
    apply list_elem_of_singleton in Hin. injection Hin as -> ->.
    cbn [good_for] in Hop.
    rewrite !(bool_decide_eq_false_2 (m ∉ Fixtures.both_alive)) in Hop
      by (intros Hn; now apply Hn).
    inversion Hop.
Defined.

Lemma no_case_without_divergence_at_tier_witness :
  find_alive (Env0 := MoreFixtures.e_same) Fixtures.instrumented "DCEMarker"
    TestEnv.test_scenario TestEnv.empty_world
  = (Return ([(TestEnv.A_O2, Fixtures.both_alive)],
             [(TestEnv.B_O3, Fixtures.both_alive);
              (TestEnv.B_O2, Fixtures.both_alive)]), TestEnv.empty_world)
  ∧ attempt (Env0 := MoreFixtures.e_same) Fixtures.instrumented "DCEMarker"
      TestEnv.test_scenario TestEnv.empty_world
    = (Return None, TestEnv.empty_world).
Proof.
  split; [reflexivity|].
  apply (no_case_without_divergence_at_tier (Env0 := MoreFixtures.e_same)
           Fixtures.instrumented "DCEMarker" TestEnv.test_scenario
           TestEnv.empty_world TestEnv.empty_world
           [(TestEnv.A_O2, Fixtures.both_alive)]
           [(TestEnv.B_O3, Fixtures.both_alive);
            (TestEnv.B_O2, Fixtures.both_alive)]); [reflexivity|].
  left. intros bad S m Hin HmS g G HgG.
  apply list_elem_of_singleton in Hin. injection Hin as -> ->.
  apply elem_of_cons in HgG as [[= -> ->]|HgG]; [exact HmS|].
  apply list_elem_of_singleton in HgG. injection HgG as -> ->. exact HmS.
Defined.

Lemma accepted_divergence_is_returned_witness :
  generate_file (Env0 := Fixtures.e_accept) 1
    (run_csmith (Env0 := Fixtures.e_accept) "csmith") TestEnv.test_config
    (csmith TestEnv.test_config) "" TestEnv.empty_world
  = (Return ("DCEMarker", Fixtures.instrumented), Fixtures.w_closed)
  ∧ find_alive (Env0 := Fixtures.e_accept) Fixtures.instrumented "DCEMarker"
      TestEnv.test_scenario Fixtures.w_closed
    = (Return (MoreFixtures.test_tl, MoreFixtures.test_al), Fixtures.w_closed)
  ∧ tentative_for MoreFixtures.test_tl MoreFixtures.test_al "DCEMarker7_"
  ∧ ∃ c w',
      discovery_loop (Env0 := Fixtures.e_accept) 2
        (run_csmith (Env0 := Fixtures.e_accept) "csmith") TestEnv.test_config
        (csmith TestEnv.test_config) TestEnv.test_scenario 0
        TestEnv.empty_world
      = (Return c, w')
      ∧ code c = Fixtures.instrumented ∧ scenario c = TestEnv.test_scenario.
Proof.
  assert (Hgen : generate_file (Env0 := Fixtures.e_accept) 1
            (run_csmith (Env0 := Fixtures.e_accept) "csmith")
            TestEnv.test_config (csmith TestEnv.test_config) ""
            TestEnv.empty_world
          = (Return ("DCEMarker", Fixtures.instrumented), Fixtures.w_closed))
    by (vm_compute; reflexivity).
  assert (Hfa : find_alive (Env0 := Fixtures.e_accept) Fixtures.instrumented
            "DCEMarker" TestEnv.test_scenario Fixtures.w_closed
          = (Return (MoreFixtures.test_tl, MoreFixtures.test_al),
             Fixtures.w_closed))
    by reflexivity.
  assert (Htent : tentative_for MoreFixtures.test_tl MoreFixtures.test_al
                    "DCEMarker7_").
  { exists TestEnv.A_O2, Fixtures.both_alive. split; [left|].
    split; apply (bool_decide_eq_true_1 _); vm_compute; reflexivity. }
  split; [exact Hgen|]. split; [exact Hfa|]. split; [exact Htent|].
  apply (accepted_divergence_is_returned (Env0 := Fixtures.e_accept) 1
           (run_csmith (Env0 := Fixtures.e_accept) "csmith")
           TestEnv.test_config (csmith TestEnv.test_config)
           TestEnv.test_scenario 0 TestEnv.empty_world Fixtures.w_closed
           Fixtures.w_closed "DCEMarker" Fixtures.instrumented
           MoreFixtures.test_tl MoreFixtures.test_al "DCEMarker7_").
  - intros c w. exists w. reflexivity.
  - intros X m. apply elem_of_elements.
  - exact Hgen.
  - exact Hfa.
  - exact Htent.
Defined.

Lemma discovery_other_exceptions_leave_witness :
  (generate_file (Env0 := MoreFixtures.e_crash_builder) 1
     (run_csmith (Env0 := MoreFixtures.e_crash_builder) "csmith")
     TestEnv.test_config (csmith TestEnv.test_config) "" TestEnv.empty_world
   = (Return ("DCEMarker", Fixtures.instrumented), Fixtures.w_closed)
   ∧ find_alive (Env0 := MoreFixtures.e_crash_builder) Fixtures.instrumented
       "DCEMarker" TestEnv.test_scenario Fixtures.w_closed
     = (Raised (OSError "cc1 crashed"), Fixtures.w_closed)
   ∧ discovery_loop (Env0 := MoreFixtures.e_crash_builder) 2
       (run_csmith (Env0 := MoreFixtures.e_crash_builder) "csmith")
       TestEnv.test_config (csmith TestEnv.test_config)
       TestEnv.test_scenario 0 TestEnv.empty_world
     = (Raised (OSError "cc1 crashed"), Fixtures.w_closed))
  ∧ (is_interesting (Env := MoreFixtures.e_crash_checker)
       (Fixtures.tentative TestEnv.A_O2) Fixtures.w_closed
     = (Raise (OSError "out of memory"), Fixtures.w_closed)
     ∧ discovery_loop (Env0 := MoreFixtures.e_crash_checker) 2
         (run_csmith (Env0 := MoreFixtures.e_crash_checker) "csmith")
         TestEnv.test_config (csmith TestEnv.test_config)
         TestEnv.test_scenario 0 TestEnv.empty_world
       = (Raised (OSError "out of memory"), Fixtures.w_closed)).
Proof.
  split.
  - assert (Hgen : generate_file (Env0 := MoreFixtures.e_crash_builder) 1
              (run_csmith (Env0 := MoreFixtures.e_crash_builder) "csmith")
              TestEnv.test_config (csmith TestEnv.test_config) ""
              TestEnv.empty_world
            = (Return ("DCEMarker", Fixtures.instrumented), Fixtures.w_closed))
      by (vm_compute; reflexivity).
    split; [exact Hgen|]. split; [reflexivity|].
    assert (Hne : OSError "cc1 crashed" ≠ CompileError) by discriminate.
    exact (proj1 (proj2 (discovery_other_exceptions_leave
             (Env0 := MoreFixtures.e_crash_builder) 1
             (run_csmith (Env0 := MoreFixtures.e_crash_builder) "csmith")
             TestEnv.test_config (csmith TestEnv.test_config)
             TestEnv.test_scenario 0 TestEnv.empty_world
             (OSError "cc1 crashed") Hne))
           "DCEMarker" Fixtures.instrumented Fixtures.w_closed
           Fixtures.w_closed Hgen eq_refl).
  - assert (Hgen : generate_file (Env0 := MoreFixtures.e_crash_checker) 1
              (run_csmith (Env0 := MoreFixtures.e_crash_checker) "csmith")
              TestEnv.test_config (csmith TestEnv.test_config) ""
              TestEnv.empty_world
            = (Return ("DCEMarker", Fixtures.instrumented), Fixtures.w_closed))
      by (vm_compute; reflexivity).
    split; [reflexivity|].
    assert (Hne : OSError "out of memory" ≠ CompileError) by discriminate.
    apply (proj2 (proj2 (discovery_other_exceptions_leave
             (Env0 := MoreFixtures.e_crash_checker) 1
             (run_csmith (Env0 := MoreFixtures.e_crash_checker) "csmith")
             TestEnv.test_config (csmith TestEnv.test_config)
             TestEnv.test_scenario 0 TestEnv.empty_world
             (OSError "out of memory") Hne))
           "DCEMarker" Fixtures.instrumented Fixtures.w_closed
           MoreFixtures.test_tl MoreFixtures.test_al Fixtures.w_closed
           "DCEMarker7_" ["DCEMarker1_"] TestEnv.A_O2 Fixtures.both_alive []
           Fixtures.w_closed Hgen).
    + reflexivity.
    + vm_compute; reflexivity.
    + reflexivity.
    + apply (bool_decide_eq_true_1 _); vm_compute; reflexivity.
    + apply (bool_decide_eq_true_1 _); vm_compute; reflexivity.
    + reflexivity.
Defined.

Lemma no_settings_no_case_witness :
  target_settings
    (add_flags (Env := Fixtures.e_accept) MoreFixtures.no_targets
       (_get_runner_details (Env0 := Fixtures.e_accept) CSmithCaseGenerator
          TestEnv.test_config).2) = []
  ∧ ∀ c w',
      generate_interesting_case (Env0 := Fixtures.e_accept) 5
        CSmithCaseGenerator TestEnv.test_config MoreFixtures.no_targets
        TestEnv.empty_world ≠ (Return c, w').
Proof.
  split; [reflexivity|].
  apply (no_settings_no_case (Env0 := Fixtures.e_accept) 5
           CSmithCaseGenerator TestEnv.test_config MoreFixtures.no_targets
           TestEnv.empty_world).
  left. reflexivity.
Defined.

Lemma builder_asked_for_every_setting_witness :
  find_alive (Env0 := Fixtures.e_accept) Fixtures.instrumented "DCEMarker"
    TestEnv.test_scenario TestEnv.empty_world
  = (Return (MoreFixtures.test_tl, MoreFixtures.test_al), TestEnv.empty_world)
  ∧ MoreFixtures.test_tl.*1 = target_settings TestEnv.test_scenario
  ∧ MoreFixtures.test_al.*1 = attacker_settings TestEnv.test_scenario.
Proof.
  assert (Hfa : find_alive (Env0 := Fixtures.e_accept) Fixtures.instrumented
            "DCEMarker" TestEnv.test_scenario TestEnv.empty_world
          = (Return (MoreFixtures.test_tl, MoreFixtures.test_al),
             TestEnv.empty_world))
    by reflexivity.
  split; [exact Hfa|].
  destruct (builder_asked_for_every_setting (Env0 := Fixtures.e_accept)
              _ _ _ _ _ _ _ Hfa) as (Htl & Hal & _).
  split; [exact Htl | exact Hal].
Defined.

(** ** The orchestrator: queue, workers and signals over whole runs *)

Module OrchestratorRuns.
Import Orchestrator OrchestratorFixtures OrchestratorTraces OrchestratorFacts.

Lemma puts_snoc tr e :
  puts (tr ++ [e]) = puts tr ++ match e with EPut _ msg => [msg] | _ => [] end.
Proof. unfold puts. rewrite flat_map_app. simpl. now rewrite app_nil_r. Qed.

Lemma gets_snoc tr e :
  gets (tr ++ [e]) = gets tr ++ match e with EGet msg => [msg] | _ => [] end.
Proof. unfold gets. rewrite flat_map_app. simpl. now rewrite app_nil_r. Qed.

Lemma yields_snoc tr e :
  yields (tr ++ [e]) = yields tr ++ match e with EYield c => [c] | _ => [] end.
Proof. unfold yields. rewrite flat_map_app. simpl. now rewrite app_nil_r. Qed.

Lemma starts_snoc tr e :
  starts (tr ++ [e]) = starts tr ++ match e with EStart n => [n] | _ => [] end.
Proof. unfold starts. rewrite flat_map_app. simpl. now rewrite app_nil_r. Qed.

Lemma starts_snoc_other tr e :
  match e with EStart _ => False | _ => True end →
  starts (tr ++ [e]) = starts tr.
Proof. intros He. rewrite starts_snoc. destruct e; try done; apply app_nil_r. Qed.

Lemma os_kill_queue n sig w r w' :
  os_kill n sig w = (r, w') → queue w' = queue w.
Proof.
  unfold os_kill. destruct (table w !! n); now intros [= _ <-].
Qed.

Section AnyMode.
Variable start_stop : bool.
Variable decode : string → result Case.

Lemma fifo_inv_step w0 tr s e s' :
  fifo_inv decode w0 tr s → Orchestrator.step start_stop decode s e s' →
  fifo_inv decode w0 (tr ++ [e]) s'.
Proof.
  intros Hinv Hstep. unfold fifo_inv, pending in *.
  inversion Hstep; subst; cbn [at_pc os] in *; auto;
    rewrite ?puts_snoc, ?gets_snoc, ?yields_snoc, ?app_nil_r in *;
    cbn [with_queue with_table queue table] in *;
    try exact Hinv.
  - (* queue.get() *)
    match goal with Hq : queue _ = _ :: _, Hd : decode _ = Ok _ |- _ =>
      destruct Hinv as [Hq' Hd']; rewrite Hq in Hq'; split;
        [ now rewrite <- app_assoc
        | rewrite map_app, Hd', !map_app; simpl; now rewrite Hd ]
    end.
  - (* SIGSTOP *)
    match goal with Hk : os_kill _ _ _ = _ |- _ =>
      now rewrite (os_kill_queue _ _ _ _ _ Hk) end.
  - (* SIGCONT *)
    match goal with Hk : os_kill _ _ _ = _ |- _ =>
      now rewrite (os_kill_queue _ _ _ _ _ Hk) end.
  - (* queue.put() *)
    destruct a; auto; destruct Hinv as [Hq' Hd'];
      (split; [now rewrite !app_assoc, Hq' | exact Hd']).
Qed.

Lemma fifo_inv_exec w0 processes tr s :
  Orchestrator.exec start_stop decode (init w0 processes) tr s →
  fifo_inv decode w0 tr s.
Proof.
  induction 1 as [|tr s e s' _ IH Hstep].
  - unfold fifo_inv. simpl. now rewrite app_nil_r.
  - eapply fifo_inv_step; eauto.
Qed.

End AnyMode.

Lemma started_inv_keep processes tr s e s' :
  started_inv processes tr s →
  starts (tr ++ [e]) = starts tr →
  procs s' = procs s →
  (∀ n, is_Some (table (os s) !! n) → is_Some (table (os s') !! n)) →
  match at_pc s' with
  | AtStart i => i = length (starts tr)
  | Crashed _ => True
  | _ => length (starts tr) = processes
  end →
  started_inv processes (tr ++ [e]) s'.
Proof.
  intros (Hps & Hle & Hnd & Htab & _) Hst Hprocs Hkeep Hpc.
  unfold started_inv. rewrite Hst, Hprocs. auto 10.
Qed.

Lemma started_inv_step start_stop decode processes tr s e s' :
  started_inv processes tr s → Orchestrator.step start_stop decode s e s' →
  started_inv processes (tr ++ [e]) s'.
Proof.
  intros Hinv Hstep.
  pose proof Hinv as (Hps & Hle & Hnd & Htab & Hpc).
  inversion Hstep as
    [ w ps i p n Hi Hfree | | w ps i Hi | | | | w w' ps c p rest n Hp Hk
    | w w' ps c p rest n ex Hp Hk | |
    | | w w' ps p rest n Hp Hk | w w' ps p rest n ex Hp Hk |
    | w ps a p n msg Hin Hp Hrun | w ps a p n Hin Hp Hrun ];
    subst; cbn [at_pc os procs] in *.
  - (* p.start() *)
    assert (Hlt : (length (starts tr) < processes)%nat).
    { apply lookup_lt_Some in Hi. rewrite Hps in Hi.
      rewrite length_app, length_map, length_replicate in Hi. lia. }
    unfold started_inv. rewrite starts_snoc, length_app. simpl.
    split_and!.
    + rewrite Hps, map_app. simpl.
      rewrite insert_app_r_alt by (rewrite length_map; lia).
      rewrite length_map, Hpc, Nat.sub_diag.
      replace (processes - length (starts tr))%nat
        with (S (processes - (length (starts tr) + 1))) by lia.
      simpl. now rewrite <- app_assoc.
    + lia.
    + apply NoDup_app. split_and!; [exact Hnd| |apply NoDup_singleton].
      intros m Hm Hm'. apply list_elem_of_singleton in Hm' as ->.
      destruct (Htab n Hm) as [st Hst]. congruence.
    + intros m Hm. apply lookup_insert_is_Some.
      apply elem_of_app in Hm as [Hm|Hm].
      * destruct (decide (n = m)); auto.
      * apply list_elem_of_singleton in Hm. auto.
    + lia.
  - apply (started_inv_keep _ _ _ _ _ Hinv); [apply starts_snoc_other| | |];
      simpl; auto using app_nil_r.
  - (* the start loop is done *)
    apply (started_inv_keep _ _ _ _ _ Hinv); [apply starts_snoc_other| | |];
      simpl; auto using app_nil_r.
    apply lookup_ge_None in Hi. rewrite Hps in Hi.
    rewrite length_app, length_map, length_replicate in Hi. lia.
  - apply (started_inv_keep _ _ _ _ _ Hinv); [apply starts_snoc_other| | |];
      simpl; auto.
  - apply (started_inv_keep _ _ _ _ _ Hinv); [apply starts_snoc_other| | |];
      simpl; auto.
  - apply (started_inv_keep _ _ _ _ _ Hinv); [apply starts_snoc_other| | |];
      simpl; auto.
  - apply (started_inv_keep _ _ _ _ _ Hinv); [apply starts_snoc_other| | |];
      simpl; auto.
    intros m. now apply os_kill_keeps_entries with n SIGSTOP.
  - apply (started_inv_keep _ _ _ _ _ Hinv); [apply starts_snoc_other| | |];
      simpl; auto.
    apply os_kill_Raised_inv in Hk as ->. auto.
  - apply (started_inv_keep _ _ _ _ _ Hinv); [apply starts_snoc_other| | |];
      simpl; auto.
  - apply (started_inv_keep _ _ _ _ _ Hinv); [apply starts_snoc_other| | |];
      simpl; auto.
  - apply (started_inv_keep _ _ _ _ _ Hinv); [apply starts_snoc_other| | |];
      simpl; auto.
  - apply (started_inv_keep _ _ _ _ _ Hinv); [apply starts_snoc_other| | |];
      simpl; auto.
    intros m. now apply os_kill_keeps_entries with n SIGCONT.
  - apply (started_inv_keep _ _ _ _ _ Hinv); [apply starts_snoc_other| | |];
      simpl; auto.
    apply os_kill_Raised_inv in Hk as ->. auto.
  - apply (started_inv_keep _ _ _ _ _ Hinv); [apply starts_snoc_other| | |];
      simpl; auto.
  - apply (started_inv_keep _ _ _ _ _ Hinv); [apply starts_snoc_other| | |];
      simpl; auto.
  - apply (started_inv_keep _ _ _ _ _ Hinv); [apply starts_snoc_other| | |];
      simpl; auto.
    intros m Hm. apply lookup_insert_is_Some.
    destruct (decide (n = m)); auto.
Qed.

Lemma started_inv_exec start_stop decode w0 processes tr s :
  Orchestrator.exec start_stop decode (init w0 processes) tr s →
  started_inv processes tr s.
Proof.
  induction 1 as [|tr s e s' _ IH Hstep].
  - unfold started_inv, init. simpl. rewrite Nat.sub_0_r.
    split_and!; auto; [lia | constructor | intros n Hn; inversion Hn].
  - eapply started_inv_step; eauto.
Qed.

(** X18: the process table of the orchestrator.  In every run of
    [parallel_interesting_case], [self.procs] has [processes] entries; the
    workers that were started are its first entries, in the order of
    their start, with pairwise distinct pids; and once the generator is
    past its start loop (it waits for a case, stops or continues its
    workers, or is suspended at [yield]) every one of the [processes]
    workers has been started, each of them once. *)
Theorem workers_started_once (start_stop : bool)
    (decode : string → result Case) (w0 : OS) (processes : nat)
    (tr : list event) (s : Sys) :
  Orchestrator.exec start_stop decode (init w0 processes) tr s →
  length (procs s) = processes
  ∧ omap pid (procs s) = starts tr
  ∧ NoDup (starts tr)
  ∧ (serving s →
     length (starts tr) = processes
     ∧ procs s = map (λ n, {| pid := Some n |}) (starts tr)
     ∧ all_started s).
Proof.
  intros Hexec.
  apply started_inv_exec in Hexec as (Hps & Hle & Hnd & _ & Hpc).
  assert (Homap : ∀ l k, omap pid (map (λ n, {| pid := Some n |}) l
                                  ++ replicate k {| pid := None |}) = l).
  { intros l k. rewrite omap_app.
    assert (omap pid (replicate k {| pid := None |}) = []) as ->
      by (induction k; auto).
    rewrite app_nil_r. induction l as [|a l IH]; [reflexivity|].
    simpl. f_equal. exact IH. }
  split_and!.
  - rewrite Hps, length_app, length_map, length_replicate. lia.
  - rewrite Hps. apply Homap.
  - exact Hnd.
  - intros Hserv. unfold serving in Hserv.
    assert (Hlen : length (starts tr) = processes)
      by (destruct (at_pc s); tauto).
    rewrite Hlen, Nat.sub_diag in Hps. simpl in Hps. rewrite app_nil_r in Hps.
    split_and!; auto.
    intros p Hp. rewrite Hps in Hp.
    apply list_elem_of_fmap in Hp as (n & -> & _). simpl. eauto.
Qed.

(** X19: the queue is first in, first out, and nothing is lost between a
    worker and the consumer.  In every run in which the generator has not
    been left by an exception, the messages that were on the queue or were
    put on it by the workers are, in this order, the messages the generator
    took followed by those still on the queue; and the cases delivered,
    followed by the one that is taken and not delivered yet, are the
    decodings of the messages taken, one for each and in the same order. *)
Theorem cases_delivered_in_queue_order (start_stop : bool)
    (decode : string → result Case) (w0 : OS) (processes : nat)
    (tr : list event) (s : Sys) :
  Orchestrator.exec start_stop decode (init w0 processes) tr s →
  ¬ crashed s →
  queue w0 ++ puts tr = gets tr ++ queue (os s)
  ∧ map decode (gets tr) = map Ok (yields tr ++ pending s)
  ∧ (∀ c, at_pc s = AtYield c →
       ∃ cs msgs msg, yields tr = cs ++ [c] ∧ gets tr = msgs ++ [msg]
                      ∧ decode msg = Ok c).
Proof.
  intros Hexec Hnc.
  pose proof (fifo_inv_exec start_stop decode _ _ _ _ Hexec) as Hinv.
  unfold fifo_inv in Hinv.
  assert (Hboth : queue w0 ++ puts tr = gets tr ++ queue (os s)
                  ∧ map decode (gets tr) = map Ok (yields tr ++ pending s)).
  { destruct (at_pc s) eqn:Hpc; auto. destruct Hnc. now exists e. }
  destruct Hboth as [Hq Hd]. split_and!; auto.
  intros c Hc.
  assert (Hlast : ∃ cs, yields tr = cs ++ [c]).
  { clear Hq Hd Hinv Hnc. revert c Hc.
    induction Hexec as [|tr s e s' Hexec IH Hstep]; intros c Hc.
    - discriminate.
    - inversion Hstep; subst; cbn [at_pc] in *; try discriminate;
        rewrite yields_snoc.
      + injection Hc as <-. eauto.
      + subst. destruct (IH c eq_refl) as [cs Hcs].
        exists cs. now rewrite app_nil_r.
      + subst. destruct (IH c eq_refl) as [cs Hcs].
        exists cs. now rewrite app_nil_r. }
  destruct Hlast as [cs Hcs]. unfold pending in Hd. rewrite Hc in Hd.
  rewrite app_nil_r, Hcs, map_app in Hd. simpl in Hd.
  clear Hinv Hq.
  destruct (gets tr) as [|m0 ms _] using rev_ind.
  - simpl in Hd. now destruct (map Ok cs).
  - rewrite map_app in Hd. simpl in Hd.
    apply app_inj_tail in Hd as [_ Hd]. exists cs, ms, m0. auto.
Qed.

(** X20: the signals the orchestrator sends.  In every run the signals
    the system has received from it are those of its [os.kill] calls, in
    order; without start/stop mode there is none: the workers are never
    stopped and never continued. *)
Theorem no_signals_without_start_stop (decode : string → result Case)
    (w0 : OS) (processes : nat) (tr : list event) (s : Sys) :
  Orchestrator.exec false decode (init w0 processes) tr s →
  sent tr = [] ∧ signals (os s) = signals w0.
Proof.
  intros Hexec.
  assert (Hsent : sent tr = []).
  { induction Hexec as [|tr s e s' Hexec IH Hstep]; [reflexivity|].
    rewrite sent_snoc, IH.
    pose proof (signal_inv_exec false decode _ _ _ _ Hexec) as [_ Hrest].
    specialize (Hrest eq_refl).
    inversion Hstep; subst; cbn [at_pc] in *; try reflexivity;
      discriminate. }
  split; [exact Hsent|].
  destruct (signal_inv_exec false decode _ _ _ _ Hexec) as [Hsig _].
  now rewrite Hsig, Hsent, app_nil_r.
Qed.

(** X21: the generator does not look after its workers (the source has a
    note to handle process failure).  When it waits at [queue.get()], the
    queue is empty and no worker is running any more, the system has no
    step left: the consumer waits for ever. *)
Theorem orchestrator_waits_for_dead_workers (start_stop : bool)
    (decode : string → result Case) (s : Sys) :
  at_pc s = AtGet →
  queue (os s) = [] →
  (∀ p n, p ∈ procs s → pid p = Some n →
          table (os s) !! n ≠ Some Running) →
  ∀ e s', ¬ Orchestrator.step start_stop decode s e s'.
Proof.
  intros Hpc Hq Hdead e s' Hstep.
  destruct s as [w ps a]. simpl in *. subst a.
  inversion Hstep; subst; try congruence.
  - eapply Hdead; eauto.
  - eapply Hdead; eauto.
Qed.

Lemma terminate_processes_app a b w :
  terminate_processes (a ++ b) w
  = bind (terminate_processes a) (λ _, terminate_processes b) w.
Proof.
  revert w. induction a as [|p a IH]; intros w; simpl.
  - reflexivity.
  - destruct (pid p) as [n|]; [|apply IH].
    unfold bind.
    destruct (os_kill n SIGCONT w) as [[[]|e|] w1]; try reflexivity.
    destruct (Process_terminate n w1) as [[[]|e|] w2]; try reflexivity.
    now rewrite IH.
Qed.

(** X22: [terminate_processes] guards the SIGTERM of [terminate()] but not
    its own SIGCONT.  If one of the workers with a pid has no process any
    more while those before it in [self.procs] have, the call is left by
    [ProcessLookupError] at that worker: the workers before it have been
    ended, and no signal is sent to the workers after it. *)
Theorem terminate_processes_stops_at_missing_process
    (pre post : list Process) (p : Process) (n : Z) (w : OS) :
  (∀ q m, q ∈ pre → pid q = Some m → is_Some (table w !! m)) →
  pid p = Some n →
  table w !! n = None →
  ∃ w', terminate_processes (pre ++ p :: post) w
        = (Raised ProcessLookupError, w')
        ∧ signals w' = signals w ++ terminate_signals pre
        ∧ (∀ q m, q ∈ pre → pid q = Some m → table w' !! m = Some Exited)
        ∧ (∀ m, (∀ q, q ∈ pre → pid q ≠ Some m) →
                table w' !! m = table w !! m).
Proof.
  intros Hpre Hp Hn.
  assert (Hrun : ∃ w', terminate_processes pre w = (Return tt, w')
            ∧ signals w' = signals w ++ terminate_signals pre
            ∧ (∀ q m, q ∈ pre → pid q = Some m → table w' !! m = Some Exited)
            ∧ (∀ m, (∀ q, q ∈ pre → pid q ≠ Some m) →
                    table w' !! m = table w !! m)).
  { clear Hp Hn. revert w Hpre.
    induction pre as [|q pre IH]; intros w Hpre.
    - exists w. simpl. rewrite app_nil_r. split_and!; auto.
      intros q m Hq. inversion Hq.
    - simpl. unfold terminate_signals. simpl. fold (terminate_signals pre).
      destruct (pid q) as [k|] eqn:Hk.
      + destruct (Hpre q k) as [st Hst]; [left | assumption |].
        pose proof (cont_terminate_one k w st Hst) as Hone.
        unfold bind in Hone |- *.
        destruct (os_kill k SIGCONT w) as [[[]|e|] w1]; try discriminate.
        rewrite Hone. clear Hone.
        set (w2 := {| table := <[k := Exited]> (table w); queue := queue w;
                      signals := signals w ++ [(k, SIGCONT); (k, SIGTERM)] |}).
        destruct (IH w2) as (w' & Hrun & Hsig & Hall & Hother).
        { intros q' m Hq' Hm. simpl. apply lookup_insert_is_Some.
          destruct (decide (k = m)); [now left | right].
          split; [done|]. apply (Hpre q' m); [now right | done]. }
        exists w'. split_and!; auto.
        * rewrite Hsig. simpl. now rewrite <- app_assoc.
        * intros q' m Hq' Hm.
          apply elem_of_cons in Hq' as [->|Hq']; [|eauto].
          rewrite Hk in Hm. injection Hm as <-.
          destruct (decide (Some k ∈ map pid pre)) as [Hsome|Hnone].
          { apply list_elem_of_fmap in Hsome as (q'' & Hpid & Hin). eauto. }
          rewrite Hother; [apply lookup_insert_eq|].
          intros q'' Hin Hpid. apply Hnone.
          apply list_elem_of_fmap. eauto.
        * intros m Hm. rewrite Hother.
          -- simpl. apply lookup_insert_ne. intros ->.
             apply (Hm q); [left | done].
          -- intros q' Hq'. apply Hm. now right.
      + destruct (IH w) as (w' & Hrun & Hsig & Hall & Hother).
        { intros q' m Hq' Hm. apply (Hpre q' m); [now right | done]. }
        exists w'. split_and!; auto.
        * intros q' m Hq' Hm.
          apply elem_of_cons in Hq' as [->|Hq']; [congruence | eauto].
        * intros m Hm. apply Hother. intros q' Hq'. apply Hm. now right. }
  destruct Hrun as (w' & Hrun & Hsig & Hall & Hother).
  exists w'. split_and!; auto.
  rewrite terminate_processes_app, (bind_Return _ _ _ _ _ Hrun).
  simpl. rewrite Hp.
  assert (Hgone : table w' !! n = None).
  { destruct (decide (Some n ∈ map pid pre)) as [Hsome|Hnone].
    - apply list_elem_of_fmap in Hsome as (q & Hpid & Hin).
      destruct (Hpre q n Hin (eq_sym Hpid)) as [st Hst]. congruence.
    - rewrite Hother; [exact Hn|]. intros q Hin Hpid. apply Hnone.
      apply list_elem_of_fmap. eauto. }
  apply bind_Raised. unfold os_kill. now rewrite Hgone.
Qed.

Lemma run_free_exec :
  Orchestrator.exec false test_decode (init w_boot 1) run_free s_free.
Proof.
  unfold run_free, init. simpl replicate.
  eapply exec_cons.
  { apply (step_start _ _ _ _ 0%nat {| pid := None |} 101); reflexivity. }
  eapply exec_cons; [apply step_started; reflexivity|].
  eapply exec_cons.
  { apply (step_put _ _ _ _ _ (worker 101) 101 "case 1");
      [set_solver | reflexivity | reflexivity]. }
  eapply exec_cons.
  { apply (step_get _ _ _ _ "case 1" []); reflexivity. }
  eapply exec_cons; [apply step_yield|].
  eapply exec_cons.
  { apply (step_put _ _ _ _ _ (worker 101) 101 "case 2");
      [set_solver | reflexivity | reflexivity]. }
  apply exec_nil.
Defined.

Lemma run_orphaned_exec :
  Orchestrator.exec true test_decode (init w_boot 1) run_orphaned s_orphaned.
Proof.
  unfold run_orphaned, init. simpl replicate.
  eapply exec_cons.
  { apply (step_start _ _ _ _ 0%nat {| pid := None |} 101); reflexivity. }
  eapply exec_cons; [apply step_started; reflexivity|].
  eapply exec_cons.
  { apply (step_exit _ _ _ _ _ (worker 101) 101);
      [set_solver | reflexivity | reflexivity]. }
  apply exec_nil.
Defined.

Lemma workers_started_once_witness :
  Orchestrator.exec true test_decode (init w_boot 2) run_to_yield s_yield
  ∧ length (procs s_yield) = 2%nat
  ∧ omap pid (procs s_yield) = starts run_to_yield
  ∧ NoDup (starts run_to_yield)
  ∧ (serving s_yield →
     length (starts run_to_yield) = 2%nat
     ∧ procs s_yield = map (λ n, {| pid := Some n |}) (starts run_to_yield)
     ∧ all_started s_yield).
Proof.
  split; [exact run_to_yield_exec|].
  exact (workers_started_once true test_decode w_boot 2 run_to_yield s_yield
           run_to_yield_exec).
Defined.

Lemma cases_delivered_in_queue_order_witness :
  Orchestrator.exec true test_decode (init w_boot 2) run_to_yield s_yield
  ∧ ¬ crashed s_yield
  ∧ queue w_boot ++ puts run_to_yield
    = gets run_to_yield ++ queue (os s_yield)
  ∧ map test_decode (gets run_to_yield)
    = map Ok (yields run_to_yield ++ pending s_yield).
Proof.
  assert (Hnc : ¬ crashed s_yield) by (intros [e He]; discriminate).
  split; [exact run_to_yield_exec|]. split; [exact Hnc|].
  destruct (cases_delivered_in_queue_order true test_decode w_boot 2
              run_to_yield s_yield run_to_yield_exec Hnc) as (Hq & Hd & _).
  split; [exact Hq | exact Hd].
Defined.

Lemma no_signals_without_start_stop_witness :
  Orchestrator.exec false test_decode (init w_boot 1) run_free s_free
  ∧ sent run_free = []
  ∧ signals (os s_free) = signals w_boot.
Proof.
  split; [exact run_free_exec|].
  exact (no_signals_without_start_stop test_decode w_boot 1 run_free s_free
           run_free_exec).
Defined.

Lemma orchestrator_waits_for_dead_workers_witness :
  Orchestrator.exec true test_decode (init w_boot 1) run_orphaned s_orphaned
  ∧ at_pc s_orphaned = AtGet
  ∧ queue (os s_orphaned) = []
  ∧ ∀ e s', ¬ Orchestrator.step true test_decode s_orphaned e s'.
Proof.
  split; [exact run_orphaned_exec|]. split; [reflexivity|].
  split; [reflexivity|].
  apply (orchestrator_waits_for_dead_workers true test_decode s_orphaned);
    [reflexivity | reflexivity |].
  intros p n Hp Hn. apply list_elem_of_singleton in Hp as ->.
  injection Hn as <-. discriminate.
Defined.

Lemma terminate_processes_stops_at_missing_process_witness :
  table w_reaped !! 102 = None
  ∧ ∃ w', terminate_processes procs_reaped w_reaped
          = (Raised ProcessLookupError, w')
          ∧ signals w' = [(101, SIGCONT); (101, SIGTERM)]
          ∧ table w' !! 101 = Some Exited
          ∧ table w' !! 103 = Some Running.
Proof.
  split; [reflexivity|].
  destruct (terminate_processes_stops_at_missing_process
              [worker 101] [worker 103] (worker 102) 102 w_reaped)
    as (w' & Hrun & Hsig & Hall & Hother).
  - intros q m Hq Hm. apply list_elem_of_singleton in Hq as ->.
    injection Hm as <-. eexists. reflexivity.
  - reflexivity.
  - reflexivity.
  - exists w'. split; [exact Hrun|]. split; [exact Hsig|]. split.
    + apply (Hall (worker 101) 101); [left | reflexivity].
    + rewrite (Hother 103); [reflexivity|].
      intros q Hq. apply list_elem_of_singleton in Hq as ->. discriminate.
Defined.

End OrchestratorRuns.

(** ** The files of the cases *)

Section FileNames.
Import DecimalString.

Lemma read_nat_zeros_digits (k : nat) (n : N) :
  read_nat (zeros k +:+ digits n) = Some n.
Proof.
  unfold read_nat, digits. induction k as [|k IH].
  - simpl zeros. rewrite str_app_nil_l, NilEmpty.usu. simpl.
    now rewrite DecimalN.Unsigned.of_to.
  - simpl zeros. rewrite str_app_cons.
    cbn [NilEmpty.uint_of_string].
    destruct (NilEmpty.uint_of_string
                (zeros k +:+ NilEmpty.string_of_uint (N.to_uint n)))
      as [d|]; [|discriminate].
    simpl in *. exact IH.
Qed.

(** A string of digits ends where the first other character stands. *)
Lemma digits_then_other (a b r1 r2 : string) (c : ascii) :
  uint_of_char c (Some Decimal.Nil) = None →
  is_Some (read_nat a) → is_Some (read_nat b) →
  a +:+ String c r1 = b +:+ String c r2 →
  a = b ∧ r1 = r2.
Proof.
  intros Hc. unfold read_nat.
  assert (Hnot : ∀ s, ¬ is_Some (option_map N.of_uint
                                   (NilEmpty.uint_of_string (String c s)))).
  { intros s [x Hx]. cbn [NilEmpty.uint_of_string] in Hx.
    destruct (NilEmpty.uint_of_string s) as [d|]; [|discriminate].
    assert (uint_of_char c (Some d) = None) as Hd; [|now rewrite Hd in Hx].
    revert Hc. unfold uint_of_char.
    destruct c as [[|] [|] [|] [|] [|] [|] [|] [|]]; auto; discriminate. }
  revert b. induction a as [|x a IH]; intros [|y b] Ha Hb Heq.
  - rewrite !str_app_nil_l in Heq. now injection Heq as ->.
  - rewrite str_app_nil_l, str_app_cons in Heq. injection Heq as <- _.
    now destruct (Hnot b).
  - rewrite str_app_nil_l, str_app_cons in Heq. injection Heq as -> _.
    now destruct (Hnot a).
  - rewrite !str_app_cons in Heq. injection Heq as -> Heq.
    destruct (IH b) as [-> ->]; auto.
    + destruct Ha as [n Hn]. cbn [NilEmpty.uint_of_string] in Hn.
      destruct (NilEmpty.uint_of_string a); [eexists; reflexivity|].
      discriminate.
    + destruct Hb as [n Hn]. cbn [NilEmpty.uint_of_string] in Hn.
      destruct (NilEmpty.uint_of_string b); [eexists; reflexivity|].
      discriminate.
Qed.

Lemma format_int_nonneg (width : nat) (n : Z) :
  0 ≤ n →
  ∃ k, format_int width n = zeros k +:+ digits (Z.to_N n).
Proof.
  intros Hn. unfold format_int.
  destruct (Z.ltb_spec n 0); [lia|]. eauto.
Qed.

Lemma case_file_name_inj (c1 c2 h1 h2 : Z) :
  0 ≤ c1 → 0 ≤ c2 → 0 ≤ h1 → 0 ≤ h2 →
  case_file_name c1 h1 = case_file_name c2 h2 →
  c1 = c2 ∧ h1 = h2.
Proof.
  intros Hc1 Hc2 Hh1 Hh2. unfold case_file_name.
  destruct (format_int_nonneg 8 c1 Hc1) as [k1 ->].
  destruct (format_int_nonneg 8 c2 Hc2) as [k2 ->].
  destruct (format_int_nonneg 19 h1 Hh1) as [j1 ->].
  destruct (format_int_nonneg 19 h2 Hh2) as [j2 ->].
  intros Heq. apply (inj (String.app "case_")) in Heq.
  assert (Hread : ∀ k n, is_Some (read_nat (zeros k +:+ digits n)))
    by (intros; rewrite read_nat_zeros_digits; eauto).
  destruct (digits_then_other
              (zeros k1 +:+ digits (Z.to_N c1)) (zeros k2 +:+ digits (Z.to_N c2))
              ((zeros j1 +:+ digits (Z.to_N h1)) +:+ ".tar")
              ((zeros j2 +:+ digits (Z.to_N h2)) +:+ ".tar")
              "-"%char eq_refl (Hread _ _) (Hread _ _) Heq) as [Hc Hh].
  destruct (digits_then_other
              (zeros j1 +:+ digits (Z.to_N h1)) (zeros j2 +:+ digits (Z.to_N h2))
              "tar" "tar" "."%char eq_refl (Hread _ _) (Hread _ _) Hh)
    as [Hh' _].
  clear Hh. rename Hh' into Hh.
  apply (f_equal read_nat) in Hc, Hh.
  rewrite !read_nat_zeros_digits in Hc, Hh.
  injection Hc as Hc. injection Hh as Hh. lia.
Qed.

Lemma pjoin_relative_inj (d a b : string) :
  String.prefix "/" a = false → String.prefix "/" b = false →
  pjoin d a = pjoin d b → a = b.
Proof.
  unfold pjoin. intros -> ->.
  destruct ((String.length d =? 0)%nat || ends_with_slash d); intros Heq.
  - now apply (inj (String.app d)) in Heq.
  - apply (inj (String.app d)) in Heq. now apply (inj (String.app "/")) in Heq.
Qed.

Lemma case_file_name_relative (c h : Z) :
  String.prefix "/" (case_file_name c h) = false.
Proof. reflexivity. Qed.

(** X23: the path of a case file names its counter.  Two paths that
    [parallel_interesting_case_file] builds in one output directory are
    equal only if their counters are equal, and then the hashes of their
    cases are equal up to sign; so paths with different counters are
    different, whatever the hashes are and however many digits the numbers
    have. *)
Theorem case_path_names_counter (d : string) (c1 c2 h1 h2 : Z) :
  0 ≤ c1 → 0 ≤ c2 →
  pjoin d (case_file_name c1 (Z.max h1 (- h1)))
  = pjoin d (case_file_name c2 (Z.max h2 (- h2))) →
  c1 = c2 ∧ Z.abs h1 = Z.abs h2.
Proof.
  intros Hc1 Hc2 Heq.
  apply pjoin_relative_inj in Heq; try apply case_file_name_relative.
  apply case_file_name_inj in Heq as [-> Hh]; lia.
Qed.

Lemma case_file_loop_Return `{!FileEnv W} d counter cases (w : W) paths w' :
  case_file_loop d counter cases w = (Return paths, w') →
  length paths = length cases
  ∧ ∀ i c, cases !! i = Some c →
      paths !! i
      = Some (pjoin d (case_file_name (counter + Z.of_nat i)
                         (Z.abs (hash_str c))))
      ∧ ∃ wa wb,
          to_file c (pjoin d (case_file_name (counter + Z.of_nat i)
                                (Z.abs (hash_str c)))) wa
          = (Ok tt, wb).
Proof.
  revert counter w paths.
  induction cases as [|c0 cases IH]; intros counter w paths; simpl.
  - intros [= <- _]. split; [reflexivity|]. intros i c Hi. discriminate.
  - intros Hb. apply bind_Return_inv in Hb as (p0 & w1 & Hw & Hb).
    apply bind_Return_inv in Hb as (ps & w2 & Hrest & [= <- <-]).
    apply IH in Hrest as [Hlen Hall].
    unfold write_case in Hw.
    apply bind_Return_inv in Hw as ([] & w3 & Hcall & [= <- <-]).
    apply call_Return_inv in Hcall.
    assert (Habs : ∀ h, Z.max h (- h) = Z.abs h) by (intros; lia).
    rewrite Habs in *.
    split; [simpl; now rewrite Hlen|].
    intros [|i] c Hi; simpl in Hi.
    + injection Hi as <-. rewrite Z.add_0_r. split; [reflexivity | eauto].
    + destruct (Hall i c Hi) as [Hp Hto].
      replace (counter + Z.of_nat (S i)) with (counter + 1 + Z.of_nat i) by lia.
      split; [exact Hp | exact Hto].
Qed.

(** X24: the files of a run.  When [parallel_interesting_case_file] has
    yielded a path for each of the cases that the inner generator gave,
    the path of the case at position [i] is the file name with counter [i]
    and the absolute value of the hash of the case, in the output
    directory, the case was written there with [to_file], and no two of
    the paths are equal: no case file of the run is overwritten by a later
    one. *)
Theorem case_files_numbered_and_distinct `{!FileEnv W}
    (d : string) (cases : list Case) (w w' : W) (paths : list string) :
  parallel_interesting_case_file d cases w = (Return paths, w') →
  length paths = length cases
  ∧ NoDup paths
  ∧ ∀ i c, cases !! i = Some c →
      paths !! i
      = Some (pjoin d (case_file_name (Z.of_nat i) (Z.abs (hash_str c))))
      ∧ ∃ wa wb,
          to_file c (pjoin d (case_file_name (Z.of_nat i)
                                (Z.abs (hash_str c)))) wa
          = (Ok tt, wb).
Proof.
  unfold parallel_interesting_case_file. intros Hrun.
  apply case_file_loop_Return in Hrun as [Hlen Hall].
  split; [exact Hlen|]. split; [|exact Hall].
  apply NoDup_alt. intros i j x Hi Hj.
  destruct (lookup_lt_is_Some_2 cases i) as [ci Hci];
    [rewrite <- Hlen; eapply lookup_lt_Some, Hi|].
  destruct (lookup_lt_is_Some_2 cases j) as [cj Hcj];
    [rewrite <- Hlen; eapply lookup_lt_Some, Hj|].
  destruct (Hall i ci Hci) as [Hpi _]. destruct (Hall j cj Hcj) as [Hpj _].
  simpl in Hpi, Hpj. rewrite Hi in Hpi. rewrite Hj in Hpj.
  injection Hpi as ->. injection Hpj as Heq.
  apply pjoin_relative_inj in Heq; try apply case_file_name_relative.
  apply case_file_name_inj in Heq as [Hij _]; lia.
Qed.

End FileNames.

Lemma case_path_names_counter_witness :
  pjoin "/out" (case_file_name 7 (Z.max (-53) (- -53)))
  = pjoin "/out" (case_file_name 7 (Z.max 53 (- 53)))
  ∧ 7 = 7 ∧ Z.abs (-53) = Z.abs 53.
Proof.
  assert (Heq : pjoin "/out" (case_file_name 7 (Z.max (-53) (- -53)))
                = pjoin "/out" (case_file_name 7 (Z.max 53 (- 53))))
    by reflexivity.
  split; [exact Heq|].
  apply (case_path_names_counter "/out" 7 7 (-53) 53);
    [lia | lia | exact Heq].
Defined.

Lemma case_files_numbered_and_distinct_witness :
  (parallel_interesting_case_file (FileEnv0 := FileFixtures.file_env) "/out"
     [Fixtures.found_case; FileFixtures.second_case] TestEnv.empty_world).1
  = Return FileFixtures.two_paths
  ∧ length FileFixtures.two_paths = 2%nat
  ∧ NoDup FileFixtures.two_paths.
Proof.
  split; [vm_compute; reflexivity|].
  destruct (parallel_interesting_case_file (FileEnv0 := FileFixtures.file_env)
              "/out" [Fixtures.found_case; FileFixtures.second_case]
              TestEnv.empty_world) as [r w'] eqn:Hrun.
  assert (Hr : r = Return FileFixtures.two_paths).
  { apply (f_equal fst) in Hrun. simpl in Hrun. rewrite <- Hrun.
    vm_compute. reflexivity. }
  subst r.
  destruct (case_files_numbered_and_distinct
              (FileEnv0 := FileFixtures.file_env) "/out"
              [Fixtures.found_case; FileFixtures.second_case]
              TestEnv.empty_world w' FileFixtures.two_paths Hrun)
    as (Hlen & Hnd & _).
  split; [exact Hlen | exact Hnd].
Defined.


(** ** The worker *)

Section WorkerFacts.
Context {W : Type} `{!Env W}.

Lemma generate_interesting_case_found fuel self config scen (w : W) c w' :
  generate_interesting_case fuel self config scen w = (Return c, w') →
  ∃ tl al,
    found_in tl al (code c)
      (add_flags scen (_get_runner_details self config).2) c
    ∧ tl.*1
      = target_settings (add_flags scen (_get_runner_details self config).2).
Proof.
  unfold generate_interesting_case.
  destruct (_get_runner_details self config) as [[pg ec] flags]. simpl.
  intros Hloop.
  apply discovery_loop_Return in Hloop as (f & code0 & w0 & w1 & Hgen & Hatt).
  apply attempt_Some_extract in Hatt as (tl & al & w2 & Hfa & Hex).
  pose proof (extract_case_Some _ _ _ _ _ _ _ _ Hex) as Hfound.
  apply find_alive_settings in Hfa as [Htl _].
  exists tl, al. split; [|exact Htl].
  destruct Hfound as [Hc]. now rewrite Hc.
Qed.

(** X25: what a worker puts on the queue.  However its loop ends, the
    messages that [_wrapper_interesting] has added to the queue are the
    dumps of the cases that its calls of [generate_interesting_case]
    returned, in order.  Each of these cases was accepted by the Checker,
    its bad setting is a target setting of its scenario with the
    optimization level of one of its good settings, and the scenario of
    the case at position [k] is the scenario of the worker after [k + 1]
    calls of [add_flags]: the flags of the generator are added again in
    every round. *)
Theorem worker_puts_accepted_cases (dumps : Case → string)
    (fuel : nat) (self : CaseGenerator) (config : Config) (scen : Scenario)
    (queue queue' : list string) (w w' : W) (r : option exn) :
  _wrapper_interesting dumps fuel self config scen queue w = (r, queue', w') →
  ∃ cs,
    queue' = queue ++ map dumps cs
    ∧ ∀ k c, cs !! k = Some c →
        scenario c
        = flagged (_get_runner_details self config).2 (S k) scen
        ∧ (∃ wa wb, is_interesting c wa = (Ok true, wb))
        ∧ bad_setting c ∈ target_settings (scenario c)
        ∧ opt_level (bad_setting c) ∈ map opt_level (good_settings c).
Proof.
  revert scen queue w.
  induction fuel as [|fuel IH]; intros scen queue w; simpl.
  - intros [= <- <- <-]. exists []. simpl. rewrite app_nil_r.
    split; [reflexivity|]. intros k c Hk. discriminate.
  - destruct (generate_interesting_case fuel self config scen w)
      as [[c|e|] w1] eqn:Hgen.
    + intros Hrec. apply IH in Hrec as (cs & Hq & Hall).
      exists (c :: cs). split; [now rewrite Hq, <- app_assoc|].
      intros [|k] c' Hk; simpl in Hk.
      * injection Hk as <-.
        apply generate_interesting_case_found in Hgen
          as (tl & al & [_ Hs (S0 & Hin & _) _ _ Htier _ _ _ Hacc] & Htl).
        split_and!; auto.
        rewrite Hs, <- Htl. apply list_elem_of_fmap. now exists (bad_setting c, S0).
      * destruct (Hall k c' Hk) as (Hs & Hrest).
        split; [|exact Hrest].
        rewrite Hs. unfold flagged.
        exact (Nat.iter_swap (S k) _
                 (λ s, add_flags s (_get_runner_details self config).2) scen).
    + intros [= <- <- <-]. exists []. simpl. rewrite app_nil_r.
      split; [reflexivity|]. intros k c Hk. discriminate.
    + intros [= <- <- <-]. exists []. simpl. rewrite app_nil_r.
      split; [reflexivity|]. intros k c Hk. discriminate.
Qed.

End WorkerFacts.

Lemma worker_puts_accepted_cases_witness :
  _wrapper_interesting (Env0 := Fixtures.e_accept) WorkerFixtures.test_dumps 4
    CSmithCaseGenerator TestEnv.test_config TestEnv.test_scenario []
    TestEnv.empty_world
  = (None,
     ["-I/usr/include/csmith"; "-I/usr/include/csmith -I/usr/include/csmith"],
     Fixtures.w_closed)
  ∧ ∃ cs,
      ["-I/usr/include/csmith"; "-I/usr/include/csmith -I/usr/include/csmith"]
      = [] ++ map WorkerFixtures.test_dumps cs
      ∧ ∀ k c, cs !! k = Some c →
          scenario c
          = flagged (Env0 := Fixtures.e_accept)
              ["-I/usr/include/csmith"] (S k) TestEnv.test_scenario.
Proof.
  assert (Hrun : _wrapper_interesting (Env0 := Fixtures.e_accept)
                   WorkerFixtures.test_dumps 4 CSmithCaseGenerator
                   TestEnv.test_config TestEnv.test_scenario []
                   TestEnv.empty_world
                 = (None,
                    ["-I/usr/include/csmith";
                     "-I/usr/include/csmith -I/usr/include/csmith"],
                    Fixtures.w_closed))
    by (vm_compute; reflexivity).
  split; [exact Hrun|].
  destruct (worker_puts_accepted_cases (Env0 := Fixtures.e_accept)
              WorkerFixtures.test_dumps 4 CSmithCaseGenerator
              TestEnv.test_config TestEnv.test_scenario [] _
              TestEnv.empty_world _ _ Hrun) as (cs & Hq & Hall).
  exists cs. split; [exact Hq|].
  intros k c Hk. exact (proj1 (Hall k c Hk)).
Defined.
